(** * disku: threshold alerting engine (disku.py)

    A shallow embedding of the alerting core of [disku.py]: the size and
    interval parsers, the condition grammar and evaluator ([AlertCheck]),
    the case-insensitive dictionary the evaluator reads samples through,
    the debounce buffer ([AlertBuffer]) and the channel cache
    ([AlertChannel.load]).

    Conventions of the embedding.
    - A Python [str] is a [list ascii]; a character is read as the Latin-1
      code point of its byte.  The character classes of [re] ([\d], [\s],
      [\w]) and [str.lower]/[str.upper] are given on those 256 code points.
    - A Python exception is a value of [exn]; a call that may raise returns
      a [result].
    - A [dict] whose iteration order is observed (the sample behind
      [CaseInsensitiveDict]) is an association list in insertion order; a
      [dict] used as a plain map (the pending alerts, the channel cache) is
      a [gmap].
    - [float] arithmetic is taken through the interface [PyFloat]. *)

From Stdlib Require Import ZArith NArith QArith List Ascii String Bool Lia.
From stdpp Require Import base option list gmap strings.

Local Open Scope Z_scope.

(** ** Exceptions and results *)

Inductive exn : Type :=
| ValueError
| IndexError
| TypeError
| KeyError
| ZeroDivisionError
| OverflowError
| SyntaxError.

Inductive result (A : Type) : Type :=
| Ok (a : A)
| Raise (e : exn).

Arguments Ok {A} a.
Arguments Raise {A} e.

Definition rbind {A B : Type} (m : result A) (f : A -> result B) : result B :=
  match m with
  | Ok a => f a
  | Raise e => Raise e
  end.

Notation "'let!' x ':=' m 'in' k" := (rbind m (fun x => k))
  (at level 10, x name, m at level 100, k at level 200).

(** ** Strings and character classes *)

Definition str : Type := list ascii.

(** Literals are written as Rocq strings and read as character lists. *)
Definition s2l (s : string) : str := list_ascii_of_string s.

Definition code (c : ascii) : N := N_of_ascii c.

Definition in_range (lo hi : N) (c : ascii) : bool :=
  ((lo <=? code c) && (code c <=? hi))%N.

Definition is_code (n : N) (c : ascii) : bool := (code c =? n)%N.

(** [\d]: the decimal digits. *)
Definition is_digit (c : ascii) : bool := in_range 48 57 c.

(** [[1-9]]. *)
Definition is_digit19 (c : ascii) : bool := in_range 49 57 c.

(** [\s] and [str.isspace]. *)
Definition is_space (c : ascii) : bool :=
  in_range 9 13 c || in_range 28 31 c || is_code 32 c
  || is_code 133 c || is_code 160 c.

(** [\w]: alphanumeric characters and the underscore. *)
Definition is_word (c : ascii) : bool :=
  in_range 48 57 c || in_range 65 90 c || in_range 97 122 c || is_code 95 c
  || is_code 170 c || is_code 178 c || is_code 179 c || is_code 181 c
  || is_code 185 c || is_code 186 c || in_range 188 190 c
  || in_range 192 214 c || in_range 216 246 c || in_range 248 255 c.

(** [str.lower] on one character. *)
Definition lower_char (c : ascii) : ascii :=
  if in_range 65 90 c || in_range 192 214 c || in_range 216 222 c
  then ascii_of_N (code c + 32) else c.

(** [str.upper] on one character.  The three code points whose upper case
    is not a single Latin-1 character (181, 223, 255) are left unchanged;
    the code only asks whether the result occurs in a string of ASCII
    capitals, which it does not either way. *)
Definition upper_char (c : ascii) : ascii :=
  if in_range 97 122 c || in_range 224 246 c || in_range 248 254 c
  then ascii_of_N (code c - 32) else c.

Definition lower (s : str) : str := map lower_char s.

Definition ascii_eqb (a b : ascii) : bool := Ascii.eqb a b.

Fixpoint str_eqb (a b : str) : bool :=
  match a, b with
  | [], [] => true
  | x :: a', y :: b' => ascii_eqb x y && str_eqb a' b'
  | _, _ => false
  end.

(** [s[-1]]: the last character, [IndexError] on the empty string. *)
Fixpoint last_char (s : str) : option ascii :=
  match s with
  | [] => None
  | [c] => Some c
  | _ :: s' => last_char s'
  end.

(** [s[:-1]]. *)
Definition but_last (s : str) : str := removelast s.

(** [s.find(c)] for a one-character needle: the index of the first
    occurrence, or [-1]. *)
Fixpoint str_find (c : ascii) (s : str) : Z :=
  match s with
  | [] => -1
  | x :: s' =>
      if ascii_eqb x c then 0
      else let i := str_find c s' in if i =? -1 then -1 else i + 1
  end.

(** ** [int(s)] on a string *)

(** The white space [int] strips around the number. *)
Definition is_int_space (c : ascii) : bool :=
  in_range 9 13 c || is_code 32 c || is_code 133 c || is_code 160 c.

Fixpoint lstrip (s : str) : str :=
  match s with
  | c :: s' => if is_int_space c then lstrip s' else s
  | [] => []
  end.

Definition strip (s : str) : str := rev (lstrip (rev (lstrip s))).

Definition digit_val (c : ascii) : Z := Z.of_N (code c) - 48.

(** Digits with single underscores between them; [prev] tells whether the
    previous character was a digit. *)
Fixpoint digits_val (acc : Z) (prev : bool) (s : str) : option Z :=
  match s with
  | [] => if prev then Some acc else None
  | c :: s' =>
      if is_digit c then digits_val (acc * 10 + digit_val c) true s'
      else if is_code 95 c && prev then digits_val acc false s'
      else None
  end.

Definition py_int (s : str) : option Z :=
  match strip s with
  | c :: d =>
      if is_code 43 c then digits_val 0 false d
      else if is_code 45 c then Z.opp <$> digits_val 0 false d
      else digits_val 0 false (c :: d)
  | [] => None
  end.

(** [int(s)] as a call: [ValueError] when the text is not an integer. *)
Definition int_of_str (s : str) : result Z :=
  match py_int s with
  | Some n => Ok n
  | None => Raise ValueError
  end.

(** ** Regular expressions: the backtracking matcher of [re] *)

Inductive re : Type :=
| Eps
| Chr (p : ascii -> bool)
| Cat (r1 r2 : re)
| Alt (r1 r2 : re)
| Star (r : re)
| Group (g : string) (r : re).

(** [r+] and [r?] (both greedy). *)
Definition Plus (r : re) : re := Cat r (Star r).
Definition Opt (r : re) : re := Alt r Eps.

Definition Lit (c : ascii) : re := Chr (ascii_eqb c).

(** The groups captured so far, most recent first. *)
Definition caps : Type := list (string * str).

Fixpoint caps_get (g : string) (cs : caps) : option str :=
  match cs with
  | [] => None
  | (g', v) :: cs' => if String.eqb g g' then Some v else caps_get g cs'
  end.

(** The loop of a repetition: [body] matches one iteration, [k] is what
    follows the repetition, [n] bounds the iterations left (an iteration
    that consumes nothing is not repeated, so the length of the input is
    enough).  One more iteration is tried before leaving the loop. *)
Definition star_loop {A : Type}
    (body : str -> caps -> (str -> caps -> option A) -> option A)
    (k : str -> caps -> option A) : nat -> str -> caps -> option A :=
  fix loop (n : nat) (s : str) (cs : caps) {struct n} : option A :=
    match n with
    | O => k s cs
    | S n' =>
        match body s cs
                (fun s' cs' =>
                   if (length s' <? length s)%nat then loop n' s' cs'
                   else None) with
        | Some x => Some x
        | None => k s cs
        end
    end.

(** [bt r s cs k]: match [r] at the head of [s], then hand the rest of the
    input and the captures to the continuation [k]; when [k] refuses, try
    the next alternative.  Alternatives are tried left to right and
    repetitions longest first, as [re] does. *)
Fixpoint bt {A : Type} (r : re) (s : str) (cs : caps)
    (k : str -> caps -> option A) {struct r} : option A :=
  match r with
  | Eps => k s cs
  | Chr p =>
      match s with
      | c :: s' => if p c then k s' cs else None
      | [] => None
      end
  | Cat r1 r2 => bt r1 s cs (fun s' cs' => bt r2 s' cs' k)
  | Alt r1 r2 =>
      match bt r1 s cs k with
      | Some x => Some x
      | None => bt r2 s cs k
      end
  | Star r1 => star_loop (bt r1) k (length s) s cs
  | Group g r1 =>
      bt r1 s cs
         (fun s' cs' => k s' ((g, take (length s - length s') s) :: cs'))
  end.

(** [re.fullmatch(r, s)]: the captures of the first way of matching the
    whole of [s]. *)
Definition fullmatch (r : re) (s : str) : option caps :=
  bt r s [] (fun s' cs => match s' with [] => Some cs | _ => None end).

(** [re.match(r, s)]: the first way of matching a prefix of [s]; the rest
    of the input and the captures. *)
Definition match_prefix (r : re) (s : str) : option (str * caps) :=
  bt r s [] (fun s' cs => Some (s', cs)).

(** [re.finditer(r, s)]: the matches found scanning left to right, each
    with the matched text and its captures.  A match that consumes nothing
    counts as no match at that position (the pattern searched for in this
    program always consumes a character). *)
Fixpoint finditer_fuel (n : nat) (r : re) (s : str) : list (str * caps) :=
  match n with
  | O => []
  | S n' =>
      match match_prefix r s with
      | Some (s', cs) =>
          if (length s' <? length s)%nat
          then (take (length s - length s') s, cs) :: finditer_fuel n' r s'
          else match s with
               | [] => []
               | _ :: t => finditer_fuel n' r t
               end
      | None =>
          match s with
          | [] => []
          | _ :: t => finditer_fuel n' r t
          end
      end
  end.

Definition finditer (r : re) (s : str) : list (str * caps) :=
  finditer_fuel (S (length s)) r s.

(** [re.split(r, s)]: the pieces of [s] between the matches of [r]; [cur]
    holds the characters of the current piece, last first. *)
Fixpoint re_split_fuel (n : nat) (r : re) (cur : str) (s : str) : list str :=
  match n with
  | O => [rev cur]
  | S n' =>
      match s with
      | [] => [rev cur]
      | c :: t =>
          match match_prefix r s with
          | Some (s', _) =>
              if (length s' <? length s)%nat
              then rev cur :: re_split_fuel n' r [] s'
              else re_split_fuel n' r (c :: cur) t
          | None => re_split_fuel n' r (c :: cur) t
          end
      end
  end.

Definition re_split (r : re) (s : str) : list str :=
  re_split_fuel (S (length s)) r [] s.

(** ** Numbers *)

(** The part of [float] the program uses: the conversion of an integer,
    the literal [100.0], the division of two floats, the test for zero, the
    division [a / b] of two integers (the quotient rounded once), and the
    order of two floats and of an integer and a float ([None] when they
    are unordered, one of them being a NaN).  [float_of_int n] and
    [int_truediv a b] are the roundings of [n] and of the quotient of [a]
    by [b]; they are asked for only where the rounding stays inside the
    range of [float], see [to_float] and [truediv]. *)
Class PyFloat : Type := {
  float : Type;
  float_of_int : Z -> float;
  float_100 : float;
  float_div : float -> float -> float;
  float_is_zero : float -> bool;
  int_truediv : Z -> Z -> float;
  float_compare : float -> float -> option comparison;
  int_float_compare : Z -> float -> option comparison
}.

(** The range of [float], the binary64 format: an integer or a quotient of
    integers rounds to a float when its magnitude is below [float_limit],
    half a unit in the last place above the largest float; from there on
    Python raises [OverflowError]. *)
Definition float_limit : Z := 2 ^ 1024 - 2 ^ 970.

(** The integer [n] is within the range of [float]. *)
Definition int_fits (n : Z) : bool := Z.abs n <? float_limit.

(** The quotient of [a] by [b] is within the range of [float]. *)
Definition quotient_fits (a b : Z) : bool := Z.abs a <? float_limit * Z.abs b.

Section Values.
Context `{PyFloat}.

Inductive value : Type :=
| VInt (n : Z)
| VFloat (x : float).

(** [isinstance(v, float)]. *)
Definition is_float (v : value) : bool :=
  match v with
  | VFloat _ => true
  | VInt _ => false
  end.

(** The operand of a division that has a float on one side: a float as it
    is, an integer converted, with [OverflowError] when it is out of
    range. *)
Definition to_float (v : value) : result float :=
  match v with
  | VInt n => if int_fits n then Ok (float_of_int n) else Raise OverflowError
  | VFloat x => Ok x
  end.

(** A number is zero; an integer converted to a float is zero when the
    integer is. *)
Definition is_zero (v : value) : bool :=
  match v with
  | VInt n => n =? 0
  | VFloat x => float_is_zero x
  end.

(** [l / r] on numbers.  Two integers: [ZeroDivisionError] on the divisor
    0, then [OverflowError] when the quotient is out of the range of
    [float].  Otherwise both operands are taken as floats, which can raise
    [OverflowError], before the divisor is tested; the quotient of two
    floats is a float in every case. *)
Definition truediv (l r : value) : result value :=
  match l, r with
  | VInt a, VInt b =>
      if b =? 0 then Raise ZeroDivisionError
      else if quotient_fits a b then Ok (VFloat (int_truediv a b))
      else Raise OverflowError
  | _, _ =>
      let! x := to_float l in
      let! y := to_float r in
      if is_zero r then Raise ZeroDivisionError
      else Ok (VFloat (float_div x y))
  end.

(** The order of two numbers. *)
Definition num_compare (l r : value) : option comparison :=
  match l, r with
  | VInt a, VInt b => Some (a ?= b)
  | VInt a, VFloat y => int_float_compare a y
  | VFloat x, VInt b => CompOpp <$> int_float_compare b x
  | VFloat x, VFloat y => float_compare x y
  end.

End Values.

(** ** [CaseInsensitiveDict] *)

Module CaseInsensitiveDict.
Section Methods.
Context {V : Type}.

(** The items of the underlying [dict], in insertion order. *)
Definition t : Type := list (str * V).

(** [dict.get], [dict.__getitem__] and [dict.__setitem__] of the base
    class. *)
Fixpoint dict_get (d : t) (k : str) : option V :=
  match d with
  | [] => None
  | (k', v) :: d' => if str_eqb k' k then Some v else dict_get d' k
  end.

Definition dict_getitem (d : t) (k : str) : result V :=
  match dict_get d k with
  | Some v => Ok v
  | None => Raise KeyError
  end.

Fixpoint dict_setitem (d : t) (k : str) (v : V) : t :=
  match d with
  | [] => [(k, v)]
  | (k', v') :: d' =>
      if str_eqb k' k then (k', v) :: d' else (k', v') :: dict_setitem d' k v
  end.

(** The loop of [_find_key]: the first key whose lower case is [lkey]. *)
Fixpoint first_key (d : t) (lkey : str) : option str :=
  match d with
  | [] => None
  | (k, _) :: d' => if str_eqb (lower k) lkey then Some k else first_key d' lkey
  end.

Definition _find_key (d : t) (key : str) : str :=
  match first_key d (lower key) with
  | Some k => k
  | None => key
  end.

Definition __lower_keys__ (d : t) : list str := map (fun kv => lower kv.1) d.

(** [x in l] on a list of strings. *)
Definition list_contains (l : list str) (x : str) : bool := existsb (str_eqb x) l.

Definition __contains__ (d : t) (key : str) : bool :=
  list_contains (__lower_keys__ d) (_find_key d key).

Definition __getitem__ (d : t) (key : str) : result V :=
  dict_getitem d (_find_key d key).

Definition __setitem__ (d : t) (key : str) (val : V) : t :=
  dict_setitem d (_find_key d key) val.

(** [get] with the default [None]. *)
Definition get (d : t) (key : str) : option V :=
  dict_get d (_find_key d key).

(** [get] with a default. *)
Definition get_default (d : t) (key : str) (defval : option V) : option V :=
  match dict_get d (_find_key d key) with
  | Some v => Some v
  | None => defval
  end.

(** [dict.__delitem__] of the base class: the entry of [k] is taken out,
    [KeyError] when there is none. *)
Fixpoint dict_remove (d : t) (k : str) : t :=
  match d with
  | [] => []
  | (k', v) :: d' => if str_eqb k' k then d' else (k', v) :: dict_remove d' k
  end.

Definition dict_delitem (d : t) (k : str) : result t :=
  match dict_get d k with
  | Some _ => Ok (dict_remove d k)
  | None => Raise KeyError
  end.

Definition __delitem__ (d : t) (key : str) : result t :=
  dict_delitem d (_find_key d key).

(** The keys, in order. *)
Definition keys (d : t) : list str := map fst d.

(** No two keys are equal up to case. *)
Definition collision_free (d : t) : Prop := NoDup (map lower (keys d)).

(** Every key is written in lower case. *)
Definition lower_case_keys (d : t) : Prop := Forall (fun k => lower k = k) (keys d).

End Methods.
End CaseInsensitiveDict.

(** ** [ConfigProxy] *)

Module ConfigProxy.
Section Methods.
Context {V : Type}.

Record t : Type := {
  src : CaseInsensitiveDict.t (V := V);
  namespace : str
}.

Definition __init__ (src : list (str * V)) (namespace : str) : t :=
  {| src := src; namespace := namespace |}.

(** [key]: the name space, a dot, and the key. *)
Definition key (self : t) (k : str) : str := namespace self ++ s2l "." ++ k.

Definition __getitem__ (self : t) (k : str) : result V :=
  CaseInsensitiveDict.__getitem__ (src self) (key self k).

Definition get (self : t) (k : str) (defval : option V) : option V :=
  CaseInsensitiveDict.get_default (src self) (key self k) defval.

End Methods.
End ConfigProxy.

(** ** [BinaryOperator] *)

Inductive BinaryOperator : Type := OpLt | OpLe | OpGt | OpGe | OpEq.

Module BinaryOperatorM.
Section Methods.
Context `{PyFloat}.

(** [BinaryOperator(op)]: [eval] of [lambda l, r: l <op> r].  Only the
    five operators the condition grammar lets through are given; other
    text is rejected here. *)
Definition __init__ (op : str) : result BinaryOperator :=
  if str_eqb op (s2l "<") then Ok OpLt
  else if str_eqb op (s2l "<=") then Ok OpLe
  else if str_eqb op (s2l ">") then Ok OpGt
  else if str_eqb op (s2l ">=") then Ok OpGe
  else if str_eqb op (s2l "==") then Ok OpEq
  else Raise SyntaxError.

Definition holds (op : BinaryOperator) (c : option comparison) : bool :=
  match op, c with
  | OpLt, Some Lt => true
  | OpLe, Some Lt | OpLe, Some Eq => true
  | OpGt, Some Gt => true
  | OpGe, Some Gt | OpGe, Some Eq => true
  | OpEq, Some Eq => true
  | _, _ => false
  end.

(** [op(l, r)] where [l] is a number or [None] and [r] a number: [None]
    equals no number and cannot be ordered against one. *)
Definition __call__ (op : BinaryOperator) (l : option value) (r : value) : result bool :=
  match l with
  | None =>
      match op with
      | OpEq => Ok false
      | _ => Raise TypeError
      end
  | Some v => Ok (holds op (num_compare v r))
  end.

End Methods.
End BinaryOperatorM.

(** ** [parse_size_string] and [parse_time_interval] *)

Definition default_suffixes : str := s2l "KMGTPEZY".

Definition parse_size_string (s : str) (suffixes : str) : result Z :=
  match last_char s with
  | None => Raise IndexError
  | Some c =>
      let suffix_idx := str_find (upper_char c) suffixes in
      if suffix_idx =? -1 then int_of_str s
      else let! n := int_of_str (but_last s) in
           Ok (n * 1024 ^ (suffix_idx + 1))
  end.

Definition is_unit (c : ascii) : bool :=
  is_code 115 c || is_code 109 c || is_code 104 c || is_code 100 c.

(** The [suffixes] table of [parse_time_interval], read at [unit]. *)
Definition time_suffix (unit : str) : result Z :=
  if str_eqb unit (s2l "s") then Ok 1
  else if str_eqb unit (s2l "m") then Ok 60
  else if str_eqb unit (s2l "h") then Ok (60 * 60)
  else if str_eqb unit (s2l "d") then Ok (60 * 60 * 24)
  else Raise KeyError.

(** The pattern [re_obj]: group [val] is a digit from 1 to 9 followed by
    any number of digits, group [unit] is one of the letters s, m, h, d. *)
Definition re_obj : re :=
  Cat (Group "val" (Cat (Chr is_digit19) (Star (Chr is_digit))))
      (Group "unit" (Chr is_unit)).

(** The pattern given to [re.fullmatch]: one or more items, each either a
    run of one or more [re_obj] or one white space character. *)
Definition re_interval : re :=
  Plus (Alt (Plus re_obj) (Chr is_space)).

(** A group of a match, as an argument: [None] is no string. *)
Definition group (m : caps) (g : string) : result str :=
  match caps_get g m with
  | Some v => Ok v
  | None => Raise TypeError
  end.

(** The loop over [re.finditer(re_obj, s)]. *)
Fixpoint sum_matches (ms : list (str * caps)) (t : Z) : result Z :=
  match ms with
  | [] => Ok t
  | (_, m) :: ms' =>
      let! val := group m "val" in
      let! unit := group m "unit" in
      let! n := int_of_str val in
      let! u := time_suffix unit in
      sum_matches ms' (t + n * u)
  end.

Definition parse_time_interval (s : str) : result Z :=
  match py_int s with
  | Some n => Ok n
  | None =>
      match fullmatch re_interval s with
      | None => Raise ValueError
      | Some _ => sum_matches (finditer re_obj s) 0
      end
  end.

(** ** [AlertCheck] *)

Section Conditions.
Context `{PyFloat}.

(** One entry of [self.conditions]: the tuple (var, op, val, raw). *)
Record condition : Type := Condition {
  c_var : str;
  c_op : BinaryOperator;
  c_val : value;
  c_raw : str
}.

End Conditions.

Definition is_lt_gt (c : ascii) : bool := is_code 60 c || is_code 62 c.

Definition is_KMGTP (c : ascii) : bool :=
  is_code 75 c || is_code 77 c || is_code 71 c || is_code 84 c || is_code 80 c.

(** The alternatives of the value group of [re_cmp], in order: the text
    100 percent, the text 0 percent, one or two digits (the first not 0)
    and a percent sign, and a size (digits, the first not 0, and an
    optional letter among K, M, G, T, P). *)
Definition re_val : re :=
  Alt (Cat (Lit "1") (Cat (Lit "0") (Cat (Lit "0") (Lit "%"))))
 (Alt (Cat (Lit "0") (Lit "%"))
 (Alt (Cat (Chr is_digit19) (Cat (Opt (Chr is_digit)) (Lit "%")))
      (Cat (Chr is_digit19) (Cat (Star (Chr is_digit)) (Opt (Chr is_KMGTP)))))).

(** The operator group: [<] or [>] with an optional [=], or [==]. *)
Definition re_op : re :=
  Alt (Cat (Chr is_lt_gt) (Opt (Lit "="))) (Cat (Lit "=") (Lit "=")).

(** [re_cmp]: variable name, spaces, operator, spaces, value. *)
Definition re_cmp : re :=
  Cat (Group "var" (Plus (Chr is_word)))
 (Cat (Star (Chr is_space))
 (Cat (Group "op" re_op)
 (Cat (Star (Chr is_space))
      (Group "val" re_val)))).

(** The separator of [re.split]: a comma with the white space around it. *)
Definition re_comma : re :=
  Cat (Star (Chr is_space)) (Cat (Lit ",") (Star (Chr is_space))).

Module AlertCheck.
Section Methods.
Context `{PyFloat}.

(** [parse_val].  In the division by [100.0] the integer is converted
    first, which raises [OverflowError] out of the range of [float]; the
    divisor is not zero. *)
Definition parse_val (v : str) : result value :=
  match last_char v with
  | None => Raise IndexError
  | Some c =>
      if ascii_eqb c "%"
      then let! n := int_of_str (but_last v) in
           let! x := to_float (VInt n) in
           Ok (VFloat (float_div x float_100))
      else let! n := parse_size_string v default_suffixes in
           Ok (VInt n)
  end.

(** The loop of [parse] over the pieces of the condition string;
    [conditions] is [self.conditions].  The result is the returned flag and
    the list as the loop leaves it. *)
Fixpoint parse_loop (pieces : list str) (conditions : list condition)
    : result (bool * list condition) :=
  match pieces with
  | [] => Ok (true, conditions)
  | cond :: rest =>
      match fullmatch re_cmp cond with
      | None => Ok (false, conditions)
      | Some m =>
          let raw := cond in
          let! var := group m "var" in
          let! op := group m "op" in
          let! val := group m "val" in
          let! f := BinaryOperatorM.__init__ op in
          let! v := parse_val val in
          parse_loop rest (conditions ++ [Condition var f v raw])
      end
  end.

Definition parse (self_conditions : list condition) (conditions : str)
    : result (bool * list condition) :=
  parse_loop (re_split re_comma conditions) self_conditions.

(** [AlertCheck(conditions)]: the conditions of the new object, or the
    exception that leaves the caller without one. *)
Definition __init__ (conditions : str) : result (list condition) :=
  let! r := parse [] conditions in
  if r.1 then Ok r.2 else Raise ValueError.

Definition validate_params (disk_usage : CaseInsensitiveDict.t (V := value)) : bool :=
  CaseInsensitiveDict.__contains__ disk_usage (s2l "used")
  && CaseInsensitiveDict.__contains__ disk_usage (s2l "free")
  && CaseInsensitiveDict.__contains__ disk_usage (s2l "total").

(** The loop of [__call__] over the conditions; [None] is the [False] the
    method returns when no condition holds. *)
Fixpoint check_loop (du : CaseInsensitiveDict.t (V := value))
    (conditions : list condition) : result (option str) :=
  match conditions with
  | [] => Ok None
  | c :: rest =>
      let var := if is_float (c_val c) then c_var c ++ s2l "_p" else c_var c in
      let! b := BinaryOperatorM.__call__ (c_op c) (CaseInsensitiveDict.get du var) (c_val c) in
      if b then Ok (Some (c_raw c)) else check_loop du rest
  end.

(** The dictionary [__call__] evaluates the conditions on: the sample with
    the two derived fields set. *)
Definition with_percentages (du : CaseInsensitiveDict.t (V := value))
    : result (CaseInsensitiveDict.t (V := value)) :=
  let! used := CaseInsensitiveDict.__getitem__ du (s2l "used") in
  let! total := CaseInsensitiveDict.__getitem__ du (s2l "total") in
  let! used_p := truediv used total in
  let du := CaseInsensitiveDict.__setitem__ du (s2l "used_p") used_p in
  let! free := CaseInsensitiveDict.__getitem__ du (s2l "free") in
  let! total := CaseInsensitiveDict.__getitem__ du (s2l "total") in
  let! free_p := truediv free total in
  Ok (CaseInsensitiveDict.__setitem__ du (s2l "free_p") free_p).

(** [CaseInsensitiveDict(disk_usage)] for a sample with integer fields. *)
Definition sample_dict (disk_usage : list (str * Z)) : CaseInsensitiveDict.t (V := value) :=
  map (fun kv => (kv.1, VInt kv.2)) disk_usage.

(** [checker(disk_usage)]. *)
Definition __call__ (self_conditions : list condition) (disk_usage : list (str * Z))
    : result (option str) :=
  let du := sample_dict disk_usage in
  if negb (validate_params du) then Raise ValueError
  else let! du := with_percentages du in
       check_loop du self_conditions.

End Methods.
End AlertCheck.

(** ** [AlertChannel] *)

Module AlertChannel.

(** [ConfigProxy]: the configuration and the name space its keys are read
    under. *)
Record ConfigProxy : Type := {
  src : gmap str str;
  namespace : str
}.

(** A channel object: its class, its [config], and how many times
    [prepare] ran on it. *)
Record instance : Type := {
  klass : str;
  config : ConfigProxy;
  prepared : nat
}.

(** The objects created so far (an object is named by its position) and
    the class attribute [_channel_cache]. *)
Record world : Type := {
  heap : list instance;
  _channel_cache : gmap str nat
}.

(** [_find_subclass(parent, name)] over the names of
    [parent.__subclasses__()].  The [raise] stands inside the loop, after
    the test of the first class; with no subclass at all the function falls
    off its end and returns [None]. *)
Definition _find_subclass (subclasses : list str) (parent_name name : str)
    : result (option str) :=
  let name := lower (name ++ parent_name) in
  match subclasses with
  | [] => Ok None
  | klass :: _ =>
      if str_eqb (lower klass) name then Ok (Some klass) else Raise KeyError
  end.

(** [instance.prepare()], as far as the cache is concerned: that it ran.
    The method of the base class does nothing and that of the webhook
    channel reads its [mixin], keeping an empty one when the text is not
    JSON; neither raises on a configuration of strings. *)
Definition prepare (i : instance) : instance :=
  {| klass := klass i; config := config i; prepared := S (prepared i) |}.

(** [cache.setdefault(name, o)]. *)
Definition setdefault (cache : gmap str nat) (name : str) (o : nat)
    : nat * gmap str nat :=
  match cache !! name with
  | Some o' => (o', cache)
  | None => (o, <[name := o]> cache)
  end.

Definition load (subclasses : list str) (cfg : gmap str str) (w : world)
    : result nat * world :=
  match cfg !! s2l "disku.alert_channel" with
  | None => (Raise KeyError, w)
  | Some name =>
      match _channel_cache w !! name with
      | Some cached => (Ok cached, w)
      | None =>
          match _find_subclass subclasses (s2l "AlertChannel") name with
          | Raise e => (Raise e, w)
          | Ok None => (Raise TypeError, w)
          | Ok (Some k) =>
              let o := length (heap w) in
              let i := {| klass := k;
                          config := {| src := cfg; namespace := lower name |};
                          prepared := 0 |} in
              let h := alter prepare o (heap w ++ [i]) in
              let r := setdefault (_channel_cache w) name o in
              (Ok r.1, {| heap := h; _channel_cache := r.2 |})
          end
      end
  end.

(** The number of [prepare] calls made so far, over all objects. *)
Definition prepare_calls (w : world) : nat :=
  foldr (fun i n => (prepared i + n)%nat) 0%nat (heap w).

End AlertChannel.

(** ** [AlertBuffer] *)

Module AlertBuffer.

Record t : Type := {
  interval : Z;
  next_time : Z;
  buffer : gmap str str;
  fire : gmap str str -> result unit
}.

Definition __init__ (interval : Z) (fire : gmap str str -> result unit) : t :=
  {| interval := interval; next_time := 0; buffer := ∅; fire := fire |}.

(** The object after [self.buffer[identifier] = data]. *)
Definition stored (self : t) (identifier data : str) : t :=
  {| interval := interval self; next_time := next_time self;
     buffer := <[identifier := data]> (buffer self); fire := fire self |}.

(** The object after the two assignments that end a flush; [now2] is the
    reading of the clock in the second. *)
Definition flushed (self : t) (now2 : Z) : t :=
  {| interval := interval self; next_time := now2 + interval self;
     buffer := ∅; fire := fire self |}.

(** [push(identifier, data)].  [now1] and [now2] are the two readings of
    [time.time()], in program order.  The result is the outcome of the
    call, the object after it, and the arguments of the calls made to
    [fire]. *)
Definition push (self : t) (identifier data : str) (now1 now2 : Z)
    : result unit * t * list (gmap str str) :=
  let self := stored self identifier data in
  if next_time self <=? now1 then
    match fire self (buffer self) with
    | Raise e => (Raise e, self, [buffer self])
    | Ok _ => (Ok tt, flushed self now2, [buffer self])
    end
  else (Ok tt, self, []).

(** What can happen to a buffer: a call of [push], during which the clock
    is read twice, or time passing with no call. *)
Inductive event : Type :=
| Push (identifier data : str) (now1 now2 : Z)
| Idle (now : Z).

Definition is_push (e : event) : bool :=
  match e with
  | Push _ _ _ _ => true
  | Idle _ => false
  end.

(** One event: the object after it and the calls made to [fire]. *)
Definition step (self : t) (e : event) : t * list (gmap str str) :=
  match e with
  | Push identifier data now1 now2 =>
      let r := push self identifier data now1 now2 in (r.1.2, r.2)
  | Idle _ => (self, [])
  end.

(** A sequence of events: the object at the end and all calls made to
    [fire], in order. *)
Fixpoint run (self : t) (es : list event) : t * list (gmap str str) :=
  match es with
  | [] => (self, [])
  | e :: es' =>
      let r := step self e in
      let r' := run r.1 es' in
      (r'.1, r.2 ++ r'.2)
  end.

End AlertBuffer.

(** ** What a pattern matches *)

(** [Match r s cs cs']: the text [s] is matched by [r], and the captures
    [cs] become [cs'].  An iteration of a repetition consumes at least one
    character. *)
Inductive Match : re -> str -> caps -> caps -> Prop :=
| MEps cs : Match Eps [] cs cs
| MChr p c cs : p c = true -> Match (Chr p) [c] cs cs
| MCat r1 r2 s1 s2 cs cs1 cs2 :
    Match r1 s1 cs cs1 -> Match r2 s2 cs1 cs2 ->
    Match (Cat r1 r2) (s1 ++ s2) cs cs2
| MAltL r1 r2 s cs cs1 : Match r1 s cs cs1 -> Match (Alt r1 r2) s cs cs1
| MAltR r1 r2 s cs cs1 : Match r2 s cs cs1 -> Match (Alt r1 r2) s cs cs1
| MStar0 r cs : Match (Star r) [] cs cs
| MStarS r s1 s2 cs cs1 cs2 :
    s1 <> [] -> Match r s1 cs cs1 -> Match (Star r) s2 cs1 cs2 ->
    Match (Star r) (s1 ++ s2) cs cs2
| MGroup g r s cs cs1 :
    Match r s cs cs1 -> Match (Group g r) s cs ((g, s) :: cs1).

(** ** The interval language *)

(** The decimal value of a string of digits. *)
Definition decimal (ds : str) : Z :=
  fold_left (fun acc c => acc * 10 + digit_val c) ds 0.

(** The seconds of a unit letter. *)
Definition unit_seconds (u : ascii) : Z :=
  if is_code 115 u then 1
  else if is_code 109 u then 60
  else if is_code 104 u then 3600
  else if is_code 100 u then 86400
  else 0.

(** The pieces an interval string is made of: a pair of a positive
    integer and a unit, or one white space character. *)
Inductive item : Type :=
| IPair (val : str) (unit : ascii)
| ISpace (c : ascii).

Definition positive_digits (v : str) : bool :=
  match v with
  | d :: ds => is_digit19 d && forallb is_digit ds
  | [] => false
  end.

Definition item_ok (i : item) : bool :=
  match i with
  | IPair v u => positive_digits v && is_unit u
  | ISpace c => is_space c
  end.

Definition is_pair (i : item) : bool :=
  match i with
  | IPair _ _ => true
  | ISpace _ => false
  end.

Definition item_text (i : item) : str :=
  match i with
  | IPair v u => v ++ [u]
  | ISpace c => [c]
  end.

Definition items_text (l : list item) : str := concat (map item_text l).

Definition item_seconds (i : item) : Z :=
  match i with
  | IPair v u => decimal v * unit_seconds u
  | ISpace _ => 0
  end.

Definition items_seconds (l : list item) : Z :=
  foldr (fun i t => item_seconds i + t) 0 l.

(** The strings [re.fullmatch] lets through in [parse_time_interval]: one
    or more pieces. *)
Definition interval_text (s : str) : Prop :=
  exists l : list item, l <> [] /\ forallb item_ok l = true /\ s = items_text l.

(** A sequence of pairs with white space only between them: one or more
    pieces, the first and the last of them pairs. *)
Definition pairs_separated (l : list item) : bool :=
  forallb item_ok l
  && match l with i :: _ => is_pair i | [] => false end
  && match rev l with i :: _ => is_pair i | [] => false end.

Definition pair_sequence_text (s : str) : Prop :=
  exists l : list item, pairs_separated l = true /\ s = items_text l.

(** ** The size suffixes *)

(** The position, from 1, of a letter in K, M, G, T, P, E, Z, Y, in
    either case. *)
Definition rank (c : ascii) : option Z :=
  if is_code 75 c || is_code 107 c then Some 1
  else if is_code 77 c || is_code 109 c then Some 2
  else if is_code 71 c || is_code 103 c then Some 3
  else if is_code 84 c || is_code 116 c then Some 4
  else if is_code 80 c || is_code 112 c then Some 5
  else if is_code 69 c || is_code 101 c then Some 6
  else if is_code 90 c || is_code 122 c then Some 7
  else if is_code 89 c || is_code 121 c then Some 8
  else None.

(** ** Reading a sample without regard to case *)

(** A field is present under some casing. *)
Definition has_field {V : Type} (d : list (str * V)) (name : str) : bool :=
  existsb (fun kv => str_eqb (lower kv.1) (lower name)) d.

Section FirstMatch.
Context `{PyFloat}.

(** The field a condition is compared against. *)
Definition field (c : condition) : str :=
  if is_float (c_val c) then c_var c ++ s2l "_p" else c_var c.

(** The comparison of a condition on a dictionary whose fields are all
    numbers; a missing field compares false. *)
Definition satisfied (du : list (str * value)) (c : condition) : bool :=
  match CaseInsensitiveDict.get du (field c) with
  | Some v => BinaryOperatorM.holds (c_op c) (num_compare v (c_val c))
  | None => false
  end.

End FirstMatch.

(** ** Exact arithmetic as a model of [PyFloat] *)

(** Rational numbers with exact division and comparison: a model of the
    interface in which nothing is rounded. *)
#[local] Instance exact_float : PyFloat := {|
  float := Q;
  float_of_int := inject_Z;
  float_100 := inject_Z 100;
  float_div := Qdiv;
  float_is_zero := fun x => Qeq_bool x (inject_Z 0);
  int_truediv := fun a b => Qdiv (inject_Z a) (inject_Z b);
  float_compare := fun x y => Some (Qcompare x y);
  int_float_compare := fun a y => Some (Qcompare (inject_Z a) y)
|}.

(** The condition string and the samples of [test]. *)
Definition test_conditions : str :=
  s2l "FREE == 100G, FREE   <" ++ ["009"%char]
  ++ s2l " 5G, USED     >10G, USED>95%".

Definition GB : Z := 2 ^ 30.

Definition test_sample (used free : Z) : list (str * Z) :=
  [(s2l "total", 100 * GB); (s2l "used", used * GB); (s2l "free", free * GB)].

(** ** Auxiliary notions *)

(** The characters that can occur in a string [int] accepts. *)
Definition int_char (c : ascii) : bool :=
  is_int_space c || is_code 43 c || is_code 45 c || is_digit c || is_code 95 c.

(** The characters other than the comma. *)
Definition not_comma (c : ascii) : bool := negb (ascii_eqb "," c).

(** The captures of a match of [re_obj]. *)
Definition pair_caps (v : str) (u : ascii) (cs : caps) : caps :=
  ("unit"%string, [u]) :: ("val"%string, v) :: cs.

(** The matches [re.finditer(re_obj, ...)] yields on a sequence of
    pieces: its pairs, in order. *)
Fixpoint pair_matches (l : list item) : list (str * caps) :=
  match l with
  | [] => []
  | IPair v u :: l' => (v ++ [u], pair_caps v u []) :: pair_matches l'
  | ISpace _ :: l' => pair_matches l'
  end.

(** One item of the pattern of [re.fullmatch]. *)
Definition re_item : re := Alt (Plus re_obj) (Chr is_space).

Section Derived.
Context `{PyFloat}.

(** A piece that matches becomes a condition: its groups are read, the
    operator is built and the value parsed without an exception. *)
Definition condition_of (piece : str) (c : condition) : Prop :=
  exists m op val,
    fullmatch re_cmp piece = Some m
    /\ caps_get "var" m = Some (c_var c)
    /\ caps_get "op" m = Some op
    /\ caps_get "val" m = Some val
    /\ BinaryOperatorM.__init__ op = Ok (c_op c)
    /\ AlertCheck.parse_val val = Ok (c_val c)
    /\ c_raw c = piece.

(** A sample [validate_params] lets through whose [total] is not zero. *)
Definition valid_sample (sample : list (str * Z)) : Prop :=
  AlertCheck.validate_params (AlertCheck.sample_dict sample) = true
  /\ CaseInsensitiveDict.get sample (s2l "total") <> Some 0.

(** The dictionary the conditions are evaluated on: the sample with
    [used_p] and [free_p] set. *)
Definition evaluated (sample : list (str * Z)) (used free total : Z) : list (str * value) :=
  CaseInsensitiveDict.__setitem__
    (CaseInsensitiveDict.__setitem__ (AlertCheck.sample_dict sample) (s2l "used_p")
       (VFloat (int_truediv used total)))
    (s2l "free_p") (VFloat (int_truediv free total)).

(** A condition that can be evaluated on [du]: it tests equality, or the
    field it names is there. *)
Definition comparable (du : list (str * value)) (c : condition) : Prop :=
  c_op c = OpEq \/ is_Some (CaseInsensitiveDict.get du (field c)).

(** A condition that is evaluated on [du] and does not hold. *)
Definition not_met (du : list (str * value)) (c : condition) : Prop :=
  comparable du c /\ satisfied du c = false.

End Derived.

(** Two of the conditions of [test], as the constructor makes them. *)
Definition test_checker : list (condition (H := exact_float)) :=
  [Condition (s2l "FREE") OpLt (VInt (5 * GB)) (s2l "FREE < 5G");
   Condition (s2l "USED") OpGt
     (VFloat (float_div (float_of_int 95) float_100)) (s2l "USED>95%")].

(** A condition on a field no sample has. *)
Definition foo_condition : condition (H := exact_float) :=
  Condition (s2l "foo") OpGt (VInt 5) (s2l "foo > 5").

(** ** Sequences of resolutions, pushes and reports *)

(** Resolutions one after the other, each with its configuration; the
    results are dropped. *)
Definition loads (subclasses : list str) (cfgs : list (gmap str str))
    (w : AlertChannel.world) : AlertChannel.world :=
  foldl (fun w cfg => (AlertChannel.load subclasses cfg w).2) w cfgs.

(** The cache and the objects agree: every object was prepared once, there
    are as many objects as cached names, every cached name refers to an
    object, and two names never to the same one. *)
Definition cache_sound (w : AlertChannel.world) : Prop :=
  Forall (fun i => AlertChannel.prepared i = 1%nat) (AlertChannel.heap w)
  /\ length (AlertChannel.heap w) = size (AlertChannel._channel_cache w)
  /\ (forall name o, AlertChannel._channel_cache w !! name = Some o ->
        (o < length (AlertChannel.heap w))%nat)
  /\ (forall n1 n2 o, AlertChannel._channel_cache w !! n1 = Some o ->
        AlertChannel._channel_cache w !! n2 = Some o -> n1 = n2).

(** The pending messages after the pushes among [es], none of them
    flushing. *)
Definition pending_after (b : gmap str str) (es : list AlertBuffer.event) : gmap str str :=
  foldl (fun b e =>
           match e with
           | AlertBuffer.Push identifier data _ _ => <[identifier := data]> b
           | AlertBuffer.Idle _ => b
           end) b es.

(** The message of the last push for [identifier] among [es]. *)
Fixpoint last_pushed (identifier : str) (es : list AlertBuffer.event) : option str :=
  match es with
  | [] => None
  | e :: es' =>
      match last_pushed identifier es' with
      | Some d => Some d
      | None =>
          match e with
          | AlertBuffer.Push i d _ _ => if str_eqb i identifier then Some d else None
          | AlertBuffer.Idle _ => None
          end
      end
  end.

(** Every push among [es] reads the clock before [deadline]. *)
Definition all_before (deadline : Z) (es : list AlertBuffer.event) : Prop :=
  Forall (fun e =>
            match e with
            | AlertBuffer.Push _ _ now1 _ => now1 < deadline
            | AlertBuffer.Idle _ => True
            end) es.

(** The number of commas of a string. *)
Definition count_commas (s : str) : nat :=
  length (List.filter (fun c => ascii_eqb "," c) s).

Section WellFormed.
Context `{PyFloat}.

(** A threshold the value pattern can give: a number of hundredths from 0
    to 100, or a positive integer. *)
Definition threshold_ok (v : value) : Prop :=
  (exists n, 0 <= n <= 100 /\ v = VFloat (float_div (float_of_int n) float_100))
  \/ (exists n, 0 < n /\ v = VInt n).

(** A condition as the constructor makes them. *)
Definition condition_ok (c : condition) : Prop :=
  c_var c <> [] /\ forallb is_word (c_var c) = true
  /\ threshold_ok (c_val c)
  /\ forallb not_comma (c_raw c) = true.

(** Two conditions that differ in the case of the variable only. *)
Definition same_up_to_case (c c' : condition) : Prop :=
  lower (c_var c) = lower (c_var c')
  /\ c_op c = c_op c' /\ c_val c = c_val c' /\ c_raw c = c_raw c'.

End WellFormed.

(** The object [load] makes for [name] from the class [k]. *)
Definition made (cfg : gmap str str) (name k : str) : AlertChannel.instance :=
  {| AlertChannel.klass := k;
     AlertChannel.config :=
       {| AlertChannel.src := cfg; AlertChannel.namespace := lower name |};
     AlertChannel.prepared := 1 |}.

(** The object with other pending messages. *)
Definition with_buffer (self : AlertBuffer.t) (b : gmap str str) : AlertBuffer.t :=
  {| AlertBuffer.interval := AlertBuffer.interval self;
     AlertBuffer.next_time := AlertBuffer.next_time self;
     AlertBuffer.buffer := b;
     AlertBuffer.fire := AlertBuffer.fire self |}.

(** Every character a pattern can match has the property [q]. *)
Fixpoint re_chars (q : ascii -> bool) (r : re) : Prop :=
  match r with
  | Eps => True
  | Chr p => forall c, p c = true -> q c = true
  | Cat r1 r2 | Alt r1 r2 => re_chars q r1 /\ re_chars q r2
  | Star r1 | Group _ r1 => re_chars q r1
  end.

(** ** The report handler of [server.py] *)

Module Server.
Section Report.
Context `{PyFloat}.

(** [sep.join(l)]. *)
Fixpoint join (sep : str) (l : list str) : str :=
  match l with
  | [] => []
  | [x] => x
  | x :: l' => x ++ sep ++ join sep l'
  end.

(** The loop of [report] over the paths of [disk_usage], in the order of
    the mapping; [msgs] is the list being filled.  [checker] is the
    configured [AlertCheck]; [alert_msg machine path condition usage] is
    the configured template, formatted.  A [ValueError] of the checker
    skips the path; any other exception leaves the loop. *)
Fixpoint report_loop (checker : list condition)
    (alert_msg : str -> str -> str -> list (str * Z) -> result str)
    (client_name : str) (disk_usage : list (str * list (str * Z)))
    (msgs : list str) : result (list str) :=
  match disk_usage with
  | [] => Ok msgs
  | (path, usage) :: rest =>
      match AlertCheck.__call__ checker usage with
      | Raise ValueError => report_loop checker alert_msg client_name rest msgs
      | Raise e => Raise e
      | Ok (Some (c :: cond)) =>
          let! msg := alert_msg client_name path (c :: cond) usage in
          report_loop checker alert_msg client_name rest (msgs ++ [msg])
      | Ok _ => report_loop checker alert_msg client_name rest msgs
      end
  end.

(** [report], from the loop on, for a request that has both parts and a
    client name that is a string: the response body (or the exception that
    leaves the handler), the buffer afterwards, and the calls made to the
    callback of the buffer.  [now1] and [now2] are the readings of the
    clock in [push]. *)
Definition report (checker : list condition)
    (alert_msg : str -> str -> str -> list (str * Z) -> result str)
    (alert_buffer : AlertBuffer.t) (client_name : str)
    (disk_usage : list (str * list (str * Z))) (now1 now2 : Z)
    : result str * AlertBuffer.t * list (gmap str str) :=
  match report_loop checker alert_msg client_name disk_usage [] with
  | Raise e => (Raise e, alert_buffer, [])
  | Ok [] => (Ok (join ["010"%char] []), alert_buffer, [])
  | Ok msgs =>
      let body := join ["010"%char] msgs in
      let r := AlertBuffer.push alert_buffer client_name body now1 now2 in
      match r.1.1 with
      | Raise e => (Raise e, r.1.2, r.2)
      | Ok _ => (Ok body, r.1.2, r.2)
      end
  end.

End Report.
End Server.

(** A template for the examples: the machine, the path and the condition,
    with colons between them. *)
Definition plain_msg (machine path condition : str) (usage : list (str * Z)) : result str :=
  Ok (machine ++ s2l ":" ++ path ++ s2l ":" ++ condition).

(** * Properties *)

(** ** The matcher against [Match] *)

Section Matcher.
Context {A : Type}.
Implicit Types (k : str -> caps -> option A) (r : re) (s : str) (cs : caps).

Lemma bt_star r s cs k :
  bt (Star r) s cs k = star_loop (bt r) k (length s) s cs.
Proof. reflexivity. Qed.

Lemma take_app_minus (s1 s2 : str) :
  take (length (s1 ++ s2) - length s2) (s1 ++ s2) = s1.
Proof.
  rewrite length_app.
  replace (length s1 + length s2 - length s2)%nat with (length s1) by lia.
  apply take_app_length.
Qed.

(** Every answer of the matcher comes from a match of a prefix followed
    by an answer of the continuation. *)
Lemma bt_sound r : forall s cs k x,
  bt r s cs k = Some x ->
  exists s1 s2 cs', s = s1 ++ s2 /\ Match r s1 cs cs' /\ k s2 cs' = Some x.
Proof.
  induction r as [|p|r1 IH1 r2 IH2|r1 IH1 r2 IH2|r1 IH1|g r1 IH1];
    intros s cs k x Hbt; simpl in Hbt.
  - exists [], s, cs. split; [reflexivity|]. split; [constructor|assumption].
  - destruct s as [|c s']; [discriminate|].
    destruct (p c) eqn:Hp; [|discriminate].
    exists [c], s', cs. split; [reflexivity|]. split; [by constructor|assumption].
  - apply IH1 in Hbt as (s1 & s2 & cs1 & -> & Hm1 & Hk).
    apply IH2 in Hk as (s3 & s4 & cs2 & -> & Hm2 & Hk).
    exists (s1 ++ s3), s4, cs2. split; [by rewrite app_assoc|].
    split; [by econstructor|assumption].
  - destruct (bt r1 s cs k) as [y|] eqn:H1.
    + inversion Hbt; subst y.
      apply IH1 in H1 as (s1 & s2 & cs1 & -> & Hm1 & Hk).
      exists s1, s2, cs1. split; [reflexivity|]. split; [by apply MAltL|assumption].
    + apply IH2 in Hbt as (s1 & s2 & cs1 & -> & Hm1 & Hk).
      exists s1, s2, cs1. split; [reflexivity|]. split; [by apply MAltR|assumption].
  - revert Hbt. generalize (length s) as n. intros n. revert s cs.
    induction n as [|n IHn]; intros s cs Hbt; simpl in Hbt.
    + exists [], s, cs. split; [reflexivity|]. split; [constructor|assumption].
    + match type of Hbt with
      | match ?b with _ => _ end = _ => destruct b as [y|] eqn:Hb
      end.
      * inversion Hbt; subst y.
        apply IH1 in Hb as (s1 & s2 & cs1 & -> & Hm1 & Hk).
        destruct (length s2 <? length (s1 ++ s2))%nat eqn:Hlt; [|discriminate].
        apply Nat.ltb_lt in Hlt. rewrite length_app in Hlt.
        apply IHn in Hk as (s3 & s4 & cs2 & -> & Hm2 & Hk).
        exists (s1 ++ s3), s4, cs2. split; [by rewrite app_assoc|].
        split; [|assumption].
        apply MStarS with cs1; [|assumption|assumption].
        intros ->. simpl in Hlt. lia.
      * exists [], s, cs. split; [reflexivity|]. split; [constructor|assumption].
  - apply IH1 in Hbt as (s1 & s2 & cs1 & -> & Hm1 & Hk).
    rewrite take_app_minus in Hk.
    exists s1, s2, ((g, s1) :: cs1). split; [reflexivity|].
    split; [by constructor|assumption].
Qed.

(** With a continuation that refuses everything the matcher has no
    answer. *)
Lemma bt_refused r : forall s cs k,
  (forall s' cs', k s' cs' = None) -> bt r s cs k = None.
Proof.
  intros s cs k Hk. destruct (bt r s cs k) as [x|] eqn:Hbt; [|reflexivity].
  apply bt_sound in Hbt as (s1 & s2 & cs1 & _ & _ & Hx).
  rewrite Hk in Hx. discriminate.
Qed.

(** The loop of a repetition answers when what follows the repetition
    answers on the spot. *)
Lemma star_loop_exit body k n s cs :
  is_Some (k s cs) -> is_Some (star_loop body k n s cs).
Proof.
  intros Hk. destruct n as [|n]; simpl; [assumption|].
  destruct (body s cs _); [by eexists|assumption].
Qed.

(** A match of a prefix on which the continuation answers makes the
    matcher answer.  The statement is about the loop with any bound that
    covers the input, and about the matcher as a special case. *)
Lemma bt_complete_gen r s1 cs cs' :
  Match r s1 cs cs' ->
  forall k s2,
    is_Some (k s2 cs') ->
    is_Some (bt r (s1 ++ s2) cs k) /\
    (forall r1 n, r = Star r1 -> (length (s1 ++ s2) <= n)%nat ->
       is_Some (star_loop (bt r1) k n (s1 ++ s2) cs)).
Proof.
  induction 1 as [cs|p c cs Hp|r1 r2 s1 s2' cs cs1 cs2 Hm1 IH1 Hm2 IH2
                  |r1 r2 s cs cs1 Hm IH|r1 r2 s cs cs1 Hm IH|r cs
                  |r s1 s2' cs cs1 cs2 Hne Hm1 IH1 Hm2 IH2|g r s cs cs1 Hm IH];
    intros k s2 Hk.
  - split; [assumption|]. intros ? ? [=].
  - split; [|intros ? ? [=]]. simpl. by rewrite Hp.
  - split; [|intros ? ? [=]]. simpl. rewrite <- app_assoc.
    apply IH1. apply IH2. assumption.
  - split; [|intros ? ? [=]]. simpl.
    destruct (IH k s2 Hk) as [[y Hy] _]. rewrite Hy. by eexists.
  - split; [|intros ? ? [=]]. simpl.
    destruct (bt r1 (s ++ s2) cs k); [by eexists|]. by apply IH.
  - split.
    + rewrite bt_star. by apply star_loop_exit.
    + intros r1 n [= <-] _. by apply star_loop_exit.
  - assert (Hloop : forall n, (length ((s1 ++ s2') ++ s2) <= n)%nat ->
               is_Some (star_loop (bt r) k n ((s1 ++ s2') ++ s2) cs)).
    { intros n Hn. rewrite <- app_assoc in *.
      destruct n as [|n].
      { destruct s1; [done|]. simpl in Hn. lia. }
      simpl.
      match goal with
      | |- is_Some (match ?b with _ => _ end) =>
          assert (Hb : is_Some b); [|destruct Hb as [y ->]; by eexists]
      end.
      apply IH1.
      assert (Hlt : (length (s2' ++ s2) <? length (s1 ++ s2' ++ s2))%nat = true).
      { apply Nat.ltb_lt. rewrite (length_app s1). destruct s1; [done|]. simpl. lia. }
      rewrite Hlt.
      destruct (IH2 k s2 Hk) as [_ Hstar].
      apply (Hstar r n eq_refl).
      rewrite (length_app s1) in Hn. destruct s1; [done|]. simpl in Hn. lia. }
    split.
    + rewrite bt_star. by apply Hloop.
    + intros r1 n [= <-] Hn. by apply Hloop.
  - split; [|intros ? ? [=]]. simpl. apply IH.
    by rewrite take_app_minus.
Qed.

End Matcher.

Lemma bt_complete {A : Type} r s1 s2 cs cs' (k : str -> caps -> option A) :
  Match r s1 cs cs' -> is_Some (k s2 cs') -> is_Some (bt r (s1 ++ s2) cs k).
Proof. intros Hm Hk. by apply (bt_complete_gen r s1 cs cs' Hm k s2 Hk). Qed.

(** ** Characters and strings *)

Ltac each_char c := destruct c as [[|] [|] [|] [|] [|] [|] [|] [|]].

Lemma ascii_eqb_eq a b : ascii_eqb a b = true <-> a = b.
Proof. apply Ascii.eqb_eq. Qed.

Lemma str_eqb_eq a : forall b, str_eqb a b = true <-> a = b.
Proof.
  induction a as [|x a IH]; intros [|y b]; simpl; try (split; congruence).
  rewrite andb_true_iff, ascii_eqb_eq, IH. split.
  - intros [-> ->]. reflexivity.
  - intros [= -> ->]. split; reflexivity.
Qed.

Lemma str_eqb_refl a : str_eqb a a = true.
Proof. by apply str_eqb_eq. Qed.

Lemma str_eqb_neq a b : a <> b -> str_eqb a b = false.
Proof.
  intros Hne. destruct (str_eqb a b) eqn:E; [|reflexivity].
  apply str_eqb_eq in E. contradiction.
Qed.

Lemma is_code_eq n c : is_code n c = true -> c = ascii_of_N n.
Proof.
  unfold is_code, code. intros Hc. apply N.eqb_eq in Hc. subst n.
  symmetry. apply ascii_N_embedding.
Qed.

Lemma lower_char_idem c : lower_char (lower_char c) = lower_char c.
Proof. each_char c; reflexivity. Qed.

Lemma lower_idem s : lower (lower s) = lower s.
Proof.
  unfold lower. rewrite map_map. apply map_ext. intros c. apply lower_char_idem.
Qed.

Lemma digit_not_int_space c : is_digit c = true -> is_int_space c = false.
Proof. each_char c; vm_compute; congruence. Qed.

Lemma digit_not_sign c :
  is_digit c = true -> is_code 43 c = false /\ is_code 45 c = false.
Proof. each_char c; vm_compute; intuition congruence. Qed.

Lemma digit19_digit c : is_digit19 c = true -> is_digit c = true.
Proof. each_char c; vm_compute; congruence. Qed.

Lemma unit_not_digit c : is_unit c = true -> is_digit c = false.
Proof. each_char c; vm_compute; congruence. Qed.

Lemma space_not_digit c : is_space c = true -> is_digit c = false.
Proof. each_char c; vm_compute; congruence. Qed.

Lemma space_not_digit19 c : is_space c = true -> is_digit19 c = false.
Proof. each_char c; vm_compute; congruence. Qed.

(** ** [int] on strings *)

Lemma unit_not_int_char c : is_unit c = true -> int_char c = false.
Proof. each_char c; vm_compute; congruence. Qed.

Lemma lstrip_split s :
  exists l, s = l ++ lstrip s /\ forallb is_int_space l = true.
Proof.
  induction s as [|c s IH]; simpl.
  - by exists [].
  - destruct (is_int_space c) eqn:Hc.
    + destruct IH as (l & Hl & Hsp). exists (c :: l). simpl.
      rewrite Hc, Hsp. split; [by f_equal|reflexivity].
    + by exists [].
Qed.

Lemma lstrip_id c s : is_int_space c = false -> lstrip (c :: s) = c :: s.
Proof. intros Hc. simpl. by rewrite Hc. Qed.

Lemma strip_split s :
  exists l1 l2, s = l1 ++ strip s ++ l2
    /\ forallb is_int_space l1 = true /\ forallb is_int_space l2 = true.
Proof.
  unfold strip.
  destruct (lstrip_split s) as (l1 & H1 & Hs1).
  destruct (lstrip_split (rev (lstrip s))) as (l2 & H2 & Hs2).
  exists l1, (rev l2). split; [|split; [assumption|]].
  - rewrite <- rev_app_distr, <- H2, rev_involutive. assumption.
  - rewrite forallb_forall in *. intros c Hin. apply Hs2. by apply in_rev.
Qed.

Lemma digits_val_chars s : forall acc prev n,
  digits_val acc prev s = Some n ->
  forallb int_char s = true /\ (prev = false -> existsb is_digit s = true).
Proof.
  induction s as [|c s IH]; intros acc prev n Hd; simpl in *.
  - destruct prev; [|discriminate]. split; [reflexivity|discriminate].
  - unfold int_char at 1. destruct (is_digit c) eqn:Hc.
    + apply IH in Hd as [Hd _]. rewrite Hd. rewrite !orb_true_r. done.
    + destruct (is_code 95 c) eqn:Hu; [|discriminate].
      destruct prev; [|discriminate]. simpl in Hd.
      apply IH in Hd as [Hd _]. rewrite Hd, !orb_true_r. split; [done|discriminate].
Qed.

(** A string [int] accepts is made of white space, signs, digits and
    underscores, and holds a digit. *)
Lemma py_int_chars s n :
  py_int s = Some n -> forallb int_char s = true /\ existsb is_digit s = true.
Proof.
  unfold py_int. intros Hi.
  destruct (strip_split s) as (l1 & l2 & Hs & H1 & H2).
  assert (Hsp : forall l, forallb is_int_space l = true -> forallb int_char l = true).
  { intros l. rewrite !forallb_forall. intros Hl c Hin. unfold int_char.
    by rewrite (Hl c Hin). }
  assert (Hmid : forallb int_char (strip s) = true /\ existsb is_digit (strip s) = true).
  { destruct (strip s) as [|c d]; [discriminate|].
    destruct (is_code 43 c) eqn:Hp; [|destruct (is_code 45 c) eqn:Hm].
    - apply digits_val_chars in Hi as [Ha Hb]. simpl. unfold int_char at 1.
      rewrite Hp, Ha, (Hb eq_refl), !orb_true_r. done.
    - destruct (digits_val 0 false d) as [m|] eqn:Hd; [|discriminate].
      apply digits_val_chars in Hd as [Ha Hb]. simpl. unfold int_char at 1.
      rewrite Hm, Ha, (Hb eq_refl), !orb_true_r. done.
    - apply digits_val_chars in Hi as [Ha Hb]. split; [assumption|by apply Hb]. }
  destruct Hmid as [Ha Hb]. rewrite Hs. split.
  - rewrite !forallb_app, Ha, (Hsp _ H1), (Hsp _ H2). done.
  - rewrite !existsb_app, Hb, orb_true_r. done.
Qed.

Lemma digits_val_digits ds : forall acc,
  forallb is_digit ds = true ->
  digits_val acc true ds = Some (fold_left (fun a c => a * 10 + digit_val c) ds acc).
Proof.
  induction ds as [|d ds IH]; intros acc Hd; simpl in *; [reflexivity|].
  apply andb_true_iff in Hd as [Hd Hds]. rewrite Hd. by apply IH.
Qed.

Lemma strip_digits d ds :
  forallb is_digit (d :: ds) = true -> strip (d :: ds) = d :: ds.
Proof.
  intros Hd. unfold strip.
  assert (Hfirst : is_digit d = true) by (simpl in Hd; by apply andb_true_iff in Hd as [? _]).
  rewrite lstrip_id by (by apply digit_not_int_space).
  destruct (rev (d :: ds)) as [|c t] eqn:Hr.
  - apply (f_equal (@length _)) in Hr. rewrite length_rev in Hr. discriminate.
  - rewrite lstrip_id; [by rewrite <- Hr, rev_involutive|].
    apply digit_not_int_space. rewrite forallb_forall in Hd. apply Hd.
    apply in_rev. rewrite Hr. by left.
Qed.

(** [int] of a non-empty string of digits is its decimal value. *)
Lemma py_int_digits v :
  v <> [] -> forallb is_digit v = true -> py_int v = Some (decimal v).
Proof.
  intros Hne Hd. destruct v as [|d ds]; [done|].
  unfold py_int. rewrite strip_digits by assumption.
  pose proof Hd as Hd'. simpl in Hd'. apply andb_true_iff in Hd' as [Hd1 Hds].
  destruct (digit_not_sign d Hd1) as [-> ->].
  simpl. rewrite Hd1. by apply digits_val_digits.
Qed.

Lemma positive_digits_spec v :
  positive_digits v = true ->
  exists d ds, v = d :: ds /\ is_digit19 d = true /\ forallb is_digit ds = true.
Proof.
  destruct v as [|d ds]; [discriminate|]. simpl. intros Hv.
  apply andb_true_iff in Hv as [? ?]. by exists d, ds.
Qed.

Lemma positive_digits_digits v :
  positive_digits v = true -> v <> [] /\ forallb is_digit v = true.
Proof.
  intros (d & ds & -> & Hd & Hds)%positive_digits_spec. split; [done|].
  simpl. by rewrite (digit19_digit d Hd), Hds.
Qed.

(** ** Reading matches of the patterns *)

Lemma Match_Chr_inv p s cs cs' :
  Match (Chr p) s cs cs' -> exists c, s = [c] /\ p c = true /\ cs' = cs.
Proof. inversion 1; subst. by eexists. Qed.

Lemma Match_Lit_inv c s cs cs' :
  Match (Lit c) s cs cs' -> s = [c] /\ cs' = cs.
Proof.
  intros (x & -> & Hx & ->)%Match_Chr_inv. apply ascii_eqb_eq in Hx. by subst.
Qed.

Lemma Match_Cat_inv r1 r2 s cs cs' :
  Match (Cat r1 r2) s cs cs' ->
  exists s1 s2 cs1, s = s1 ++ s2 /\ Match r1 s1 cs cs1 /\ Match r2 s2 cs1 cs'.
Proof. inversion 1; subst. by eexists _, _, _. Qed.

Lemma Match_Alt_inv r1 r2 s cs cs' :
  Match (Alt r1 r2) s cs cs' -> Match r1 s cs cs' \/ Match r2 s cs cs'.
Proof. inversion 1; subst; [by left|by right]. Qed.

Lemma Match_Opt_inv r s cs cs' :
  Match (Opt r) s cs cs' -> Match r s cs cs' \/ (s = [] /\ cs' = cs).
Proof.
  intros [Hm|Hm]%Match_Alt_inv; [by left|]. inversion Hm; subst. by right.
Qed.

Lemma Match_Group_inv g r s cs cs' :
  Match (Group g r) s cs cs' -> exists cs1, Match r s cs cs1 /\ cs' = (g, s) :: cs1.
Proof. inversion 1; subst. by eexists. Qed.

Lemma Match_Star_Chr_inv p s cs cs' :
  Match (Star (Chr p)) s cs cs' -> forallb p s = true /\ cs' = cs.
Proof.
  remember (Star (Chr p)) as r eqn:Hr. intros Hm.
  induction Hm as [| | | | | |r' s1 s2 cs cs1 cs2 Hne Hm1 _ Hm2 IH2|]; try discriminate.
  - done.
  - injection Hr as ->.
    apply Match_Chr_inv in Hm1 as (c & -> & Hc & ->).
    destruct (IH2 eq_refl) as [Hs ->]. simpl. by rewrite Hc, Hs.
Qed.

Lemma Match_Star_Chr p s cs : forallb p s = true -> Match (Star (Chr p)) s cs cs.
Proof.
  induction s as [|c s IH]; simpl; intros Hs; [constructor|].
  apply andb_true_iff in Hs as [Hc Hs].
  apply (MStarS (Chr p) [c] s cs cs cs); [done|by constructor|by apply IH].
Qed.

(** Two ways of cutting a string after a run of characters of a class,
    at a character outside the class (or at the end), cut it at the same
    place. *)
Lemma run_unique (p : ascii -> bool) : forall l1 l2 r1 r2 : str,
  forallb p l1 = true -> forallb p l2 = true ->
  match r1 with c :: _ => p c = false | [] => True end ->
  match r2 with c :: _ => p c = false | [] => True end ->
  l1 ++ r1 = l2 ++ r2 -> l1 = l2 /\ r1 = r2.
Proof.
  induction l1 as [|a l1 IH]; intros [|b l2] r1 r2 H1 H2 Hr1 Hr2 Heq; simpl in *.
  - done.
  - subst r1. apply andb_true_iff in H2 as [Hb _]. congruence.
  - subst r2. apply andb_true_iff in H1 as [Ha _]. congruence.
  - injection Heq as -> Heq.
    apply andb_true_iff in H1 as [_ H1]. apply andb_true_iff in H2 as [_ H2].
    destruct (IH l2 r1 r2 H1 H2 Hr1 Hr2 Heq) as [-> ->]. done.
Qed.

Lemma Match_re_obj_inv s cs cs' :
  Match re_obj s cs cs' ->
  exists v u, positive_digits v = true /\ is_unit u = true
    /\ s = v ++ [u] /\ cs' = pair_caps v u cs.
Proof.
  unfold re_obj.
  intros (s1 & s2 & cs1 & -> & Hv & Hu)%Match_Cat_inv.
  apply Match_Group_inv in Hv as (cs2 & Hv & ->).
  apply Match_Cat_inv in Hv as (d & ds & cs3 & -> & Hd & Hds).
  apply Match_Chr_inv in Hd as (c & -> & Hc & ->).
  apply Match_Star_Chr_inv in Hds as [Hds ->].
  apply Match_Group_inv in Hu as (cs4 & Hu & ->).
  apply Match_Chr_inv in Hu as (u & -> & Hu & ->).
  exists ([c] ++ ds), u. simpl. by rewrite Hc, Hds.
Qed.

Lemma Match_re_obj v u cs :
  positive_digits v = true -> is_unit u = true ->
  Match re_obj (v ++ [u]) cs (pair_caps v u cs).
Proof.
  intros (d & ds & -> & Hd & Hds)%positive_digits_spec Hu.
  unfold re_obj, pair_caps.
  apply MCat with (("val"%string, d :: ds) :: cs).
  - apply MGroup. apply (MCat (Chr is_digit19) _ [d] ds cs cs cs).
    + by constructor.
    + by apply Match_Star_Chr.
  - apply MGroup. by constructor.
Qed.

(** At the start of a pair [re.match(re_obj, ...)] finds that pair. *)
Lemma match_prefix_pair v u rest :
  positive_digits v = true -> is_unit u = true ->
  match_prefix re_obj (v ++ [u] ++ rest) = Some (rest, pair_caps v u []).
Proof.
  intros Hv Hu. unfold match_prefix.
  destruct (bt_complete re_obj (v ++ [u]) rest [] (pair_caps v u [])
              (fun s' cs => Some (s', cs)) (Match_re_obj v u [] Hv Hu))
    as [[s' cs'] Hbt]; [by eexists|].
  rewrite <- app_assoc in Hbt. rewrite Hbt.
  apply bt_sound in Hbt as (s1 & s2 & cs1 & Heq & Hm & [= <- <-]).
  apply Match_re_obj_inv in Hm as (v' & u' & Hv' & Hu' & -> & ->).
  rewrite <- app_assoc in Heq.
  apply positive_digits_digits in Hv as [_ Hv].
  apply positive_digits_digits in Hv' as [_ Hv'].
  destruct (run_unique is_digit v v' ([u] ++ rest) ([u'] ++ s2) Hv Hv'
              (unit_not_digit u Hu) (unit_not_digit u' Hu') Heq) as [<- [= <- <-]].
  reflexivity.
Qed.

(** Where no digit from 1 to 9 stands, [re.match(re_obj, ...)] finds
    nothing. *)
Lemma match_prefix_no_pair s :
  match s with c :: _ => is_digit19 c = false | [] => True end ->
  match_prefix re_obj s = None.
Proof.
  intros Hs. unfold match_prefix.
  destruct (bt re_obj s [] _) as [[s' cs']|] eqn:Hbt; [|reflexivity].
  apply bt_sound in Hbt as (s1 & s2 & cs1 & -> & Hm & _).
  apply Match_re_obj_inv in Hm as (v & u & Hv & _ & -> & _).
  apply positive_digits_spec in Hv as (d & ds & -> & Hd & _).
  simpl in Hs. congruence.
Qed.

Lemma items_text_head l :
  forallb item_ok l = true ->
  match items_text l with
  | c :: _ => is_digit19 c = true \/ is_space c = true
  | [] => True
  end.
Proof.
  destruct l as [|[v u|c] l]; simpl; [done| |].
  - intros Hok. apply andb_true_iff in Hok as [Hok _].
    apply andb_true_iff in Hok as [Hv _].
    apply positive_digits_spec in Hv as (d & ds & -> & Hd & _). simpl. by left.
  - intros Hok. apply andb_true_iff in Hok as [Hc _]. by right.
Qed.

Lemma finditer_items l : forall n,
  forallb item_ok l = true -> (length (items_text l) < n)%nat ->
  finditer_fuel n re_obj (items_text l) = pair_matches l.
Proof.
  induction l as [|[v u|c] l IH]; intros n Hok Hn.
  - destruct n as [|n]; [reflexivity|].
    change (items_text []) with ([] : str). cbn [finditer_fuel].
    rewrite match_prefix_no_pair by done. reflexivity.
  - simpl in Hok. apply andb_true_iff in Hok as [Hvu Hok].
    apply andb_true_iff in Hvu as [Hv Hu].
    destruct n as [|n]; [lia|].
    change (items_text (IPair v u :: l)) with ((v ++ [u]) ++ items_text l) in *.
    cbn [finditer_fuel]. rewrite <- app_assoc.
    rewrite match_prefix_pair by assumption.
    rewrite app_assoc.
    assert (Hlt : (length (items_text l) <? length ((v ++ [u]) ++ items_text l))%nat = true).
    { apply Nat.ltb_lt. rewrite !length_app. simpl. lia. }
    rewrite Hlt, take_app_minus. cbn [pair_matches]. f_equal.
    apply IH; [assumption|]. rewrite !length_app in Hn. simpl in Hn. lia.
  - simpl in Hok. apply andb_true_iff in Hok as [Hc Hok].
    destruct n as [|n]; [lia|].
    change (items_text (ISpace c :: l)) with (c :: items_text l) in *.
    cbn [finditer_fuel].
    rewrite match_prefix_no_pair by (by apply space_not_digit19).
    cbn [pair_matches]. apply IH; [assumption|]. simpl in Hn. lia.
Qed.

(** ** [parse_time_interval] *)

Lemma time_suffix_unit u :
  is_unit u = true -> time_suffix [u] = Ok (unit_seconds u).
Proof. each_char u; vm_compute; congruence. Qed.

Lemma sum_matches_pairs l : forall t,
  forallb item_ok l = true ->
  sum_matches (pair_matches l) t = Ok (t + items_seconds l).
Proof.
  induction l as [|[v u|c] l IH]; intros t Hok; simpl in Hok.
  - simpl. f_equal. lia.
  - apply andb_true_iff in Hok as [Hvu Hok].
    apply andb_true_iff in Hvu as [Hv Hu].
    cbn [pair_matches sum_matches].
    change (group (pair_caps v u []) "val") with (Ok v : result str).
    change (group (pair_caps v u []) "unit") with (Ok [u] : result str).
    cbn [rbind]. unfold int_of_str.
    destruct (positive_digits_digits v Hv) as [Hne Hd].
    rewrite (py_int_digits v Hne Hd), (time_suffix_unit u Hu). cbn [rbind].
    rewrite IH by assumption. f_equal. simpl. lia.
  - apply andb_true_iff in Hok as [_ Hok]. cbn [pair_matches].
    rewrite IH by assumption. f_equal.
Qed.

Lemma re_interval_eq : re_interval = Cat re_item (Star re_item).
Proof. reflexivity. Qed.

Lemma item_text_nonempty i : item_text i <> [].
Proof. destruct i as [v u|c]; simpl; [|done]. by destruct v. Qed.

Lemma Match_re_item i cs :
  item_ok i = true -> exists cs', Match re_item (item_text i) cs cs'.
Proof.
  destruct i as [v u|c]; simpl; intros Hok.
  - apply andb_true_iff in Hok as [Hv Hu]. eexists.
    apply MAltL. unfold Plus.
    rewrite <- (app_nil_r (v ++ [u])).
    eapply MCat; [by apply Match_re_obj|apply MStar0].
  - eexists. apply MAltR. by constructor.
Qed.

Lemma Match_items l : forall cs,
  forallb item_ok l = true ->
  exists cs', Match (Star re_item) (items_text l) cs cs'.
Proof.
  induction l as [|i l IH]; intros cs Hok; simpl in Hok.
  - eexists. apply MStar0.
  - apply andb_true_iff in Hok as [Hi Hok].
    destruct (Match_re_item i cs Hi) as (cs1 & H1).
    destruct (IH cs1 Hok) as (cs2 & H2).
    exists cs2. change (items_text (i :: l)) with (item_text i ++ items_text l).
    eapply MStarS; [apply item_text_nonempty|exact H1|exact H2].
Qed.

Lemma Match_Star_re_obj_inv s cs cs' :
  Match (Star re_obj) s cs cs' ->
  exists l, forallb item_ok l = true /\ s = items_text l.
Proof.
  remember (Star re_obj) as r eqn:Hr. intros Hm.
  induction Hm as [| | | | | |r' s1 s2 cs cs1 cs2 Hne Hm1 _ Hm2 IH2|]; try discriminate.
  - by exists [].
  - injection Hr as ->.
    apply Match_re_obj_inv in Hm1 as (v & u & Hv & Hu & -> & _).
    destruct (IH2 eq_refl) as (l & Hl & ->).
    exists (IPair v u :: l). simpl. by rewrite Hv, Hu, Hl.
Qed.

Lemma Match_re_item_inv s cs cs' :
  Match re_item s cs cs' ->
  exists l, l <> [] /\ forallb item_ok l = true /\ s = items_text l.
Proof.
  intros [Hm|Hm]%Match_Alt_inv.
  - apply Match_Cat_inv in Hm as (s1 & s2 & cs1 & -> & H1 & H2).
    apply Match_re_obj_inv in H1 as (v & u & Hv & Hu & -> & _).
    apply Match_Star_re_obj_inv in H2 as (l & Hl & ->).
    exists (IPair v u :: l). simpl. by rewrite Hv, Hu, Hl.
  - apply Match_Chr_inv in Hm as (c & -> & Hc & _).
    exists [ISpace c]. simpl. by rewrite Hc.
Qed.

Lemma items_text_app l1 l2 : items_text (l1 ++ l2) = items_text l1 ++ items_text l2.
Proof. unfold items_text. by rewrite map_app, concat_app. Qed.

Lemma Match_Star_re_item_inv s cs cs' :
  Match (Star re_item) s cs cs' ->
  exists l, forallb item_ok l = true /\ s = items_text l.
Proof.
  remember (Star re_item) as r eqn:Hr. intros Hm.
  induction Hm as [| | | | | |r' s1 s2 cs cs1 cs2 Hne Hm1 _ Hm2 IH2|]; try discriminate.
  - by exists [].
  - injection Hr as ->.
    apply Match_re_item_inv in Hm1 as (l1 & _ & Hl1 & ->).
    destruct (IH2 eq_refl) as (l2 & Hl2 & ->).
    exists (l1 ++ l2). by rewrite forallb_app, Hl1, Hl2, items_text_app.
Qed.

(** [re.fullmatch] lets through exactly the strings made of one or more
    pieces. *)
Lemma fullmatch_interval_text s :
  is_Some (fullmatch re_interval s) <-> interval_text s.
Proof.
  split.
  - intros [cs Hf]. unfold fullmatch in Hf.
    apply bt_sound in Hf as (s1 & s2 & cs1 & -> & Hm & Hk).
    destruct s2; [|discriminate]. rewrite app_nil_r.
    rewrite re_interval_eq in Hm.
    apply Match_Cat_inv in Hm as (t1 & t2 & cs2 & -> & H1 & H2).
    apply Match_re_item_inv in H1 as (l1 & Hne & Hl1 & ->).
    apply Match_Star_re_item_inv in H2 as (l2 & Hl2 & ->).
    exists (l1 ++ l2). split; [|split].
    + destruct l1; [done|discriminate].
    + by rewrite forallb_app, Hl1, Hl2.
    + by rewrite items_text_app.
  - intros (l & Hne & Hok & ->). destruct l as [|i l]; [done|].
    simpl in Hok. apply andb_true_iff in Hok as [Hi Hok].
    destruct (Match_re_item i [] Hi) as (cs1 & H1).
    destruct (Match_items l cs1 Hok) as (cs2 & H2).
    unfold fullmatch.
    rewrite <- (app_nil_r (items_text (i :: l))).
    apply bt_complete with cs2; [|by eexists].
    rewrite re_interval_eq.
    change (items_text (i :: l)) with (item_text i ++ items_text l).
    by eapply MCat.
Qed.

Lemma items_no_pair_chars l :
  forallb item_ok l = true -> forallb int_char (items_text l) = true ->
  existsb is_pair l = false.
Proof.
  induction l as [|[v u|c] l IH]; simpl; intros Hok Hch; [done| |].
  - apply andb_true_iff in Hok as [Hvu _]. apply andb_true_iff in Hvu as [_ Hu].
    change (items_text (IPair v u :: l)) with ((v ++ [u]) ++ items_text l) in Hch.
    rewrite !forallb_app in Hch. simpl in Hch.
    rewrite (unit_not_int_char u Hu) in Hch. simpl in Hch.
    rewrite andb_false_r in Hch. discriminate.
  - apply andb_true_iff in Hok as [_ Hok].
    change (items_text (ISpace c :: l)) with (c :: items_text l) in Hch.
    simpl in Hch. apply andb_true_iff in Hch as [_ Hch]. by apply IH.
Qed.

Lemma items_spaces_no_digit l :
  forallb item_ok l = true -> existsb is_pair l = false ->
  existsb is_digit (items_text l) = false.
Proof.
  induction l as [|[v u|c] l IH]; simpl; intros Hok Hp; [done|discriminate|].
  apply andb_true_iff in Hok as [Hc Hok].
  change (items_text (ISpace c :: l)) with (c :: items_text l). simpl.
  rewrite (space_not_digit c Hc). by apply IH.
Qed.

(** A string made of pieces is not an integer for [int]. *)
Lemma py_int_items l :
  forallb item_ok l = true -> py_int (items_text l) = None.
Proof.
  intros Hok. destruct (py_int (items_text l)) as [n|] eqn:Hi; [|reflexivity].
  apply py_int_chars in Hi as [Hch Hd].
  rewrite (items_spaces_no_digit l Hok (items_no_pair_chars l Hok Hch)) in Hd.
  discriminate.
Qed.

Lemma parse_time_interval_items l :
  l <> [] -> forallb item_ok l = true ->
  parse_time_interval (items_text l) = Ok (items_seconds l).
Proof.
  intros Hne Hok. unfold parse_time_interval.
  rewrite (py_int_items l Hok).
  destruct (proj2 (fullmatch_interval_text (items_text l))) as [cs ->].
  { by exists l. }
  unfold finditer. rewrite finditer_items by (assumption || lia).
  rewrite sum_matches_pairs by assumption. f_equal.
Qed.

(** C4, as amended.  [parse_time_interval]: a string [int] accepts gives
    that integer; a string made of one or more pieces, each a pair of a
    positive integer and a unit (s, m, h, d) or one white space character,
    in any order, gives the sum of value times seconds of the unit over its
    pairs (zero when it holds white space only); any other string raises
    [ValueError]. *)
Theorem parse_time_interval_spec (s : str) :
  (forall n, py_int s = Some n -> parse_time_interval s = Ok n) /\
  (forall l, l <> [] -> forallb item_ok l = true -> s = items_text l ->
     parse_time_interval s = Ok (items_seconds l)) /\
  (py_int s = None -> ~ interval_text s ->
     parse_time_interval s = Raise ValueError).
Proof.
  split; [|split].
  - intros n Hn. unfold parse_time_interval. by rewrite Hn.
  - intros l Hne Hok ->. by apply parse_time_interval_items.
  - intros Hi Hno. unfold parse_time_interval. rewrite Hi.
    destruct (fullmatch re_interval s) as [cs|] eqn:Hf; [|reflexivity].
    exfalso. apply Hno. apply fullmatch_interval_text. by eexists.
Qed.

Lemma parse_time_interval_spec_witness :
  parse_time_interval (s2l "5") = Ok 5
  /\ parse_time_interval (s2l "1s1m1h") = Ok (1 + 60 + 3600)
  /\ parse_time_interval (s2l "1d") = Ok 86400
  /\ parse_time_interval (s2l "bogus") = Raise ValueError.
Proof.
  split; [|split; [|split]].
  - apply (proj1 (parse_time_interval_spec (s2l "5")) 5). reflexivity.
  - apply (proj1 (proj2 (parse_time_interval_spec (s2l "1s1m1h")))
             [IPair (s2l "1") "s"; IPair (s2l "1") "m"; IPair (s2l "1") "h"]);
      [discriminate|reflexivity|reflexivity].
  - apply (proj1 (proj2 (parse_time_interval_spec (s2l "1d")))
             [IPair (s2l "1") "d"]); [discriminate|reflexivity|reflexivity].
  - apply (proj2 (proj2 (parse_time_interval_spec (s2l "bogus")))); [reflexivity|].
    intros Ht. apply fullmatch_interval_text in Ht. vm_compute in Ht.
    destruct Ht as [cs Hcs]. discriminate.
Defined.

(** C4 as stated fails on a string of white space: it is no integer and no
    sequence of pairs, and [parse_time_interval] returns 0 for it. *)
Lemma parse_time_interval_blank :
  py_int (s2l " ") = None
  /\ ~ pair_sequence_text (s2l " ")
  /\ parse_time_interval (s2l " ") = Ok 0
  /\ parse_time_interval (s2l " ") <> Raise ValueError.
Proof.
  split; [reflexivity|]. split; [|split; [reflexivity|discriminate]].
  intros (l & Hl & Heq). unfold pairs_separated in Hl.
  destruct l as [|[v u|c] l]; simpl in Hl; try discriminate.
  - repeat (apply andb_true_iff in Hl as [Hl _]).
    apply positive_digits_spec in Hl as (d & ds & -> & Hd & _).
    injection Heq as <- _. discriminate.
  - apply andb_true_iff in Hl as [Hl _]. rewrite andb_false_r in Hl. discriminate.
Qed.

(** ** [parse_size_string] *)

Lemma suffix_rank c :
  match rank c with
  | Some r => (str_find (upper_char c) default_suffixes =? r - 1) && (1 <=? r) && (r <=? 8)
  | None => str_find (upper_char c) default_suffixes =? -1
  end = true.
Proof. each_char c; vm_compute; reflexivity. Qed.

(** C5.  [parse_size_string] on a string with last character [c]: when [c]
    is one of K, M, G, T, P, E, Z, Y in either case, the integer value of
    the text before it times 1024 to the power of the position of [c] in
    that list, counted from 1; otherwise the integer value of the whole
    string; [ValueError] when the text to convert is not an integer. *)
Theorem parse_size_string_spec (s : str) (c : ascii) :
  last_char s = Some c ->
  parse_size_string s default_suffixes =
    match rank c with
    | Some r =>
        match py_int (but_last s) with
        | Some n => Ok (n * 1024 ^ r)
        | None => Raise ValueError
        end
    | None =>
        match py_int s with
        | Some n => Ok n
        | None => Raise ValueError
        end
    end.
Proof.
  intros Hc. unfold parse_size_string. rewrite Hc.
  pose proof (suffix_rank c) as Hr. destruct (rank c) as [r|].
  - apply andb_true_iff in Hr as [Hr H8]. apply andb_true_iff in Hr as [Hr H1].
    apply Z.eqb_eq in Hr. apply Z.leb_le in H1, H8. rewrite Hr.
    destruct (r - 1 =? -1) eqn:E; [apply Z.eqb_eq in E; lia|].
    unfold int_of_str. destruct (py_int (but_last s)); simpl; [|reflexivity].
    do 2 f_equal. f_equal. lia.
  - apply Z.eqb_eq in Hr. rewrite Hr. reflexivity.
Qed.

Lemma parse_size_string_spec_witness :
  parse_size_string (s2l "5G") default_suffixes = Ok (5 * 1024 ^ 3)
  /\ parse_size_string (s2l "1024") default_suffixes = Ok 1024
  /\ parse_size_string (s2l "12X") default_suffixes = Raise ValueError.
Proof.
  split; [|split].
  - exact (parse_size_string_spec (s2l "5G") "G" eq_refl).
  - exact (parse_size_string_spec (s2l "1024") "4" eq_refl).
  - exact (parse_size_string_spec (s2l "12X") "X" eq_refl).
Defined.

(** C10.  On the empty string [parse_size_string] raises [IndexError],
    from reading the last character, and not [ValueError]. *)
Theorem parse_size_string_empty (suffixes : str) :
  parse_size_string [] suffixes = Raise IndexError
  /\ parse_size_string [] suffixes <> Raise ValueError.
Proof. split; [reflexivity|discriminate]. Qed.

(** ** [AlertCheck]: construction *)

Lemma last_char_snoc (s : str) c : last_char (s ++ [c]) = Some c.
Proof.
  induction s as [|x s IH]; [reflexivity|].
  change ((x :: s) ++ [c]) with (x :: (s ++ [c])).
  cbn [last_char]. destruct (s ++ [c]) eqn:E; [by destruct s|assumption].
Qed.

Lemma but_last_snoc (s : str) c : but_last (s ++ [c]) = s.
Proof. unfold but_last. apply removelast_last. Qed.

Lemma last_char_forall (p : ascii -> bool) (s : str) :
  s <> [] -> forallb p s = true -> exists c, last_char s = Some c /\ p c = true.
Proof.
  intros Hne Hs. destruct (exists_last Hne) as (t & c & ->).
  exists c. split; [apply last_char_snoc|].
  rewrite forallb_app in Hs. simpl in Hs.
  apply andb_true_iff in Hs as [_ Hc]. by rewrite andb_true_r in Hc.
Qed.

(** The letters the value pattern allows are found among the suffixes,
    the digits are not; neither is the percent sign. *)
Lemma suffix_KMGTP c :
  is_KMGTP c = true ->
  (str_find (upper_char c) default_suffixes =? -1) = false
  /\ ascii_eqb c "%" = false.
Proof. each_char c; vm_compute; intros; try discriminate; split; reflexivity. Qed.

Lemma suffix_digit c :
  is_digit c = true ->
  (str_find (upper_char c) default_suffixes =? -1) = true
  /\ ascii_eqb c "%" = false.
Proof. each_char c; vm_compute; intros; try discriminate; split; reflexivity. Qed.

Lemma digit_val_range c :
  is_digit c = true -> (0 <=? digit_val c) && (digit_val c <=? 9) = true.
Proof. each_char c; vm_compute; congruence. Qed.

(** The integer of a percentage is within the range of [float]. *)
Lemma int_fits_percent n : 0 <= n <= 100 -> int_fits n = true.
Proof.
  intros Hn. unfold int_fits. apply Z.ltb_lt.
  assert (Hlim : 100 < float_limit) by reflexivity. lia.
Qed.

Lemma decimal_two_digits d e :
  is_digit d = true -> is_digit e = true ->
  0 <= decimal [d] <= 100 /\ 0 <= decimal [d; e] <= 100.
Proof.
  intros Hd He.
  pose proof (digit_val_range d Hd) as Hr. apply andb_true_iff in Hr as [D0 D9].
  pose proof (digit_val_range e He) as Hr. apply andb_true_iff in Hr as [E0 E9].
  apply Z.leb_le in D0, D9, E0, E9. unfold decimal. simpl. lia.
Qed.

Section Construction.
Context `{PyFloat}.

Lemma parse_val_percent (v : str) :
  v <> [] -> forallb is_digit v = true -> 0 <= decimal v <= 100 ->
  AlertCheck.parse_val (v ++ [("%")%char]) =
    Ok (VFloat (float_div (float_of_int (decimal v)) float_100)).
Proof.
  intros Hne Hd Hn. unfold AlertCheck.parse_val.
  rewrite last_char_snoc, but_last_snoc. simpl ascii_eqb. cbv iota.
  unfold int_of_str. rewrite py_int_digits by assumption.
  cbn [rbind to_float]. by rewrite (int_fits_percent _ Hn).
Qed.

Lemma parse_val_size_suffix (v : str) k :
  v <> [] -> forallb is_digit v = true -> is_KMGTP k = true ->
  exists n, AlertCheck.parse_val (v ++ [k]) = Ok (VInt n).
Proof.
  intros Hne Hd Hk. unfold AlertCheck.parse_val.
  destruct (suffix_KMGTP k Hk) as [Hf Hp].
  rewrite last_char_snoc, Hp.
  unfold parse_size_string. rewrite last_char_snoc, Hf.
  unfold int_of_str. rewrite but_last_snoc, py_int_digits by assumption.
  by eexists.
Qed.

Lemma parse_val_size_plain (v : str) :
  v <> [] -> forallb is_digit v = true ->
  AlertCheck.parse_val v = Ok (VInt (decimal v)).
Proof.
  intros Hne Hd. unfold AlertCheck.parse_val.
  destruct (last_char_forall is_digit v Hne Hd) as (c & Hc & Hcd).
  destruct (suffix_digit c Hcd) as [Hf Hp].
  rewrite Hc, Hp. unfold parse_size_string. rewrite Hc, Hf.
  unfold int_of_str. by rewrite py_int_digits.
Qed.

(** Every text the value group matches has a value. *)
Lemma parse_val_ok x cs cs' :
  Match re_val x cs cs' -> exists v, AlertCheck.parse_val x = Ok v.
Proof.
  unfold re_val. intros Hm.
  apply Match_Alt_inv in Hm as [Hm|Hm];
    [|apply Match_Alt_inv in Hm as [Hm|Hm];
      [|apply Match_Alt_inv in Hm as [Hm|Hm]]].
  - apply Match_Cat_inv in Hm as (a & s1 & c1 & -> & (-> & ->)%Match_Lit_inv & Hm).
    apply Match_Cat_inv in Hm as (b & s2 & c2 & -> & (-> & ->)%Match_Lit_inv & Hm).
    apply Match_Cat_inv in Hm as (c & s3 & c3 & -> & (-> & ->)%Match_Lit_inv & Hm).
    apply Match_Lit_inv in Hm as [-> ->].
    eexists. apply (parse_val_percent (s2l "100")); [discriminate|reflexivity|by vm_compute].
  - apply Match_Cat_inv in Hm as (a & s1 & c1 & -> & (-> & ->)%Match_Lit_inv & Hm).
    apply Match_Lit_inv in Hm as [-> ->].
    eexists. apply (parse_val_percent (s2l "0")); [discriminate|reflexivity|by vm_compute].
  - apply Match_Cat_inv in Hm as (a & s1 & c1 & -> & (d & -> & Hd & ->)%Match_Chr_inv & Hm).
    apply Match_Cat_inv in Hm as (b & s2 & c2 & -> & Hopt & (-> & ->)%Match_Lit_inv).
    apply digit19_digit in Hd.
    apply Match_Opt_inv in Hopt as [(e & -> & He & ->)%Match_Chr_inv|[-> ->]].
    + eexists. apply (parse_val_percent [d; e]);
        [discriminate|simpl; by rewrite Hd, He|apply (decimal_two_digits d e Hd He)].
    + eexists. apply (parse_val_percent [d]);
        [discriminate|simpl; by rewrite Hd|apply (decimal_two_digits d d Hd Hd)].
  - apply Match_Cat_inv in Hm as (a & s1 & c1 & -> & (d & -> & Hd & ->)%Match_Chr_inv & Hm).
    apply Match_Cat_inv in Hm as (ds & s2 & c2 & -> & [Hds ->]%Match_Star_Chr_inv & Hopt).
    apply digit19_digit in Hd.
    assert (Hall : forallb is_digit (d :: ds) = true) by (simpl; by rewrite Hd, Hds).
    apply Match_Opt_inv in Hopt as [(k & -> & Hk & ->)%Match_Chr_inv|[-> ->]].
    + destruct (parse_val_size_suffix (d :: ds) k) as [n Hn]; try done.
      exists (VInt n). exact Hn.
    + rewrite app_nil_r. eexists.
      apply (parse_val_size_plain (d :: ds)); done.
Qed.

(** Every text the operator group matches is one of the five operators. *)
Lemma operator_ok o cs cs' :
  Match re_op o cs cs' -> exists f, BinaryOperatorM.__init__ o = Ok f.
Proof.
  unfold re_op. intros [Hm|Hm]%Match_Alt_inv.
  - apply Match_Cat_inv in Hm as (a & b & c1 & -> & (c & -> & Hc & ->)%Match_Chr_inv & Hopt).
    assert (Hcc : c = "<"%char \/ c = ">"%char).
    { unfold is_lt_gt in Hc. apply orb_true_iff in Hc as [Hc|Hc];
        apply is_code_eq in Hc; subst c; [by left|by right]. }
    apply Match_Opt_inv in Hopt as [[-> ->]%Match_Lit_inv|[-> ->]];
      destruct Hcc as [-> | ->]; by eexists.
  - apply Match_Cat_inv in Hm as (a & b & c1 & -> & (-> & ->)%Match_Lit_inv & Hm).
    apply Match_Lit_inv in Hm as [-> ->]. by eexists.
Qed.

Ltac match_caps :=
  repeat match goal with
         | Hy : Match (Alt _ _) _ _ _ |- _ => apply Match_Alt_inv in Hy as [Hy|Hy]
         | Hy : Match (Cat _ _) _ _ _ |- _ =>
             apply Match_Cat_inv in Hy as (? & ? & ? & _ & ? & ?)
         | Hy : Match (Lit _) _ _ _ |- _ => apply Match_Lit_inv in Hy as [_ ->]
         | Hy : Match (Opt _) _ _ _ |- _ =>
             apply Match_Opt_inv in Hy as [Hy|[_ ->]]
         | Hy : Match (Star (Chr _)) _ _ _ |- _ =>
             apply Match_Star_Chr_inv in Hy as [_ ->]
         | Hy : Match (Chr _) _ _ _ |- _ =>
             apply Match_Chr_inv in Hy as (? & _ & _ & ->)
         end.

(** The operator and value patterns capture nothing themselves. *)
Lemma Match_re_op_caps x cs cs' : Match re_op x cs cs' -> cs' = cs.
Proof. unfold re_op. intros Hm. match_caps; reflexivity. Qed.

Lemma Match_re_val_caps x cs cs' : Match re_val x cs cs' -> cs' = cs.
Proof. unfold re_val. intros Hm. match_caps; reflexivity. Qed.

(** The groups of a match of [re_cmp]. *)
Lemma fullmatch_re_cmp_groups f m :
  fullmatch re_cmp f = Some m ->
  exists var op val,
    m = [("val"%string, val); ("op"%string, op); ("var"%string, var)]
    /\ (exists cs, Match re_op op cs cs)
    /\ (exists cs, Match re_val val cs cs).
Proof.
  unfold fullmatch. intros Hf.
  apply bt_sound in Hf as (s1 & s2 & cs1 & -> & Hm & Hk).
  destruct s2; [|discriminate]. injection Hk as ->.
  unfold re_cmp in Hm.
  apply Match_Cat_inv in Hm as (var & t1 & c1 & -> & (c0 & Hvar & ->)%Match_Group_inv & Hm).
  apply Match_Cat_inv in Hm as (w1 & t2 & c2 & -> & [_ ->]%Match_Star_Chr_inv & Hm).
  apply Match_Cat_inv in Hm as (op & t3 & c3 & -> & (c4 & Hop & ->)%Match_Group_inv & Hm).
  apply Match_Cat_inv in Hm as (w2 & val & c5 & -> & [_ ->]%Match_Star_Chr_inv & Hm).
  apply Match_Group_inv in Hm as (c6 & Hval & ->).
  assert (c0 = []) as ->.
  { unfold Plus in Hvar. match_caps. reflexivity. }
  pose proof (Match_re_op_caps _ _ _ Hop) as ->.
  pose proof (Match_re_val_caps _ _ _ Hval) as ->.
  exists var, op, val. split; [reflexivity|]. split; by eexists.
Qed.

Lemma parse_loop_step piece rest conditions m :
  fullmatch re_cmp piece = Some m ->
  exists c, condition_of piece c
    /\ AlertCheck.parse_loop (piece :: rest) conditions
       = AlertCheck.parse_loop rest (conditions ++ [c]).
Proof.
  intros Hf.
  destruct (fullmatch_re_cmp_groups piece m Hf)
    as (var & op & val & -> & [c1 Hop] & [c2 Hval]).
  destruct (operator_ok op _ _ Hop) as [f Hfop].
  destruct (parse_val_ok val _ _ Hval) as [v Hv].
  exists (Condition var f v piece). split.
  - exists [("val"%string, val); ("op"%string, op); ("var"%string, var)], op, val.
    repeat split; assumption.
  - cbn [AlertCheck.parse_loop]. rewrite Hf.
    change (group _ "var") with (Ok var : result str).
    change (group _ "op") with (Ok op : result str).
    change (group _ "val") with (Ok val : result str).
    cbn [rbind]. rewrite Hfop, Hv. reflexivity.
Qed.

Lemma parse_loop_all pieces : forall conditions,
  Forall (fun f => is_Some (fullmatch re_cmp f)) pieces ->
  exists cs, AlertCheck.parse_loop pieces conditions = Ok (true, conditions ++ cs)
    /\ Forall2 condition_of pieces cs.
Proof.
  induction pieces as [|piece rest IH]; intros conditions Hall.
  - exists []. simpl. by rewrite app_nil_r.
  - inversion Hall as [|? ? [m Hm] Hrest]; subst.
    destruct (parse_loop_step piece rest conditions m Hm) as (c & Hc & ->).
    destruct (IH (conditions ++ [c]) Hrest) as (cs & -> & Hcs).
    exists (c :: cs). rewrite <- app_assoc. split; [reflexivity|by constructor].
Qed.

Lemma parse_loop_some pieces : forall conditions,
  Exists (fun f => fullmatch re_cmp f = None) pieces ->
  exists cs, AlertCheck.parse_loop pieces conditions = Ok (false, cs).
Proof.
  induction pieces as [|piece rest IH]; intros conditions Hex.
  - inversion Hex.
  - destruct (fullmatch re_cmp piece) as [m|] eqn:Hm.
    + destruct (parse_loop_step piece rest conditions m Hm) as (c & _ & ->).
      apply IH. inversion Hex as [? ? Hhd|? ? Htl]; subst; [simpl in Hhd; congruence|assumption].
    + exists conditions. simpl. by rewrite Hm.
Qed.

(** C6.  Constructing an [AlertCheck] from a condition string: when some
    piece between the commas does not match the condition pattern the
    constructor raises [ValueError] and the caller gets no object; when
    every piece matches, the object holds one condition per piece, in the
    order of the pieces, each made from the groups of its piece and
    keeping the piece as its text. *)
Theorem AlertCheck_init_all_or_nothing (conditions : str) :
  (Exists (fun f => fullmatch re_cmp f = None) (re_split re_comma conditions) ->
     AlertCheck.__init__ conditions = Raise ValueError)
  /\ (Forall (fun f => is_Some (fullmatch re_cmp f)) (re_split re_comma conditions) ->
     exists cs, AlertCheck.__init__ conditions = Ok cs
       /\ Forall2 condition_of (re_split re_comma conditions) cs
       /\ map c_raw cs = re_split re_comma conditions).
Proof.
  unfold AlertCheck.__init__, AlertCheck.parse. split.
  - intros Hex. destruct (parse_loop_some _ [] Hex) as [cs ->]. reflexivity.
  - intros Hall. destruct (parse_loop_all _ [] Hall) as (cs & -> & Hcs).
    exists cs. split; [reflexivity|]. split; [assumption|]. clear Hall.
    induction Hcs as [|f c fs cs' (m & op & val & _ & _ & _ & _ & _ & _ & Hraw) _ IH];
      [reflexivity|]. simpl. by rewrite Hraw, IH.
Qed.

End Construction.

Lemma AlertCheck_init_all_or_nothing_witness :
  AlertCheck.__init__ (s2l "FREE < 5G, bogus") = Raise ValueError
  /\ exists cs, AlertCheck.__init__ (s2l "FREE < 5G,USED>95%") = Ok cs
       /\ map c_raw cs = [s2l "FREE < 5G"; s2l "USED>95%"].
Proof.
  split.
  - apply (proj1 (AlertCheck_init_all_or_nothing (s2l "FREE < 5G, bogus"))).
    apply Exists_cons_tl, Exists_cons_hd. reflexivity.
  - destruct (proj2 (AlertCheck_init_all_or_nothing (s2l "FREE < 5G,USED>95%")))
      as (cs & Hcs & _ & Hraw).
    + repeat constructor; vm_compute; by eexists.
    + exists cs. split; [exact Hcs|exact Hraw].
Defined.

(** ** [CaseInsensitiveDict] *)

Section DictFacts.
Context {V : Type}.
Implicit Types (d : list (str * V)) (k key l : str) (v : V).

Import CaseInsensitiveDict.

Lemma first_key_lower d l k : first_key d l = Some k -> lower k = l.
Proof.
  induction d as [|[k0 v0] d IH]; simpl; [discriminate|].
  destruct (str_eqb (lower k0) l) eqn:E; [|assumption].
  intros [= <-]. by apply str_eqb_eq.
Qed.

Lemma first_key_get d l k : first_key d l = Some k -> is_Some (dict_get d k).
Proof.
  induction d as [|[k0 v0] d IH]; simpl; [discriminate|].
  destruct (str_eqb (lower k0) l) eqn:E.
  - intros [= <-]. rewrite str_eqb_refl. by eexists.
  - intros Hk. destruct (str_eqb k0 k); [by eexists|by apply IH].
Qed.

Lemma first_key_none d l :
  first_key d l = None <-> existsb (fun kv => str_eqb (lower kv.1) l) d = false.
Proof.
  induction d as [|[k0 v0] d IH]; simpl; [done|].
  destruct (str_eqb (lower k0) l); simpl; [split; discriminate|assumption].
Qed.

Lemma lower_keys_contains d x :
  list_contains (__lower_keys__ d) x = existsb (fun kv => str_eqb (lower kv.1) x) d.
Proof.
  unfold list_contains, __lower_keys__. induction d as [|[k0 v0] d IH]; simpl; [done|].
  rewrite IH. f_equal.
  destruct (str_eqb x (lower k0)) eqn:E1, (str_eqb (lower k0) x) eqn:E2; try reflexivity.
  - apply str_eqb_eq in E1. subst x. by rewrite str_eqb_refl in E2.
  - apply str_eqb_eq in E2. subst x. by rewrite str_eqb_refl in E1.
Qed.

(** What [key in d] computes: whether the first key of [d] that equals
    [key] up to case is written in lower case. *)
Lemma contains_first_key d key :
  __contains__ d key = true <-> first_key d (lower key) = Some (lower key).
Proof.
  unfold __contains__, _find_key. rewrite lower_keys_contains.
  destruct (first_key d (lower key)) as [k|] eqn:Hk.
  - pose proof (first_key_lower _ _ _ Hk) as Hl. split.
    + intros Hc. f_equal.
      destruct (first_key d k) as [k'|] eqn:Hk'.
      * apply first_key_lower in Hk'. rewrite <- Hl, <- Hk'. by rewrite lower_idem.
      * apply first_key_none in Hk'. congruence.
    + intros [= ->].
      destruct (existsb _ d) eqn:E; [reflexivity|].
      apply first_key_none in E. congruence.
  - split; [|discriminate]. intros Hc. exfalso.
    destruct (first_key d key) as [k'|] eqn:Hk'.
    + apply first_key_lower in Hk'.
      apply first_key_none in Hk.
      assert (Hex : existsb (fun kv => str_eqb (lower kv.1) (lower key)) d = true).
      { rewrite <- Hk', lower_idem, Hk'. assumption. }
      congruence.
    + apply first_key_none in Hk'. congruence.
Qed.

(** A field absent under every casing is not contained. *)
Lemma contains_has_field d key : __contains__ d key = true -> has_field d key = true.
Proof.
  intros Hc%contains_first_key. unfold has_field.
  destruct (existsb _ d) eqn:E; [reflexivity|].
  apply first_key_none in E. congruence.
Qed.

Lemma contains_getitem d key :
  __contains__ d key = true ->
  _find_key d key = lower key /\ exists v, __getitem__ d key = Ok v /\ get d key = Some v.
Proof.
  intros Hc%contains_first_key. unfold __getitem__, get, dict_getitem, _find_key.
  rewrite Hc. split; [reflexivity|].
  destruct (first_key_get _ _ _ Hc) as [v ->]. by exists v.
Qed.

Lemma dict_get_setitem_same d k v : dict_get (dict_setitem d k v) k = Some v.
Proof.
  induction d as [|[k0 v0] d IH]; simpl.
  - by rewrite str_eqb_refl.
  - destruct (str_eqb k0 k) eqn:E; simpl; by rewrite E.
Qed.

Lemma dict_get_setitem_other d k v k' :
  k' <> k -> dict_get (dict_setitem d k v) k' = dict_get d k'.
Proof.
  intros Hne. induction d as [|[k0 v0] d IH]; simpl.
  - rewrite str_eqb_neq; [reflexivity|congruence].
  - destruct (str_eqb k0 k) eqn:E; simpl.
    + apply str_eqb_eq in E. subst k0.
      rewrite str_eqb_neq; [reflexivity|congruence].
    + by rewrite IH.
Qed.

Lemma first_key_setitem_other d k v l :
  lower k <> l -> first_key (dict_setitem d k v) l = first_key d l.
Proof.
  intros Hne. induction d as [|[k0 v0] d IH]; simpl.
  - by rewrite str_eqb_neq.
  - destruct (str_eqb k0 k) eqn:E; simpl; [reflexivity|]. by rewrite IH.
Qed.

Lemma first_key_setitem_found d k v l :
  first_key d l = Some k -> first_key (dict_setitem d k v) l = Some k.
Proof.
  induction d as [|[k0 v0] d IH]; simpl; [discriminate|].
  destruct (str_eqb (lower k0) l) eqn:E.
  - intros [= <-]. rewrite str_eqb_refl. simpl. by rewrite E.
  - intros Hk. pose proof (first_key_lower _ _ _ Hk) as Hl.
    rewrite (str_eqb_neq k0 k).
    + simpl. rewrite E. by apply IH.
    + intros ->. rewrite Hl, str_eqb_refl in E. discriminate.
Qed.

Lemma first_key_setitem_new d k v :
  first_key d (lower k) = None -> first_key (dict_setitem d k v) (lower k) = Some k.
Proof.
  induction d as [|[k0 v0] d IH]; simpl.
  - by rewrite str_eqb_refl.
  - destruct (str_eqb (lower k0) (lower k)) eqn:E; [discriminate|].
    intros Hk. rewrite (str_eqb_neq k0 k).
    + simpl. rewrite E. by apply IH.
    + intros ->. rewrite str_eqb_refl in E. discriminate.
Qed.

Lemma find_key_lower d key : lower (_find_key d key) = lower key.
Proof.
  unfold _find_key. destruct (first_key d (lower key)) eqn:E; [|reflexivity].
  by apply first_key_lower in E.
Qed.

(** Reading after [d[key] = v]: the same field, in any casing, gives [v];
    any other field is as before. *)
Lemma get_setitem_same d key v key' :
  lower key' = lower key -> get (__setitem__ d key v) key' = Some v.
Proof.
  intros Hl. unfold get, __setitem__, _find_key. rewrite Hl.
  destruct (first_key d (lower key)) as [k|] eqn:Hk.
  - rewrite (first_key_setitem_found _ _ _ _ Hk). apply dict_get_setitem_same.
  - rewrite (first_key_setitem_new _ _ _ Hk). apply dict_get_setitem_same.
Qed.

Lemma get_setitem_other d key v key' :
  lower key' <> lower key -> get (__setitem__ d key v) key' = get d key'.
Proof.
  intros Hl. unfold get, __setitem__.
  assert (Hfk : _find_key (dict_setitem d (_find_key d key) v) key' = _find_key d key').
  { unfold _find_key at 1 3. rewrite first_key_setitem_other; [reflexivity|].
    rewrite find_key_lower. congruence. }
  rewrite Hfk. apply dict_get_setitem_other.
  intros Heq. apply Hl. by rewrite <- (find_key_lower d key'), Heq, find_key_lower.
Qed.

Lemma getitem_get d key v : __getitem__ d key = Ok v <-> get d key = Some v.
Proof.
  unfold __getitem__, get, dict_getitem.
  destruct (dict_get d (_find_key d key)); split; congruence.
Qed.

End DictFacts.

(** ** [AlertCheck]: evaluation *)

Section Evaluation.
Context `{PyFloat}.

Import CaseInsensitiveDict.

Lemma sample_dict_first_key sample l :
  first_key (AlertCheck.sample_dict sample) l = first_key sample l.
Proof.
  induction sample as [|[k z] sample IH]; simpl; [reflexivity|]. by rewrite IH.
Qed.

Lemma sample_dict_dict_get sample k :
  dict_get (AlertCheck.sample_dict sample) k = VInt <$> dict_get sample k.
Proof.
  induction sample as [|[k0 z] sample IH]; simpl; [reflexivity|].
  destruct (str_eqb k0 k); [reflexivity|assumption].
Qed.

Lemma sample_dict_get sample key :
  get (AlertCheck.sample_dict sample) key = VInt <$> get sample key.
Proof.
  unfold get, _find_key. rewrite sample_dict_first_key. apply sample_dict_dict_get.
Qed.

Lemma sample_dict_has_field sample key :
  has_field (AlertCheck.sample_dict sample) key = has_field sample key.
Proof.
  unfold has_field. induction sample as [|[k z] sample IH]; simpl; [reflexivity|].
  by rewrite IH.
Qed.

(** C1, on the code.  A sample that has the three fields, spelled [Used],
    [FREE] and [Total], is refused with [ValueError]: [key in du] finds the
    key as the sample spells it and then looks for that spelling among the
    keys in lower case. *)
Theorem AlertCheck_call_mixed_case_rejected (conditions : list condition) :
  let sample := [(s2l "Used", 1); (s2l "FREE", 2); (s2l "Total", 3)] in
  has_field sample (s2l "used") = true
  /\ has_field sample (s2l "free") = true
  /\ has_field sample (s2l "total") = true
  /\ AlertCheck.__call__ conditions sample = Raise ValueError.
Proof. repeat split; reflexivity. Qed.

Lemma first_key_in {V : Type} (d : list (str * V)) l k :
  first_key d l = Some k -> In k (map fst d).
Proof.
  induction d as [|[k0 v0] d IH]; simpl; [discriminate|].
  destruct (str_eqb (lower k0) l); [intros [= <-]; by left|].
  intros Hk. right. by apply IH.
Qed.

(** The samples [validate_params] lets through: those in which the first
    key equal to [used] up to case is [used] itself, and the same for
    [free] and [total]. *)
Lemma validate_params_spec (du : list (str * value)) :
  AlertCheck.validate_params du = true <->
  first_key du (s2l "used") = Some (s2l "used")
  /\ first_key du (s2l "free") = Some (s2l "free")
  /\ first_key du (s2l "total") = Some (s2l "total").
Proof.
  unfold AlertCheck.validate_params. rewrite !andb_true_iff, !contains_first_key.
  change (lower (s2l "used")) with (s2l "used").
  change (lower (s2l "free")) with (s2l "free").
  change (lower (s2l "total")) with (s2l "total"). tauto.
Qed.

(** A sample that lacks one of the three fields under every casing is
    refused with [ValueError]. *)
Lemma AlertCheck_call_missing_field conditions sample :
  has_field sample (s2l "used") = false
  \/ has_field sample (s2l "free") = false
  \/ has_field sample (s2l "total") = false ->
  AlertCheck.__call__ conditions sample = Raise ValueError.
Proof.
  intros Hmiss. unfold AlertCheck.__call__.
  destruct (AlertCheck.validate_params (AlertCheck.sample_dict sample)) eqn:Hv;
    [|reflexivity].
  exfalso. unfold AlertCheck.validate_params in Hv.
  apply andb_true_iff in Hv as [Hv Ht]. apply andb_true_iff in Hv as [Hu Hf].
  apply contains_has_field in Hu, Hf, Ht. rewrite sample_dict_has_field in Hu, Hf, Ht.
  destruct Hmiss as [Hm|[Hm|Hm]]; congruence.
Qed.

(** A sample whose keys are all in lower case and which has the three
    fields, the total not zero, is valid. *)
Lemma valid_sample_lower_case sample :
  Forall (fun kv => lower kv.1 = kv.1) sample ->
  has_field sample (s2l "used") = true ->
  has_field sample (s2l "free") = true ->
  has_field sample (s2l "total") = true ->
  get sample (s2l "total") <> Some 0 ->
  valid_sample sample.
Proof.
  intros Hlow Hu Hf Ht Hz. split; [|assumption].
  assert (Hfield : forall name, lower name = name -> has_field sample name = true ->
            first_key (AlertCheck.sample_dict sample) name = Some name).
  { intros name Hn Hhas. rewrite sample_dict_first_key.
    destruct (first_key sample name) as [k|] eqn:Hk.
    - f_equal. pose proof (first_key_lower _ _ _ Hk) as Hl.
      apply first_key_in in Hk. apply in_map_iff in Hk as ([k' z] & <- & Hin).
      rewrite Forall_forall in Hlow. apply list_elem_of_In in Hin.
      by rewrite <- (Hlow _ Hin).
    - apply first_key_none in Hk. unfold has_field in Hhas. rewrite Hn in Hhas.
      congruence. }
  apply validate_params_spec. repeat split; by apply Hfield.
Qed.

(** The fields of a sample [validate_params] lets through are there. *)
Lemma validated_fields sample :
  AlertCheck.validate_params (AlertCheck.sample_dict sample) = true ->
  exists used free total,
    get sample (s2l "used") = Some used
    /\ get sample (s2l "free") = Some free
    /\ get sample (s2l "total") = Some total.
Proof.
  intros Hv. unfold AlertCheck.validate_params in Hv.
  apply andb_true_iff in Hv as [Hv Htot]. apply andb_true_iff in Hv as [Hu Hf].
  destruct (contains_getitem _ _ Hu) as [_ (vu & _ & Hu')].
  destruct (contains_getitem _ _ Hf) as [_ (vf & _ & Hf')].
  destruct (contains_getitem _ _ Htot) as [_ (vt & _ & Ht')].
  rewrite sample_dict_get in Hu', Hf', Ht'.
  destruct (get sample (s2l "used")) as [u|]; [|discriminate].
  destruct (get sample (s2l "free")) as [f|]; [|discriminate].
  destruct (get sample (s2l "total")) as [t|]; [|discriminate].
  by exists u, f, t.
Qed.

(** The two divisions of [__call__], on a sample that has the three
    fields. *)
Lemma with_percentages_spec sample used free total :
  get sample (s2l "used") = Some used ->
  get sample (s2l "free") = Some free ->
  get sample (s2l "total") = Some total ->
  AlertCheck.with_percentages (AlertCheck.sample_dict sample)
  = if total =? 0 then Raise ZeroDivisionError
    else if quotient_fits used total && quotient_fits free total
         then Ok (evaluated sample used free total)
         else Raise OverflowError.
Proof.
  intros Hu Hf Ht.
  assert (Hg : forall key z, get sample key = Some z ->
            __getitem__ (AlertCheck.sample_dict sample) key = Ok (VInt z)).
  { intros key z Hz. apply getitem_get. by rewrite sample_dict_get, Hz. }
  unfold AlertCheck.with_percentages.
  rewrite (Hg _ _ Hu), (Hg _ _ Ht). cbn [rbind truediv].
  destruct (total =? 0) eqn:E0; [reflexivity|].
  destruct (quotient_fits used total); [|reflexivity]. cbn [rbind andb].
  assert (Hkeep : forall key z, lower key <> s2l "used_p" ->
            get sample key = Some z ->
            __getitem__ (__setitem__ (AlertCheck.sample_dict sample) (s2l "used_p")
                           (VFloat (int_truediv used total))) key = Ok (VInt z)).
  { intros key z Hk Hz. apply getitem_get. rewrite get_setitem_other by assumption.
    by rewrite sample_dict_get, Hz. }
  rewrite (Hkeep (s2l "free") free), (Hkeep (s2l "total") total);
    try assumption; try discriminate.
  cbn [rbind truediv]. rewrite E0. by destruct (quotient_fits free total).
Qed.

Lemma evaluated_fields sample used free total :
  get (evaluated sample used free total) (s2l "used_p")
    = Some (VFloat (int_truediv used total))
  /\ get (evaluated sample used free total) (s2l "free_p")
    = Some (VFloat (int_truediv free total))
  /\ (forall name, lower name <> s2l "used_p" -> lower name <> s2l "free_p" ->
        get (evaluated sample used free total) name = VInt <$> get sample name).
Proof.
  unfold evaluated. split; [|split].
  - rewrite get_setitem_other by discriminate. by apply get_setitem_same.
  - by apply get_setitem_same.
  - intros name H1 H2. rewrite !get_setitem_other by assumption.
    apply sample_dict_get.
Qed.

(** The loop goes past the conditions that are evaluated and do not
    hold. *)
Lemma check_loop_not_met du pre rest :
  Forall (not_met du) pre ->
  AlertCheck.check_loop du (pre ++ rest) = AlertCheck.check_loop du rest.
Proof.
  induction 1 as [|c pre [Hc Hs] _ IH]; [reflexivity|].
  cbn [app AlertCheck.check_loop].
  change (if is_float (c_val c) then c_var c ++ s2l "_p" else c_var c) with (field c).
  unfold satisfied in Hs.
  destruct (get du (field c)) as [v|] eqn:Hg; cbn [BinaryOperatorM.__call__ rbind].
  - by rewrite Hs.
  - destruct Hc as [Hop|[v Hv]]; [|congruence]. rewrite Hop. cbn [rbind]. exact IH.
Qed.

(** It stops at the first condition that holds. *)
Lemma check_loop_met du c rest :
  satisfied du c = true ->
  AlertCheck.check_loop du (c :: rest) = Ok (Some (c_raw c)).
Proof.
  intros Hs. cbn [AlertCheck.check_loop].
  change (if is_float (c_val c) then c_var c ++ s2l "_p" else c_var c) with (field c).
  unfold satisfied in Hs.
  destruct (get du (field c)) as [v|]; [|discriminate].
  cbn [BinaryOperatorM.__call__ rbind]. by rewrite Hs.
Qed.

(** It is left with [TypeError] at a condition that orders a field that
    is not there. *)
Lemma check_loop_not_comparable du c rest :
  ~ comparable du c ->
  AlertCheck.check_loop du (c :: rest) = Raise TypeError.
Proof.
  intros Hc. cbn [AlertCheck.check_loop].
  change (if is_float (c_val c) then c_var c ++ s2l "_p" else c_var c) with (field c).
  destruct (get du (field c)) as [v|] eqn:Hg.
  - exfalso. apply Hc. right. by exists v.
  - cbn [BinaryOperatorM.__call__]. destruct (c_op c) eqn:Hop; try reflexivity.
    exfalso. apply Hc. by left.
Qed.

(** C3, as amended.  On a sample [validate_params] lets through, with a
    total that is not zero and the two ratios [used / total] and
    [free / total] within the range of [float], the conditions are tried
    in order on the sample extended with [used_p] and [free_p]: a
    condition whose value is a fraction is compared on the field named by
    its variable followed by [_p], any other on the field named by its
    variable, an equality test on a field that is not there being false.
    The result is the text of the first condition that holds, when none
    before it orders a field that is not there; it is [None] when no
    condition holds and none orders such a field; and the evaluation
    raises [TypeError] when a condition that orders a field that is not
    there comes before any that holds. *)
Theorem AlertCheck_call_first_match (conditions : list condition) (sample : list (str * Z))
    (used free total : Z) :
  AlertCheck.validate_params (AlertCheck.sample_dict sample) = true ->
  get sample (s2l "used") = Some used ->
  get sample (s2l "free") = Some free ->
  get sample (s2l "total") = Some total ->
  total <> 0 ->
  quotient_fits used total = true ->
  quotient_fits free total = true ->
  let du := evaluated sample used free total in
  (forall pre c post, conditions = pre ++ c :: post ->
     Forall (not_met du) pre -> satisfied du c = true ->
     AlertCheck.__call__ conditions sample = Ok (Some (c_raw c)))
  /\ (Forall (not_met du) conditions ->
      AlertCheck.__call__ conditions sample = Ok None)
  /\ (forall pre c post, conditions = pre ++ c :: post ->
     Forall (not_met du) pre -> ~ comparable du c ->
     AlertCheck.__call__ conditions sample = Raise TypeError).
Proof.
  intros Hv Hu Hf Ht Hne Hfu Hff du.
  assert (Hcall : AlertCheck.__call__ conditions sample = AlertCheck.check_loop du conditions).
  { unfold AlertCheck.__call__. rewrite Hv. cbn [negb].
    rewrite (with_percentages_spec sample used free total Hu Hf Ht).
    rewrite (proj2 (Z.eqb_neq total 0) Hne), Hfu, Hff. reflexivity. }
  rewrite Hcall. split; [|split].
  - intros pre c post -> Hpre Hs.
    rewrite (check_loop_not_met du pre (c :: post) Hpre). by apply check_loop_met.
  - intros Hall. rewrite <- (app_nil_r conditions).
    by rewrite (check_loop_not_met du conditions [] Hall).
  - intros pre c post -> Hpre Hc.
    rewrite (check_loop_not_met du pre (c :: post) Hpre).
    by apply check_loop_not_comparable.
Qed.

End Evaluation.

Lemma AlertCheck_call_first_match_witness :
  AlertCheck.__init__ (s2l "FREE < 5G,USED>95%") = Ok test_checker
  /\ AlertCheck.__call__ test_checker (test_sample 96 4) = Ok (Some (s2l "FREE < 5G"))
  /\ AlertCheck.__call__ test_checker (test_sample 96 40) = Ok (Some (s2l "USED>95%"))
  /\ AlertCheck.__call__ test_checker (test_sample 9 91) = Ok None
  /\ AlertCheck.__call__ (test_checker ++ [foo_condition]) (test_sample 96 40)
     = Ok (Some (s2l "USED>95%"))
  /\ AlertCheck.__call__ (test_checker ++ [foo_condition]) (test_sample 9 91)
     = Raise TypeError.
Proof.
  assert (Hrun : forall used free conditions,
            quotient_fits (used * GB) (100 * GB) = true ->
            quotient_fits (free * GB) (100 * GB) = true ->
            let du := evaluated (test_sample used free) (used * GB) (free * GB) (100 * GB) in
            (forall pre c post, conditions = pre ++ c :: post ->
               Forall (not_met du) pre -> satisfied du c = true ->
               AlertCheck.__call__ conditions (test_sample used free) = Ok (Some (c_raw c)))
            /\ (Forall (not_met du) conditions ->
                AlertCheck.__call__ conditions (test_sample used free) = Ok None)
            /\ (forall pre c post, conditions = pre ++ c :: post ->
               Forall (not_met du) pre -> ~ comparable du c ->
               AlertCheck.__call__ conditions (test_sample used free) = Raise TypeError)).
  { intros used free conditions Hfu Hff.
    apply (AlertCheck_call_first_match conditions (test_sample used free)
             (used * GB) (free * GB) (100 * GB));
      try reflexivity; try assumption. discriminate. }
  assert (Hthere : forall used free c name,
            field c = s2l name -> In name ["FREE"; "USED_p"]%string ->
            comparable (evaluated (test_sample used free) (used * GB) (free * GB) (100 * GB)) c).
  { intros used free c name Hfield Hin. right. rewrite Hfield.
    destruct Hin as [<-|[<-|[]]]; by eexists. }
  split; [reflexivity|].
  split; [|split; [|split; [|split]]].
  - apply (proj1 (Hrun 96 4 test_checker eq_refl eq_refl)
             [] (Condition (s2l "FREE") OpLt (VInt (5 * GB)) (s2l "FREE < 5G"))
             [Condition (s2l "USED") OpGt
                (VFloat (float_div (float_of_int 95) float_100)) (s2l "USED>95%")]);
      [reflexivity|constructor|reflexivity].
  - apply (proj1 (Hrun 96 40 test_checker eq_refl eq_refl)
             [Condition (s2l "FREE") OpLt (VInt (5 * GB)) (s2l "FREE < 5G")]
             (Condition (s2l "USED") OpGt
                (VFloat (float_div (float_of_int 95) float_100)) (s2l "USED>95%")) []);
      [reflexivity| |reflexivity].
    constructor; [|constructor].
    split; [by apply (Hthere 96 40 _ "FREE"%string); [|left]|reflexivity].
  - apply (proj1 (proj2 (Hrun 9 91 test_checker eq_refl eq_refl))).
    constructor; [|constructor; [|constructor]].
    + split; [by apply (Hthere 9 91 _ "FREE"%string); [|left]|reflexivity].
    + split; [by apply (Hthere 9 91 _ "USED_p"%string); [|right; left]|reflexivity].
  - apply (proj1 (Hrun 96 40 (test_checker ++ [foo_condition]) eq_refl eq_refl)
             [Condition (s2l "FREE") OpLt (VInt (5 * GB)) (s2l "FREE < 5G")]
             (Condition (s2l "USED") OpGt
                (VFloat (float_div (float_of_int 95) float_100)) (s2l "USED>95%"))
             [foo_condition]);
      [reflexivity| |reflexivity].
    constructor; [|constructor].
    split; [by apply (Hthere 96 40 _ "FREE"%string); [|left]|reflexivity].
  - apply (proj2 (proj2 (Hrun 9 91 (test_checker ++ [foo_condition]) eq_refl eq_refl))
             test_checker foo_condition []); [reflexivity| |].
    + constructor; [|constructor; [|constructor]].
      * split; [by apply (Hthere 9 91 _ "FREE"%string); [|left]|reflexivity].
      * split; [by apply (Hthere 9 91 _ "USED_p"%string); [|right; left]|reflexivity].
    + intros [Hop|[v Hv]]; discriminate.
Defined.

(** C3 as stated fails in two ways.  A condition can name a field no
    sample has: the string [foo > 5] makes an [AlertCheck], the sample is
    valid, and the evaluation raises [TypeError] and returns nothing.  And
    on a valid sample whose [used] is beyond the range of [float] the
    first division raises [OverflowError]. *)
Lemma AlertCheck_call_no_result :
  let huge := [(s2l "total", 1); (s2l "used", 10 ^ 400); (s2l "free", 0)] in
  AlertCheck.__init__ (s2l "foo > 5") = Ok [foo_condition]
  /\ valid_sample (test_sample 96 4)
  /\ AlertCheck.__call__ [foo_condition] (test_sample 96 4) = Raise TypeError
  /\ (forall r, AlertCheck.__call__ [foo_condition] (test_sample 96 4) <> Ok r)
  /\ AlertCheck.__init__ (s2l "FREE < 5G,USED>95%") = Ok test_checker
  /\ valid_sample huge
  /\ AlertCheck.__call__ test_checker huge = Raise OverflowError
  /\ (forall r, AlertCheck.__call__ test_checker huge <> Ok r).
Proof.
  intros huge. split; [reflexivity|]. split; [|split; [|split; [|split; [|split; [|split]]]]].
  - split; [reflexivity|vm_compute; discriminate].
  - reflexivity.
  - intros r. vm_compute. discriminate.
  - reflexivity.
  - split; [reflexivity|vm_compute; discriminate].
  - vm_compute. reflexivity.
  - intros r. vm_compute. discriminate.
Qed.

(** ** The condition grammar takes any identifier *)

Lemma star_chr_greedy {A : Type} (p : ascii -> bool) (k : str -> caps -> option A)
    (rest : str) cs x :
  match rest with c :: _ => p c = false | [] => True end ->
  k rest cs = Some x ->
  forall ds n, forallb p ds = true -> (length (ds ++ rest) <= n)%nat ->
    star_loop (bt (Chr p)) k n (ds ++ rest) cs = Some x.
Proof.
  intros Hrest Hk ds. induction ds as [|d ds IH]; intros n Hds Hn.
  - destruct n as [|n]; [assumption|]. simpl.
    destruct rest as [|c rest]; [assumption|]. by rewrite Hrest.
  - simpl in Hds. apply andb_true_iff in Hds as [Hd Hds].
    destruct n as [|n]; [simpl in Hn; lia|].
    change ((d :: ds) ++ rest) with (d :: (ds ++ rest)).
    cbn [star_loop bt]. rewrite Hd.
    assert (Hlt : (length (ds ++ rest) <? length (d :: ds ++ rest))%nat = true)
      by (apply Nat.ltb_lt; simpl; lia).
    rewrite Hlt, IH; [reflexivity|assumption|simpl in Hn; lia].
Qed.

Lemma match_prefix_no_comma s :
  forallb not_comma s = true -> match_prefix re_comma s = None.
Proof.
  intros Hs. unfold match_prefix.
  destruct (bt re_comma s [] _) as [[s' cs']|] eqn:Hbt; [|reflexivity].
  apply bt_sound in Hbt as (s1 & s2 & cs1 & -> & Hm & _).
  unfold re_comma in Hm.
  apply Match_Cat_inv in Hm as (w1 & t & c1 & -> & _ & Hm).
  apply Match_Cat_inv in Hm as (cm & w2 & c2 & -> & [-> _]%Match_Lit_inv & _).
  rewrite !forallb_app in Hs. simpl in Hs.
  rewrite andb_false_r in Hs. discriminate.
Qed.

Lemma re_split_fuel_no_comma s : forall n cur,
  forallb not_comma s = true -> (length s < n)%nat ->
  re_split_fuel n re_comma cur s = [rev cur ++ s].
Proof.
  induction s as [|c s IH]; intros n cur Hs Hn; (destruct n as [|n]; [lia|]).
  - simpl. by rewrite app_nil_r.
  - cbn [re_split_fuel]. rewrite match_prefix_no_comma by assumption.
    simpl in Hs. apply andb_true_iff in Hs as [_ Hs].
    rewrite IH by (assumption || (simpl in Hn; lia)).
    simpl. by rewrite <- app_assoc.
Qed.

(** A string without a comma is one piece. *)
Lemma re_split_no_comma s :
  forallb not_comma s = true -> re_split re_comma s = [s].
Proof.
  intros Hs. unfold re_split. rewrite re_split_fuel_no_comma by (assumption || lia).
  reflexivity.
Qed.

Lemma word_not_comma c : is_word c = true -> not_comma c = true.
Proof. each_char c; vm_compute; congruence. Qed.

Lemma fullmatch_identifier (v : str) :
  v <> [] -> forallb is_word v = true ->
  fullmatch re_cmp (v ++ s2l " > 5")
  = Some [("val"%string, s2l "5"); ("op"%string, s2l ">"); ("var"%string, v)].
Proof.
  intros Hne Hv. destruct v as [|c0 v]; [done|].
  simpl in Hv. apply andb_true_iff in Hv as [Hc0 Hv].
  unfold fullmatch, re_cmp, Plus.
  change ((c0 :: v) ++ s2l " > 5") with (c0 :: (v ++ s2l " > 5")).
  cbn [bt]. rewrite Hc0.
  apply star_chr_greedy; [reflexivity| |assumption|lia].
  change (c0 :: v ++ s2l " > 5") with ((c0 :: v) ++ s2l " > 5").
  rewrite (take_app_minus (c0 :: v) (s2l " > 5")). reflexivity.
Qed.

Section AnyIdentifier.
Context `{PyFloat}.

(** C9.  Any identifier is taken as the variable of a condition: for every
    non-empty string [v] of word characters, [v > 5] makes an [AlertCheck]
    whose condition has the variable [v].  On a sample that
    [validate_params] lets through, the conditions made from [foo > 5] and
    from [TOTAL > 95%] look up a field the dictionary does not have ([foo],
    [TOTAL_p]); the look-up gives [None] and the comparison raises
    [TypeError], which is neither a result nor the [ValueError] of an
    invalid sample. *)
Theorem AlertCheck_any_identifier :
  (forall v : str, v <> [] -> forallb is_word v = true ->
     AlertCheck.__init__ (v ++ s2l " > 5")
     = Ok [Condition v OpGt (VInt 5) (v ++ s2l " > 5")])
  /\ (forall text, text = s2l "foo > 5" \/ text = s2l "TOTAL > 95%" ->
      exists c du,
        AlertCheck.__init__ text = Ok [c]
        /\ AlertCheck.validate_params (AlertCheck.sample_dict (test_sample 96 4)) = true
        /\ AlertCheck.with_percentages (AlertCheck.sample_dict (test_sample 96 4)) = Ok du
        /\ CaseInsensitiveDict.get du (field c) = None
        /\ AlertCheck.__call__ [c] (test_sample 96 4) = Raise TypeError).
Proof.
  split.
  - intros v Hne Hv. unfold AlertCheck.__init__, AlertCheck.parse.
    rewrite re_split_no_comma.
    + cbn [AlertCheck.parse_loop]. rewrite (fullmatch_identifier v Hne Hv). reflexivity.
    + rewrite forallb_app. apply andb_true_iff. split; [|reflexivity].
      rewrite forallb_forall in *. intros c Hc. apply word_not_comma. by apply Hv.
  - intros text [-> | ->]; eexists _, _; repeat split; reflexivity.
Qed.

End AnyIdentifier.

Lemma AlertCheck_any_identifier_witness :
  AlertCheck.__init__ (s2l "used_p" ++ s2l " > 5")
  = Ok [Condition (s2l "used_p") OpGt (VInt 5) (s2l "used_p" ++ s2l " > 5")]
  /\ exists c, AlertCheck.__init__ (s2l "TOTAL > 95%") = Ok [c]
       /\ AlertCheck.__call__ [c] (test_sample 96 4) = Raise TypeError.
Proof.
  split.
  - apply (proj1 AlertCheck_any_identifier); [discriminate|reflexivity].
  - destruct (proj2 AlertCheck_any_identifier (s2l "TOTAL > 95%"))
      as (c & du & Hc & _ & _ & _ & Hcall); [by right|].
    exists c. split; [exact Hc|exact Hcall].
Defined.

(** ** The runs of [test] *)

Example test_intervals :
  map parse_time_interval
    (map s2l ["5"; "10s"; "10m"; "2h"; "1d"; "24h9d"; "1s1m1h"; "1s2m3h4d"])
  = [Ok 5; Ok 10; Ok 600; Ok 7200; Ok 86400; Ok 864000; Ok 3661; Ok 356521].
Proof. vm_compute. reflexivity. Qed.

Example test_intervals_refused :
  map parse_time_interval (map s2l ["bogus"; ""; "1s 0m"; "s"; "1.5h"])
  = [Raise ValueError; Raise ValueError; Raise ValueError; Raise ValueError;
     Raise ValueError].
Proof. vm_compute. reflexivity. Qed.

Example test_sizes :
  map (fun s => parse_size_string (s2l s) default_suffixes) ["5G"; "1024"; "5k"; "1Y"; "K"]
  = [Ok (5 * 1024 ^ 3); Ok 1024; Ok 5120; Ok (1024 ^ 8); Raise ValueError].
Proof. vm_compute. reflexivity. Qed.

Example test_pieces :
  re_split re_comma test_conditions
  = [s2l "FREE == 100G"; s2l "FREE   <" ++ ["009"%char] ++ s2l " 5G";
     s2l "USED     >10G"; s2l "USED>95%"].
Proof. vm_compute. reflexivity. Qed.

Example test_checks :
  match AlertCheck.__init__ test_conditions with
  | Ok checker =>
      map (fun uf => AlertCheck.__call__ checker (test_sample uf.1 uf.2))
        [(96, 4); (90, 10); (9, 91); (0, 100)]
      = [Ok (Some (s2l "FREE   <" ++ ["009"%char] ++ s2l " 5G"));
         Ok (Some (s2l "USED     >10G"));
         Ok None;
         Ok (Some (s2l "FREE == 100G"))]
  | Raise _ => False
  end.
Proof. vm_compute. reflexivity. Qed.

(** White space at the ends of the condition string is not dropped. *)
Example test_outer_space :
  AlertCheck.__init__ (s2l " FREE < 5G") = Raise ValueError
  /\ AlertCheck.__init__ (s2l "FREE < 5G,") = Raise ValueError.
Proof. split; reflexivity. Qed.

Example test_missing_total :
  forall checker : list condition,
    AlertCheck.__call__ checker [(s2l "used", 1); (s2l "free", 1)] = Raise ValueError.
Proof. reflexivity. Qed.

Example test_find_subclass :
  AlertChannel._find_subclass [s2l "WebhookAlertChannel"] (s2l "AlertChannel") (s2l "Webhook")
  = Ok (Some (s2l "WebhookAlertChannel"))
  /\ AlertChannel._find_subclass [s2l "WebhookAlertChannel"] (s2l "AlertChannel") (s2l "mail")
  = Raise KeyError
  /\ AlertChannel._find_subclass [] (s2l "AlertChannel") (s2l "webhook") = Ok None.
Proof. repeat split; reflexivity. Qed.

(** ** [AlertBuffer] *)

Section Buffer.
Import AlertBuffer.

(** C2, as amended.  [push(identifier, data)], the clock reading [now1]
    at the test and [now2] at the new deadline ([now] twice for a push at
    the time [now]).  The message is first stored under the identifier,
    replacing an earlier one.  When [now1] has reached the deadline the
    callback is called once, with all that is pending; when the call
    returns, the pending messages are dropped and the deadline becomes
    [now2] plus the interval; when it raises, the exception leaves [push]
    and the pending messages, the new one among them, and the deadline
    stay.  Before the deadline the callback is not called and the deadline
    stays.  A new buffer has the deadline 0, so its first push, at a time
    not before the epoch, calls the callback. *)
Theorem AlertBuffer_push_spec (self : t) (identifier data : str) (now1 now2 : Z) :
  let pending := <[identifier := data]> (buffer self) in
  pending !! identifier = Some data
  /\ (forall i, i <> identifier -> pending !! i = buffer self !! i)
  /\ (next_time self <= now1 ->
        (push self identifier data now1 now2).2 = [pending]
        /\ (fire self pending = Ok tt ->
              push self identifier data now1 now2
              = (Ok tt, flushed self now2, [pending]))
        /\ (forall e, fire self pending = Raise e ->
              push self identifier data now1 now2
              = (Raise e, stored self identifier data, [pending])))
  /\ (now1 < next_time self ->
        push self identifier data now1 now2
        = (Ok tt, stored self identifier data, []))
  /\ (forall i f, 0 <= now1 ->
        (push (__init__ i f) identifier data now1 now2).2
        = [{[identifier := data]}]).
Proof.
  intros pending. split; [apply lookup_insert_eq|].
  split; [intros i Hi; by apply lookup_insert_ne|].
  unfold push. cbn [stored flushed next_time buffer fire interval]. fold pending.
  split; [|split].
  - intros Hdue. apply Z.leb_le in Hdue. rewrite Hdue.
    split; [by destruct (fire self pending)|]. split.
    + intros Hok. by rewrite Hok.
    + intros e He. by rewrite He.
  - intros Hearly. apply Z.leb_gt in Hearly. by rewrite Hearly.
  - intros i f Hnow. unfold __init__. cbn [stored flushed next_time buffer fire interval].
    apply Z.leb_le in Hnow. rewrite Hnow. by destruct (f _).
Qed.

Lemma AlertBuffer_push_spec_witness :
  let fire := fun _ : gmap str str => Ok tt in
  let b0 := __init__ 10 fire in
  let r1 := push b0 (s2l "host-a") (s2l "disk full") 0 0 in
  let r2 := push r1.1.2 (s2l "host-b") (s2l "low space") 4 4 in
  let r3 := push r2.1.2 (s2l "host-a") (s2l "still full") 12 12 in
  r1.2 = [{[s2l "host-a" := s2l "disk full"]}]
  /\ next_time r1.1.2 = 10
  /\ r2 = (Ok tt, stored r1.1.2 (s2l "host-b") (s2l "low space"), [])
  /\ r3.2 = [<[s2l "host-a" := s2l "still full"]> {[s2l "host-b" := s2l "low space"]}]
  /\ next_time r3.1.2 = 22.
Proof.
  intros fire b0 r1 r2 r3.
  destruct (AlertBuffer_push_spec b0 (s2l "host-a") (s2l "disk full") 0 0)
    as (_ & _ & H1 & _ & _).
  destruct H1 as (_ & H1 & _); [simpl; lia|]. specialize (H1 eq_refl).
  assert (E1 : r1 = (Ok tt, flushed b0 0, [<[s2l "host-a" := s2l "disk full"]> ∅]))
    by exact H1.
  destruct (AlertBuffer_push_spec (flushed b0 0) (s2l "host-b") (s2l "low space") 4 4)
    as (_ & _ & _ & H2 & _).
  specialize (H2 ltac:(simpl; lia)).
  assert (E2 : r2 = (Ok tt, stored (flushed b0 0) (s2l "host-b") (s2l "low space"), [])).
  { unfold r2. rewrite E1. exact H2. }
  destruct (AlertBuffer_push_spec (stored (flushed b0 0) (s2l "host-b") (s2l "low space"))
              (s2l "host-a") (s2l "still full") 12 12) as (_ & _ & H3 & _ & _).
  destruct H3 as (_ & H3 & _); [simpl; lia|]. specialize (H3 eq_refl).
  assert (E3 : r3 = (Ok tt, flushed (stored (flushed b0 0) (s2l "host-b") (s2l "low space")) 12,
                     [<[s2l "host-a" := s2l "still full"]>
                        (<[s2l "host-b" := s2l "low space"]> ∅)])).
  { unfold r3. rewrite E2. exact H3. }
  rewrite E3, E2, E1. repeat split.
Defined.

(** C2 as stated fails for a callback that raises, as the one of the
    server does when the channel cannot be resolved: the push is due and
    the callback is called, but the pending message is kept and the
    deadline is not moved.  And the first push of a new buffer does not
    flush when the clock reads a time before the epoch. *)
Lemma AlertBuffer_push_callback_raises :
  let self := __init__ 10 (fun _ => Raise KeyError) in
  let r := push self (s2l "host-a") (s2l "disk full") 5 5 in
  let early := push (__init__ 10 (fun _ => Ok tt)) (s2l "host-a") (s2l "disk full") (-1) (-1) in
  next_time self <= 5
  /\ r.2 = [{[s2l "host-a" := s2l "disk full"]}]
  /\ r.1.1 = Raise KeyError
  /\ buffer r.1.2 = {[s2l "host-a" := s2l "disk full"]}
  /\ buffer r.1.2 <> ∅
  /\ next_time r.1.2 = 0
  /\ next_time r.1.2 <> 5 + interval self
  /\ early.2 = [].
Proof.
  intros self r early. unfold early, r, self, push, __init__.
  cbn [stored next_time buffer fire interval fst snd]. cbn [Z.leb Z.compare].
  repeat split; done.
Qed.

End Buffer.

(** ** [AlertChannel.load] *)

Section Channel.
Import AlertChannel.

Lemma prepare_calls_app h1 h2 :
  foldr (fun i n => (prepared i + n)%nat) 0%nat (h1 ++ h2)
  = (foldr (fun i n => (prepared i + n)%nat) 0%nat h1
     + foldr (fun i n => (prepared i + n)%nat) 0%nat h2)%nat.
Proof. induction h1 as [|i h1 IH]; simpl; [reflexivity|]. rewrite IH. lia. Qed.

(** C7.  Two resolutions in a row with the same configured name, the two
    configurations being otherwise any and the classes at hand any: when
    the first returns an object, the second returns the same object and
    leaves everything as it is, so [prepare] does not run again.  When the
    name was not in the cache before the first, the object is the one the
    first made, from the first configuration, and [prepare] has run once
    on it, and once in all, after both; when it was, [prepare] does not
    run at all. *)
Theorem AlertChannel_load_cached (subclasses1 subclasses2 : list str)
    (cfg1 cfg2 : gmap str str) (name : str) (w w1 : world) (o : nat) :
  cfg1 !! s2l "disku.alert_channel" = Some name ->
  cfg2 !! s2l "disku.alert_channel" = Some name ->
  load subclasses1 cfg1 w = (Ok o, w1) ->
  load subclasses2 cfg2 w1 = (Ok o, w1)
  /\ _channel_cache w1 !! name = Some o
  /\ (_channel_cache w !! name = None ->
        (exists k, heap w1 !! o = Some (made cfg1 name k))
        /\ prepared <$> heap w1 !! o = Some 1%nat
        /\ prepare_calls (load subclasses2 cfg2 w1).2 = S (prepare_calls w))
  /\ (is_Some (_channel_cache w !! name) ->
        w1 = w /\ prepare_calls (load subclasses2 cfg2 w1).2 = prepare_calls w).
Proof.
  intros Hname1 Hname2 Hload.
  assert (Hcached : _channel_cache w1 !! name = Some o
            /\ (_channel_cache w !! name = None ->
                  (exists k, heap w1 !! o = Some (made cfg1 name k))
                  /\ prepare_calls w1 = S (prepare_calls w))
            /\ (is_Some (_channel_cache w !! name) -> w1 = w)).
  { unfold load in Hload. rewrite Hname1 in Hload.
    destruct (_channel_cache w !! name) as [cached|] eqn:Hc.
    - inversion Hload; subst. split; [assumption|]. split; [discriminate|reflexivity].
    - destruct (_find_subclass subclasses1 (s2l "AlertChannel") name) as [[k|]|e];
        [|by inversion Hload|by inversion Hload].
      unfold setdefault in Hload. rewrite Hc in Hload. cbn [fst snd] in Hload.
      inversion Hload; subst. clear Hload. cbn [_channel_cache heap].
      split; [apply lookup_insert_eq|]. split; [|by intros [? ?]].
      intros _.
      rewrite <- (Nat.add_0_r (length (heap w))), alter_app_r. cbn [alter list_alter].
      rewrite Nat.add_0_r. split.
      + exists k. rewrite lookup_app_r by lia. by rewrite Nat.sub_diag.
      + unfold prepare_calls. cbn [heap]. rewrite prepare_calls_app. simpl. lia. }
  destruct Hcached as (Hin & Hfresh & Hold).
  assert (Hsecond : load subclasses2 cfg2 w1 = (Ok o, w1)).
  { unfold load. by rewrite Hname2, Hin. }
  rewrite Hsecond. cbn [snd]. split; [reflexivity|]. split; [assumption|]. split.
  - intros Hnone. destruct (Hfresh Hnone) as [[k Hk] Hcalls].
    split; [by exists k|]. split; [by rewrite Hk|assumption].
  - intros Hsome. split; [by apply Hold|]. by rewrite (Hold Hsome).
Qed.

Lemma AlertChannel_load_cached_witness :
  let cfg1 : gmap str str := {[s2l "disku.alert_channel" := s2l "webhook"]} in
  let cfg2 : gmap str str :=
    <[s2l "webhook.url" := s2l "http://localhost/hook"]> cfg1 in
  let w0 := {| heap := []; _channel_cache := ∅ |} in
  let r1 := load [s2l "WebhookAlertChannel"] cfg1 w0 in
  let r2 := load [] cfg2 r1.2 in
  r1.1 = Ok 0%nat /\ r2 = (Ok 0%nat, r1.2) /\ prepare_calls r2.2 = 1%nat
  /\ heap r2.2 = [made cfg1 (s2l "webhook") (s2l "WebhookAlertChannel")].
Proof.
  intros cfg1 cfg2 w0 r1 r2.
  assert (Hcfg1 : cfg1 !! s2l "disku.alert_channel" = Some (s2l "webhook"))
    by apply lookup_singleton_eq.
  assert (Hcfg2 : cfg2 !! s2l "disku.alert_channel" = Some (s2l "webhook")).
  { unfold cfg2. rewrite lookup_insert_ne by discriminate. exact Hcfg1. }
  assert (H1 : r1 = (Ok 0%nat, r1.2)).
  { unfold r1, load. rewrite Hcfg1. reflexivity. }
  destruct (AlertChannel_load_cached [s2l "WebhookAlertChannel"] [] cfg1 cfg2
              (s2l "webhook") w0 r1.2 0%nat Hcfg1 Hcfg2 H1)
    as (H2 & _ & H3 & _).
  destruct (H3 (lookup_empty _)) as (_ & _ & Hcalls).
  split; [by rewrite H1|]. split; [exact H2|]. split; [exact Hcalls|].
  unfold r2. rewrite H2. unfold r1, load. rewrite Hcfg1. reflexivity.
Defined.

End Channel.

(** * More of the code *)

(** ** [CaseInsensitiveDict]: reading, writing, deleting *)

Section DictMore.
Context {V : Type}.
Implicit Types (d : list (str * V)) (k key l : str) (v : V).

Import CaseInsensitiveDict.

Lemma dict_get_first_key d k v :
  dict_get d k = Some v -> is_Some (first_key d (lower k)).
Proof.
  induction d as [|[k0 v0] d IH]; simpl; [discriminate|].
  destruct (str_eqb (lower k0) (lower k)) eqn:El; [by eexists|].
  destruct (str_eqb k0 k) eqn:E; [|assumption].
  apply str_eqb_eq in E. subst k0. by rewrite str_eqb_refl in El.
Qed.

Lemma get_none_iff d key : get d key = None <-> first_key d (lower key) = None.
Proof.
  unfold get, _find_key. destruct (first_key d (lower key)) as [k|] eqn:Hk.
  - destruct (first_key_get _ _ _ Hk) as [v ->]. split; discriminate.
  - split; [done|]. intros _.
    destruct (dict_get d key) as [v|] eqn:Hg; [|reflexivity].
    apply dict_get_first_key in Hg as [k' Hk']. congruence.
Qed.

Lemma get_some_iff d key : is_Some (get d key) <-> has_field d key = true.
Proof.
  unfold has_field. destruct (get d key) as [v|] eqn:Hg.
  - split; [|by eexists]. intros _.
    destruct (existsb _ d) eqn:E; [reflexivity|].
    apply first_key_none in E. apply get_none_iff in E. congruence.
  - apply get_none_iff, first_key_none in Hg. rewrite Hg.
    split; [intros [? [=]]|discriminate].
Qed.

(** Two keys equal up to case read the same. *)
Lemma get_lower d key key' : lower key = lower key' -> get d key = get d key'.
Proof.
  intros Hl. unfold get, _find_key. rewrite <- Hl.
  destruct (first_key d (lower key)) as [k|] eqn:Hk; [reflexivity|].
  pose proof (proj2 (get_none_iff d key) Hk) as H1.
  assert (Hk' : first_key d (lower key') = None) by (by rewrite <- Hl).
  pose proof (proj2 (get_none_iff d key') Hk') as H2.
  unfold get, _find_key in H1, H2. rewrite Hk in H1. rewrite Hk' in H2.
  by rewrite H1, H2.
Qed.

(** X1.  Reading does not depend on the case of the key: two keys equal
    up to case give the same answer from [get] and from [__getitem__],
    which raises [KeyError] exactly when [get] finds nothing. *)
Theorem get_case_insensitive d key key' :
  lower key = lower key' ->
  get d key = get d key'
  /\ __getitem__ d key = __getitem__ d key'
  /\ (__getitem__ d key = Raise KeyError <-> get d key = None).
Proof.
  intros Hl. pose proof (get_lower d key key' Hl) as Hg.
  split; [assumption|]. unfold __getitem__, dict_getitem.
  change (dict_get d (_find_key d key)) with (get d key).
  change (dict_get d (_find_key d key')) with (get d key').
  rewrite <- Hg. split; [reflexivity|].
  destruct (get d key); split; congruence.
Qed.

(** X2.  Writing then reading: after [d[key] = v] a key equal to [key] up
    to case reads [v], and every other key reads what it read before. *)
Theorem setitem_then_get d key v key' :
  get (__setitem__ d key v) key'
  = if str_eqb (lower key') (lower key) then Some v else get d key'.
Proof.
  destruct (str_eqb (lower key') (lower key)) eqn:E.
  - apply str_eqb_eq in E. by apply get_setitem_same.
  - apply get_setitem_other. intros Heq. rewrite Heq, str_eqb_refl in E. discriminate.
Qed.

Lemma dict_setitem_keys_present d k v :
  In k (keys d) -> keys (dict_setitem d k v) = keys d.
Proof.
  unfold keys. induction d as [|[k0 v0] d IH]; simpl; [done|].
  intros Hin. destruct (str_eqb k0 k) eqn:E; [reflexivity|]. simpl. f_equal.
  apply IH. destruct Hin as [->|Hin]; [|assumption].
  by rewrite str_eqb_refl in E.
Qed.

Lemma dict_setitem_keys_absent d k v :
  ~ In k (keys d) -> keys (dict_setitem d k v) = keys d ++ [k].
Proof.
  unfold keys. induction d as [|[k0 v0] d IH]; simpl; [done|].
  intros Hin. rewrite str_eqb_neq by (intros ->; apply Hin; by left).
  simpl. f_equal. apply IH. intros H. apply Hin. by right.
Qed.

Lemma first_key_none_lower d l :
  first_key d l = None <-> ~ In l (map lower (keys d)).
Proof.
  unfold keys. induction d as [|[k0 v0] d IH]; simpl; [tauto|].
  destruct (str_eqb (lower k0) l) eqn:E.
  - apply str_eqb_eq in E. split; [discriminate|]. intros Hn. exfalso. apply Hn. by left.
  - rewrite IH. split.
    + intros Hn [Heq|Hin]; [|by apply Hn]. rewrite Heq, str_eqb_refl in E. discriminate.
    + intros Hn Hin. apply Hn. by right.
Qed.

(** The keys after [d[key] = v]: unchanged when some key equals [key] up
    to case, and [key] added at the end otherwise. *)
Lemma setitem_keys d key v :
  keys (__setitem__ d key v)
  = if has_field d key then keys d else keys d ++ [key].
Proof.
  unfold __setitem__, _find_key, has_field.
  destruct (first_key d (lower key)) as [k|] eqn:Hk.
  - assert (E : existsb (fun kv => str_eqb (lower kv.1) (lower key)) d = true).
    { destruct (existsb _ d) eqn:E; [reflexivity|].
      apply first_key_none in E. congruence. }
    rewrite E. apply dict_setitem_keys_present. by apply first_key_in in Hk.
  - pose proof (proj1 (first_key_none _ _) Hk) as E. rewrite E.
    apply dict_setitem_keys_absent. intros Hin.
    apply first_key_none_lower in Hk. apply Hk. by apply in_map.
Qed.

(** X3.  Writing never makes a second spelling of a key: on a dictionary
    in which no two keys are equal up to case, [d[key] = v] leaves one in
    which no two keys are equal up to case, with the same keys when one of
    them equals [key] up to case and with [key] added at the end
    otherwise. *)
Theorem setitem_collision_free d key v :
  collision_free d ->
  collision_free (__setitem__ d key v)
  /\ keys (__setitem__ d key v)
     = (if has_field d key then keys d else keys d ++ [key]).
Proof.
  intros Hfree. split; [|apply setitem_keys].
  unfold collision_free in *. rewrite setitem_keys.
  destruct (has_field d key) eqn:E; [assumption|].
  rewrite map_app. simpl. apply NoDup_app. split; [assumption|].
  split; [|apply NoDup_singleton].
  intros l Hin Hl. apply list_elem_of_singleton in Hl. subst l.
  unfold has_field in E. apply first_key_none, first_key_none_lower in E.
  apply E. by apply list_elem_of_In.
Qed.

(** X4.  [key in d] against reading: whenever [key in d] holds, [get]
    finds a value; and on a dictionary whose keys are all in lower case
    [key in d] holds exactly when [get] finds a value, in whatever case
    [key] is written. *)
Theorem contains_iff_get_lower_case d key :
  (__contains__ d key = true -> is_Some (get d key))
  /\ (lower_case_keys d -> (__contains__ d key = true <-> is_Some (get d key))).
Proof.
  assert (Hsound : __contains__ d key = true -> is_Some (get d key)).
  { intros Hc. destruct (contains_getitem d key Hc) as [_ (v & _ & Hv)]. by eexists. }
  split; [assumption|]. intros Hlow. split; [assumption|].
  intros Hg. apply contains_first_key.
  destruct (first_key d (lower key)) as [k|] eqn:Hk.
  - f_equal. pose proof (first_key_lower _ _ _ Hk) as Hl.
    apply first_key_in in Hk. unfold lower_case_keys in Hlow.
    rewrite Forall_forall in Hlow. apply list_elem_of_In in Hk.
    by rewrite <- (Hlow _ Hk).
  - apply get_none_iff in Hk. rewrite Hk in Hg. by destruct Hg.
Qed.

Lemma first_key_remove_other d k l :
  lower k <> l -> first_key (dict_remove d k) l = first_key d l.
Proof.
  intros Hne. induction d as [|[k0 v0] d IH]; simpl; [reflexivity|].
  destruct (str_eqb k0 k) eqn:E.
  - apply str_eqb_eq in E. subst k0. by rewrite str_eqb_neq.
  - simpl. by rewrite IH.
Qed.

Lemma dict_get_remove_other d k k' :
  k' <> k -> dict_get (dict_remove d k) k' = dict_get d k'.
Proof.
  intros Hne. induction d as [|[k0 v0] d IH]; simpl; [reflexivity|].
  destruct (str_eqb k0 k) eqn:E.
  - apply str_eqb_eq in E. subst k0. rewrite str_eqb_neq; [reflexivity|congruence].
  - simpl. by rewrite IH.
Qed.

Lemma keys_remove_found d k l :
  first_key d l = Some k -> NoDup (map lower (keys d)) ->
  ~ In l (map lower (keys (dict_remove d k))).
Proof.
  unfold keys. induction d as [|[k0 v0] d IH]; simpl; [discriminate|].
  intros Hk Hnd. apply NoDup_cons in Hnd as [Hnotin Hnd].
  destruct (str_eqb (lower k0) l) eqn:El.
  - injection Hk as <-. rewrite str_eqb_refl. apply str_eqb_eq in El. subst l.
    intros Hin. apply Hnotin. by apply list_elem_of_In.
  - pose proof (first_key_lower _ _ _ Hk) as Hl.
    rewrite (str_eqb_neq k0 k) by (intros ->; rewrite Hl, str_eqb_refl in El; discriminate).
    simpl. intros [Heq|Hin].
    + rewrite Heq, str_eqb_refl in El. discriminate.
    + by apply (IH Hk Hnd).
Qed.

(** X5.  Deleting: [del d[key]] raises [KeyError] exactly when no key
    equals [key] up to case; otherwise every key that differs from [key]
    up to case reads as before, and, when no two keys of [d] are equal up
    to case, [key] reads nothing afterwards. *)
Theorem delitem_spec d key :
  (__delitem__ d key = Raise KeyError <-> has_field d key = false)
  /\ (forall d', __delitem__ d key = Ok d' ->
        (forall key', lower key' <> lower key -> get d' key' = get d key')
        /\ (collision_free d -> get d' key = None)).
Proof.
  unfold __delitem__, dict_delitem.
  assert (Hg : dict_get d (_find_key d key) = get d key) by reflexivity.
  rewrite Hg. split.
  - pose proof (get_some_iff d key) as Hs.
    destruct (get d key) as [v|]; split; try done.
    + intros Hf. assert (Ht : has_field d key = true) by (apply Hs; by eexists).
      congruence.
    + intros _. destruct (has_field d key); [|reflexivity].
      destruct (proj2 Hs eq_refl) as [? [=]].
  - intros d' Hd'. destruct (get d key) as [v|] eqn:Hv; [|discriminate].
    injection Hd' as <-. split.
    + intros key' Hne. unfold get.
      assert (Hfk : _find_key (dict_remove d (_find_key d key)) key' = _find_key d key').
      { unfold _find_key at 1 3. rewrite first_key_remove_other; [reflexivity|].
        rewrite find_key_lower. congruence. }
      rewrite Hfk. apply dict_get_remove_other. intros Heq. apply Hne.
      by rewrite <- (find_key_lower d key'), Heq, find_key_lower.
    + intros Hfree. apply get_none_iff.
      destruct (first_key d (lower key)) as [k|] eqn:Hk.
      * unfold _find_key. rewrite Hk. apply first_key_none_lower.
        by apply keys_remove_found.
      * apply get_none_iff in Hk. congruence.
Qed.

(** X6.  A [ConfigProxy] reads without regard to the case of its name
    space and of the key: two proxies on the same configuration whose name
    spaces are equal up to case give the same answers for keys equal up to
    case, from [get] and from [__getitem__]. *)
Theorem ConfigProxy_case_insensitive (src : list (str * V)) ns ns' k k' defval :
  lower ns = lower ns' -> lower k = lower k' ->
  ConfigProxy.get (ConfigProxy.__init__ src ns) k defval
  = ConfigProxy.get (ConfigProxy.__init__ src ns') k' defval
  /\ ConfigProxy.__getitem__ (ConfigProxy.__init__ src ns) k
     = ConfigProxy.__getitem__ (ConfigProxy.__init__ src ns') k'.
Proof.
  intros Hns Hk.
  assert (Hkey : lower (ns ++ s2l "." ++ k) = lower (ns' ++ s2l "." ++ k')).
  { unfold lower in *. rewrite !map_app. by rewrite Hns, Hk. }
  pose proof (get_lower src _ _ Hkey) as Hg. unfold get in Hg.
  unfold ConfigProxy.get, ConfigProxy.__getitem__, ConfigProxy.key, get_default,
    __getitem__, dict_getitem.
  cbn [ConfigProxy.src ConfigProxy.namespace ConfigProxy.__init__].
  by rewrite Hg.
Qed.

End DictMore.

Section DictMoreWitnesses.
Import CaseInsensitiveDict.

Lemma get_case_insensitive_witness :
  let d := [(s2l "Total", 100); (s2l "used", 96)] in
  get d (s2l "TOTAL") = get d (s2l "total")
  /\ get d (s2l "total") = Some 100
  /\ __getitem__ d (s2l "USED") = Ok 96.
Proof.
  intros d. split; [|split; reflexivity].
  apply (proj1 (get_case_insensitive d (s2l "TOTAL") (s2l "total") eq_refl)).
Defined.

Lemma setitem_collision_free_witness :
  let d := [(s2l "Used", 1); (s2l "free", 2)] in
  keys (__setitem__ d (s2l "USED") 5) = [s2l "Used"; s2l "free"]
  /\ keys (__setitem__ d (s2l "total") 7) = [s2l "Used"; s2l "free"; s2l "total"]
  /\ collision_free (__setitem__ d (s2l "USED") 5).
Proof.
  intros d.
  assert (Hd : collision_free d).
  { unfold collision_free. compute_done. }
  split; [exact (proj2 (setitem_collision_free d (s2l "USED") 5 Hd))|].
  split; [exact (proj2 (setitem_collision_free d (s2l "total") 7 Hd))|].
  exact (proj1 (setitem_collision_free d (s2l "USED") 5 Hd)).
Defined.

Lemma contains_iff_get_lower_case_witness :
  let d := [(s2l "used", 1); (s2l "free", 2)] in
  __contains__ d (s2l "USED") = true /\ __contains__ d (s2l "total") = false.
Proof.
  intros d.
  assert (Hd : lower_case_keys d) by (repeat constructor).
  split.
  - apply (proj2 (contains_iff_get_lower_case d (s2l "USED")) Hd). by eexists.
  - destruct (__contains__ d (s2l "total")) eqn:E; [|reflexivity].
    apply (proj1 (contains_iff_get_lower_case d (s2l "total"))) in E.
    destruct E as [v Hv]. discriminate.
Defined.

Lemma delitem_spec_witness :
  let d := [(s2l "Used", 1); (s2l "free", 2)] in
  __delitem__ d (s2l "total") = Raise KeyError
  /\ exists d', __delitem__ d (s2l "USED") = Ok d'
       /\ get d' (s2l "used") = None /\ get d' (s2l "FREE") = Some 2.
Proof.
  intros d. split.
  - apply (proj1 (delitem_spec d (s2l "total"))). reflexivity.
  - exists [(s2l "free", 2)]. split; [reflexivity|].
    destruct (proj2 (delitem_spec d (s2l "USED")) [(s2l "free", 2)] eq_refl) as [Hother Hgone].
    split.
    + apply Hgone. unfold collision_free. compute_done.
    + rewrite (Hother (s2l "FREE")); [reflexivity|discriminate].
Defined.

Lemma ConfigProxy_case_insensitive_witness :
  let src := [(s2l "webhook.URL", s2l "http://hook"); (s2l "disku.debug", s2l "true")] in
  ConfigProxy.get (ConfigProxy.__init__ src (s2l "webhook")) (s2l "url") None
  = ConfigProxy.get (ConfigProxy.__init__ src (s2l "WebHook")) (s2l "Url") None
  /\ ConfigProxy.get (ConfigProxy.__init__ src (s2l "webhook")) (s2l "url") None
     = Some (s2l "http://hook")
  /\ ConfigProxy.get (ConfigProxy.__init__ src (s2l "webhook")) (s2l "mixin") (Some (s2l "{}"))
     = Some (s2l "{}").
Proof.
  intros src. split; [|split; reflexivity].
  apply (ConfigProxy_case_insensitive src (s2l "webhook") (s2l "WebHook")
           (s2l "url") (s2l "Url") None); reflexivity.
Defined.

End DictMoreWitnesses.

(** ** [AlertChannel.load]: what it makes, how it fails, what it keeps *)

Section ChannelMore.
Import AlertChannel.

Lemma load_cases (subclasses : list str) (cfg : gmap str str) (w : world) :
  (exists e, load subclasses cfg w = (Raise e, w))
  \/ (exists name o, cfg !! s2l "disku.alert_channel" = Some name
        /\ _channel_cache w !! name = Some o
        /\ load subclasses cfg w = (Ok o, w))
  \/ (exists (name k : str) rest, cfg !! s2l "disku.alert_channel" = Some name
        /\ _channel_cache w !! name = None
        /\ subclasses = k :: rest
        /\ lower k = lower (name ++ s2l "AlertChannel")
        /\ load subclasses cfg w
           = (Ok (length (heap w)),
              {| heap := heap w ++ [made cfg name k];
                 _channel_cache := <[name := length (heap w)]> (_channel_cache w) |})).
Proof.
  unfold load.
  destruct (cfg !! s2l "disku.alert_channel") as [name|] eqn:Hname;
    [|left; by eexists].
  destruct (_channel_cache w !! name) as [cached|] eqn:Hc.
  { right. left. by exists name, cached. }
  unfold _find_subclass. destruct subclasses as [|k rest]; [left; by eexists|].
  destruct (str_eqb (lower k) (lower (name ++ s2l "AlertChannel"))) eqn:E;
    [|left; by eexists].
  right. right. exists name, k, rest. apply str_eqb_eq in E.
  repeat (split; [done|]).
  unfold setdefault. rewrite Hc. cbn [fst snd]. do 2 f_equal.
  rewrite <- (Nat.add_0_r (length (heap w))), alter_app_r. reflexivity.
Qed.

(** X7.  What a resolution makes: when [load] returns an object for a name
    that was not cached, the class is the first of the subclasses (and its
    name, in any case, is the configured name followed by the name of the
    parent), the object is new and comes after the objects there were,
    which stay as they are, its configuration is read under the name in
    lower case, [prepare] has run on it once, and the cache has the name
    for it and every other name as before. *)
Theorem AlertChannel_load_makes (subclasses : list str) (cfg : gmap str str)
    (w w1 : world) (o : nat) (name : str) :
  cfg !! s2l "disku.alert_channel" = Some name ->
  _channel_cache w !! name = None ->
  load subclasses cfg w = (Ok o, w1) ->
  exists k rest,
    subclasses = k :: rest
    /\ lower k = lower (name ++ s2l "AlertChannel")
    /\ o = length (heap w)
    /\ heap w1 = heap w ++ [made cfg name k]
    /\ _channel_cache w1 = <[name := o]> (_channel_cache w).
Proof.
  intros Hname Hnone Hload.
  destruct (load_cases subclasses cfg w)
    as [[e He]|[(name' & o' & Hn' & Hc' & Hl')|(name' & k & rest & Hn' & Hc' & Hs & Hk & Hl')]].
  - congruence.
  - rewrite Hname in Hn'. injection Hn' as <-. rewrite Hnone in Hc'. discriminate.
  - pose proof (eq_trans (eq_sym Hname) Hn') as Heq. injection Heq as <-.
    rewrite Hl' in Hload. injection Hload as <- <-. by exists k, rest.
Qed.

Lemma AlertChannel_load_makes_witness :
  let cfg : gmap str str := {[s2l "disku.alert_channel" := s2l "WebHook"]} in
  let w0 := {| heap := []; _channel_cache := ∅ |} in
  exists w1, load [s2l "WebhookAlertChannel"; s2l "MailAlertChannel"] cfg w0 = (Ok 0%nat, w1)
    /\ heap w1 = [made cfg (s2l "WebHook") (s2l "WebhookAlertChannel")].
Proof.
  intros cfg w0.
  assert (Hcfg : cfg !! s2l "disku.alert_channel" = Some (s2l "WebHook"))
    by apply lookup_singleton_eq.
  assert (Hl : load [s2l "WebhookAlertChannel"; s2l "MailAlertChannel"] cfg w0
               = (Ok 0%nat, (load [s2l "WebhookAlertChannel"; s2l "MailAlertChannel"] cfg w0).2)).
  { unfold load. rewrite Hcfg. reflexivity. }
  eexists. split; [exact Hl|].
  destruct (AlertChannel_load_makes _ cfg w0 _ 0%nat (s2l "WebHook") Hcfg (lookup_empty _) Hl)
    as (k & rest & [= <- <-] & _ & _ & Hheap & _).
  exact Hheap.
Defined.

(** X8.  How a resolution fails: a [load] that raises leaves the objects
    and the cache as they were, and it raises [KeyError] when the
    configuration names no channel or when the first subclass is not the
    one named, whatever the subclasses after it, and [TypeError] when
    there is no subclass at all. *)
Theorem AlertChannel_load_failure (subclasses : list str) (cfg : gmap str str)
    (w : world) (e : exn) (w1 : world) :
  load subclasses cfg w = (Raise e, w1) ->
  w1 = w
  /\ ((e = KeyError /\ cfg !! s2l "disku.alert_channel" = None)
      \/ (e = KeyError /\ exists name k rest,
            cfg !! s2l "disku.alert_channel" = Some name
            /\ subclasses = k :: rest
            /\ lower k <> lower (name ++ s2l "AlertChannel"))
      \/ (e = TypeError /\ subclasses = [])).
Proof.
  unfold load. intros Hload.
  destruct (cfg !! s2l "disku.alert_channel") as [name|] eqn:Hname.
  2:{ injection Hload as <- <-. split; [reflexivity|]. by left. }
  destruct (_channel_cache w !! name) as [cached|]; [discriminate|].
  unfold _find_subclass in Hload. destruct subclasses as [|k rest].
  { injection Hload as <- <-. split; [reflexivity|]. right. by right. }
  destruct (str_eqb (lower k) (lower (name ++ s2l "AlertChannel"))) eqn:E;
    [discriminate|].
  injection Hload as <- <-. split; [reflexivity|]. right. left.
  split; [reflexivity|]. exists name, k, rest. repeat split.
  intros Heq. rewrite Heq, str_eqb_refl in E. discriminate.
Qed.

Lemma AlertChannel_load_failure_witness :
  let cfg : gmap str str := {[s2l "disku.alert_channel" := s2l "mail"]} in
  let w0 := {| heap := []; _channel_cache := ∅ |} in
  load [s2l "WebhookAlertChannel"; s2l "MailAlertChannel"] cfg w0 = (Raise KeyError, w0)
  /\ load [] cfg w0 = (Raise TypeError, w0).
Proof.
  intros cfg w0.
  assert (Hcfg : cfg !! s2l "disku.alert_channel" = Some (s2l "mail"))
    by apply lookup_singleton_eq.
  assert (H1 : load [s2l "WebhookAlertChannel"; s2l "MailAlertChannel"] cfg w0
               = (Raise KeyError,
                  (load [s2l "WebhookAlertChannel"; s2l "MailAlertChannel"] cfg w0).2)).
  { unfold load. rewrite Hcfg. reflexivity. }
  assert (H2 : load [] cfg w0 = (Raise TypeError, (load [] cfg w0).2)).
  { unfold load. rewrite Hcfg. reflexivity. }
  destruct (AlertChannel_load_failure _ cfg w0 _ _ H1) as [E1 _].
  destruct (AlertChannel_load_failure _ cfg w0 _ _ H2) as [E2 _].
  rewrite E1 in H1. rewrite E2 in H2. by split.
Defined.

Lemma prepare_calls_all_once h :
  Forall (fun i => prepared i = 1%nat) h ->
  foldr (fun i n => (prepared i + n)%nat) 0%nat h = length h.
Proof. induction 1 as [|i h Hi _ IH]; simpl; [reflexivity|]. rewrite Hi, IH. lia. Qed.

Lemma load_cache_sound (subclasses : list str) (cfg : gmap str str) (w : world) :
  cache_sound w -> cache_sound (load subclasses cfg w).2.
Proof.
  intros (Hprep & Hsize & Hbound & Hinj).
  destruct (load_cases subclasses cfg w)
    as [[e ->]|[(name' & o & _ & _ & ->)|(name & k & rest & _ & Hc & _ & _ & ->)]].
  { done. }
  { done. }
  cbn [snd]. unfold cache_sound. cbn [heap _channel_cache]. split; [|split; [|split]].
  - apply Forall_app. split; [assumption|]. by repeat constructor.
  - rewrite length_app, map_size_insert_None by assumption. simpl. lia.
  - intros n o Hn. rewrite length_app. simpl.
    destruct (decide (name = n)) as [<-|Hne].
    + rewrite lookup_insert_eq in Hn. injection Hn as <-. lia.
    + rewrite lookup_insert_ne in Hn by assumption. apply Hbound in Hn. lia.
  - intros n1 n2 o H1 H2.
    destruct (decide (name = n1)) as [<-|Hne1], (decide (name = n2)) as [<-|Hne2];
      [reflexivity| | |].
    + rewrite lookup_insert_eq in H1. injection H1 as <-.
      rewrite lookup_insert_ne in H2 by assumption. apply Hbound in H2. lia.
    + rewrite lookup_insert_eq in H2. injection H2 as <-.
      rewrite lookup_insert_ne in H1 by assumption. apply Hbound in H1. lia.
    + rewrite lookup_insert_ne in H1, H2 by assumption. by apply (Hinj n1 n2 o).
Qed.

(** X9.  Over any sequence of resolutions, with any configurations,
    starting where the cache and the objects agree (as they do at the
    start, both empty): they still agree at the end.  Every object has
    been prepared exactly once, so [prepare] has run once for each cached
    name; every cached name refers to an object, and two names, be they
    equal up to case, never to the same one. *)
Theorem loads_cache_sound (subclasses : list str) (cfgs : list (gmap str str))
    (w : world) :
  cache_sound w ->
  cache_sound (loads subclasses cfgs w)
  /\ prepare_calls (loads subclasses cfgs w)
     = size (_channel_cache (loads subclasses cfgs w)).
Proof.
  intros Hw.
  assert (Hs : cache_sound (loads subclasses cfgs w)).
  { unfold loads. revert w Hw. induction cfgs as [|cfg cfgs IH]; intros w Hw; [done|].
    simpl. apply IH. by apply load_cache_sound. }
  split; [assumption|].
  destruct Hs as (Hprep & Hsize & _). unfold prepare_calls.
  by rewrite prepare_calls_all_once.
Qed.

Lemma loads_cache_sound_witness :
  let cfg name : gmap str str := {[s2l "disku.alert_channel" := s2l name]} in
  let w0 := {| heap := []; _channel_cache := ∅ |} in
  let w := loads [s2l "WebhookAlertChannel"]
             [cfg "webhook"; cfg "WEBHOOK"; cfg "mail"; cfg "webhook"] w0 in
  cache_sound w /\ prepare_calls w = size (_channel_cache w).
Proof.
  intros cfg w0 w. apply loads_cache_sound.
  unfold cache_sound, w0. cbn [heap _channel_cache].
  split; [constructor|]. split; [reflexivity|].
  split; intros *; rewrite lookup_empty; discriminate.
Defined.

End ChannelMore.

(** ** [AlertBuffer]: what happens between two flushes *)

Section BufferMore.
Import AlertBuffer.

Lemma run_app self es1 es2 :
  run self (es1 ++ es2)
  = ((run (run self es1).1 es2).1, (run self es1).2 ++ (run (run self es1).1 es2).2).
Proof.
  revert self. induction es1 as [|e es1 IH]; intros self.
  - simpl. by destruct (run self es2).
  - cbn [app run fst snd]. rewrite IH. cbn [fst snd]. by rewrite app_assoc.
Qed.

Lemma quiet_run es : forall self,
  all_before (next_time self) es ->
  run self es = (with_buffer self (pending_after (buffer self) es), []).
Proof.
  induction es as [|e es IH]; intros self Hall.
  - by destruct self.
  - inversion Hall as [|? ? He Hes]; subst.
    destruct e as [identifier data now1 now2|now].
    + cbn [run step]. unfold push. cbn [stored next_time].
      apply Z.leb_gt in He. rewrite He. cbn [fst snd].
      rewrite IH by assumption. reflexivity.
    + cbn [run step fst snd]. by rewrite IH.
Qed.

(** X10.  Throttling: after a push that flushes, the callback returning,
    no push whose reading of the clock is before the second reading of
    that flush plus the interval calls the callback; through any such
    pushes and idle time the deadline stays and the messages pushed add
    up in the buffer. *)
Theorem AlertBuffer_throttle self identifier data now1 now2 es :
  next_time self <= now1 ->
  fire self (<[identifier := data]> (buffer self)) = Ok tt ->
  all_before (now2 + interval self) es ->
  run self (Push identifier data now1 now2 :: es)
  = (with_buffer (flushed self now2) (pending_after ∅ es),
     [<[identifier := data]> (buffer self)]).
Proof.
  intros Hdue Hfire Hes. cbn [run step]. unfold push. cbn [stored next_time buffer fire].
  apply Z.leb_le in Hdue. rewrite Hdue, Hfire. cbn [fst snd].
  rewrite quiet_run by exact Hes. reflexivity.
Qed.

Lemma AlertBuffer_throttle_witness :
  let b0 := __init__ 10 (fun _ => Ok tt) in
  run b0 [Push (s2l "a") (s2l "m1") 100 101; Push (s2l "b") (s2l "m2") 105 105;
          Idle 110; Push (s2l "a") (s2l "m3") 110 110]
  = (with_buffer (flushed b0 101)
       (<[s2l "a" := s2l "m3"]> (<[s2l "b" := s2l "m2"]> ∅)),
     [{[s2l "a" := s2l "m1"]}]).
Proof.
  intros b0.
  apply (AlertBuffer_throttle b0 (s2l "a") (s2l "m1") 100 101); [simpl; lia|reflexivity|].
  repeat constructor; simpl; lia.
Defined.

Lemma pending_after_lookup es : forall (b : gmap str str) i,
  pending_after b es !! i
  = match last_pushed i es with
    | Some d => Some d
    | None => b !! i
    end.
Proof.
  induction es as [|e es IH]; intros b i; [reflexivity|].
  cbn [pending_after foldl last_pushed]. fold (pending_after).
  change (foldl _ ?b' es) with (pending_after b' es). rewrite IH.
  destruct (last_pushed i es); [reflexivity|].
  destruct e as [identifier data now1 now2|now]; [|reflexivity].
  destruct (str_eqb identifier i) eqn:E.
  - apply str_eqb_eq in E. subst. apply lookup_insert_eq.
  - apply lookup_insert_ne. intros ->. by rewrite str_eqb_refl in E.
Qed.

(** X11.  What a flush delivers: after pushes that all come before the
    deadline, a push that has reached it calls the callback once, with a
    mapping that gives, for every identifier, the message of the last push
    for it since the buffer was as in [self] (this push included), and the
    message [self] held for an identifier not pushed since. *)
Theorem AlertBuffer_flush_delivers_last self es identifier data now1 now2 :
  all_before (next_time self) es ->
  next_time self <= now1 ->
  exists m,
    (run self (es ++ [Push identifier data now1 now2])).2 = [m]
    /\ forall i, m !! i
         = match last_pushed i (es ++ [Push identifier data now1 now2]) with
           | Some d => Some d
           | None => buffer self !! i
           end.
Proof.
  intros Hes Hdue.
  exists (pending_after (buffer self) (es ++ [Push identifier data now1 now2])).
  split; [|intros i; apply pending_after_lookup].
  rewrite run_app, (quiet_run es self Hes). cbn [fst snd app run step].
  unfold push. cbn [stored with_buffer next_time buffer fire].
  apply Z.leb_le in Hdue. rewrite Hdue.
  unfold pending_after. rewrite foldl_app. cbn [foldl].
  by destruct (fire self _).
Qed.

Lemma AlertBuffer_flush_delivers_last_witness :
  let b := with_buffer (flushed (__init__ 10 (fun _ => Ok tt)) 0) ∅ in
  exists m,
    (run b [Push (s2l "a") (s2l "old") 3 3; Push (s2l "b") (s2l "m2") 4 4;
            Push (s2l "a") (s2l "new") 12 12]).2 = [m]
    /\ m !! s2l "a" = Some (s2l "new") /\ m !! s2l "b" = Some (s2l "m2")
    /\ m !! s2l "c" = None.
Proof.
  intros b.
  destruct (AlertBuffer_flush_delivers_last b
              [Push (s2l "a") (s2l "old") 3 3; Push (s2l "b") (s2l "m2") 4 4]
              (s2l "a") (s2l "new") 12 12) as (m & Hm & Hl).
  - repeat constructor; simpl; lia.
  - simpl. lia.
  - exists m. split; [exact Hm|].
    rewrite !Hl. repeat split.
Defined.

Lemma fire_run self es : fire (run self es).1 = fire self.
Proof.
  revert self. induction es as [|e es IH]; intros self; [reflexivity|].
  cbn [run fst]. rewrite IH. destruct e as [identifier data now1 now2|now]; [|reflexivity].
  cbn [step fst snd]. unfold push. cbn [stored next_time buffer fire].
  destruct (_ <=? _); [|reflexivity]. by destruct (fire self _).
Qed.

Lemma push_failing self e identifier data now1 now2 :
  (forall m, fire self m = Raise e) ->
  (push self identifier data now1 now2).1.2 = stored self identifier data
  /\ length (push self identifier data now1 now2).2
     = if next_time self <=? now1 then 1%nat else 0%nat.
Proof.
  intros Hfail. unfold push. cbn [stored next_time buffer fire]. rewrite Hfail.
  by destruct (_ <=? _).
Qed.

(** X12.  A callback that fails loses nothing: when every call of the
    callback raises, then through any pushes and idle time the deadline
    stays, no message is dropped (the buffer holds all that was pushed, the
    last message for each identifier), and every push that has reached the
    deadline calls the callback again. *)
Theorem AlertBuffer_failing_callback self e es :
  (forall m, fire self m = Raise e) ->
  (run self es).1 = with_buffer self (pending_after (buffer self) es)
  /\ length (run self es).2
     = length (List.filter
                 (fun ev => match ev with
                            | Push _ _ now1 _ => next_time self <=? now1
                            | Idle _ => false
                            end) es).
Proof.
  intros Hfail. revert self Hfail.
  induction es as [|ev es IH]; intros self Hfail.
  - split; [by destruct self|reflexivity].
  - destruct ev as [identifier data now1 now2|now].
    + cbn [run step fst snd List.filter].
      destruct (push_failing self e identifier data now1 now2 Hfail) as [Hs Hl].
      rewrite Hs. destruct (IH (stored self identifier data) Hfail) as [IH1 IH2].
      split; [exact IH1|].
      rewrite length_app, Hl, IH2. cbn [stored next_time].
      by destruct (next_time self <=? now1).
    + cbn [run step fst snd List.filter]. destruct (IH self Hfail) as [IH1 IH2].
      split; [exact IH1|exact IH2].
Qed.

Lemma AlertBuffer_failing_callback_witness :
  let b0 := __init__ 10 (fun _ => Raise KeyError) in
  let r := run b0 [Push (s2l "a") (s2l "m1") 100 100; Idle 200;
                   Push (s2l "b") (s2l "m2") 300 300] in
  r.1 = with_buffer b0 (<[s2l "b" := s2l "m2"]> (<[s2l "a" := s2l "m1"]> ∅))
  /\ length r.2 = 2%nat.
Proof.
  intros b0 r.
  destruct (AlertBuffer_failing_callback b0 KeyError
              [Push (s2l "a") (s2l "m1") 100 100; Idle 200;
               Push (s2l "b") (s2l "m2") 300 300]) as [H1 H2]; [reflexivity|].
  split; [exact H1|exact H2].
Defined.

End BufferMore.

(** ** [AlertCheck]: the conditions a constructor makes *)

Lemma Match_chars q r s cs cs' :
  Match r s cs cs' -> re_chars q r -> forallb q s = true.
Proof.
  induction 1 as [cs|p c cs Hp|r1 r2 s1 s2 cs cs1 cs2 _ IH1 _ IH2
                  |r1 r2 s cs cs1 _ IH|r1 r2 s cs cs1 _ IH|r cs
                  |r s1 s2 cs cs1 cs2 _ _ IH1 _ IH2|g r s cs cs1 _ IH];
    simpl; intros Hq.
  - reflexivity.
  - by rewrite (Hq c Hp).
  - destruct Hq as [H1 H2]. by rewrite forallb_app, IH1, IH2.
  - apply IH, Hq.
  - apply IH, Hq.
  - reflexivity.
  - by rewrite forallb_app, IH1, IH2.
  - by apply IH.
Qed.

Lemma re_cmp_no_comma : re_chars not_comma re_cmp.
Proof.
  unfold re_cmp, re_op, re_val, Plus, Opt, Lit; simpl;
    repeat split; intros c; each_char c; vm_compute; congruence.
Qed.

Lemma re_comma_one_comma s cs cs' :
  Match re_comma s cs cs' -> count_commas s = 1%nat.
Proof.
  unfold re_comma.
  intros (w1 & t & c1 & -> & [H1 _]%Match_Star_Chr_inv & Hm)%Match_Cat_inv.
  apply Match_Cat_inv in Hm as (cm & w2 & c2 & -> & [-> _]%Match_Lit_inv
                                  & [H2 _]%Match_Star_Chr_inv).
  assert (Hsp : forall w, forallb is_space w = true -> count_commas w = 0%nat).
  { intros w. unfold count_commas. induction w as [|c w IH]; [done|].
    cbn [forallb List.filter]. intros [Hc Hw]%andb_true_iff.
    destruct (ascii_eqb "," c) eqn:E; [|by apply IH].
    apply ascii_eqb_eq in E. subst c. discriminate. }
  unfold count_commas in *. rewrite !List.filter_app, !length_app, (Hsp w1 H1), (Hsp w2 H2).
  reflexivity.
Qed.

Lemma match_prefix_comma_shorter s s' cs :
  match_prefix re_comma s = Some (s', cs) ->
  (length s' < length s)%nat /\ count_commas s = S (count_commas s').
Proof.
  unfold match_prefix. intros Hbt.
  apply bt_sound in Hbt as (s1 & s2 & cs1 & -> & Hm & [= <- <-]).
  pose proof (re_comma_one_comma _ _ _ Hm) as H1.
  unfold count_commas in *. rewrite List.filter_app, !length_app, H1.
  split; [|reflexivity].
  destruct s1; [discriminate|]. simpl. lia.
Qed.

Lemma match_prefix_at_comma t : is_Some (match_prefix re_comma ("," :: t)%char).
Proof.
  unfold match_prefix.
  apply (bt_complete re_comma [","%char] t [] []); [|by eexists].
  unfold re_comma.
  apply (MCat _ _ [] [","%char] [] [] []); [apply MStar0|].
  apply (MCat _ _ [","%char] [] [] [] []); [by constructor|apply MStar0].
Qed.

Lemma re_split_fuel_pieces n : forall cur s,
  (length s < n)%nat -> forallb not_comma cur = true ->
  length (re_split_fuel n re_comma cur s) = S (count_commas s)
  /\ Forall (fun piece => forallb not_comma piece = true)
       (re_split_fuel n re_comma cur s).
Proof.
  assert (Hrev : forall cur, forallb not_comma cur = true ->
                   forallb not_comma (rev cur) = true).
  { intros cur. rewrite !forallb_forall. intros Hc c Hin. apply Hc. by apply in_rev. }
  induction n as [|n IH]; intros cur s Hn Hcur; [lia|].
  destruct s as [|c t].
  - simpl. split; [reflexivity|]. repeat constructor. by apply Hrev.
  - cbn [re_split_fuel].
    destruct (match_prefix re_comma (c :: t)) as [[s' cs]|] eqn:Hm.
    + destruct (match_prefix_comma_shorter _ _ _ Hm) as [Hlt Hcount].
      rewrite (proj2 (Nat.ltb_lt _ _) Hlt).
      destruct (IH [] s') as [IH1 IH2]; [simpl in Hn, Hlt; lia|reflexivity|].
      split.
      * cbn [length]. by rewrite IH1, Hcount.
      * constructor; [by apply Hrev|assumption].
    + assert (Hc : not_comma c = true).
      { unfold not_comma. destruct (ascii_eqb "," c) eqn:E; [|reflexivity].
        apply ascii_eqb_eq in E. subst c.
        destruct (match_prefix_at_comma t) as [x Hx]. congruence. }
      destruct (IH (c :: cur) t) as [IH1 IH2]; [simpl in Hn; lia|simpl; by rewrite Hc|].
      split; [|assumption].
      rewrite IH1. unfold count_commas. cbn [List.filter].
      unfold not_comma in Hc. apply negb_true_iff in Hc. by rewrite Hc.
Qed.

Section ConstructionMore.
Context `{PyFloat}.

Lemma digit19_val_pos c : is_digit19 c = true -> (1 <=? digit_val c) = true.
Proof. each_char c; vm_compute; congruence. Qed.

Lemma decimal_fold_ge ds : forall acc,
  forallb is_digit ds = true -> 0 <= acc ->
  acc <= fold_left (fun a c => a * 10 + digit_val c) ds acc.
Proof.
  induction ds as [|d ds IH]; intros acc Hds Hacc; cbn [fold_left forallb] in *; [lia|].
  apply andb_true_iff in Hds as [Hd Hds].
  pose proof (digit_val_range d Hd) as Hr. apply andb_true_iff in Hr as [H0 H9].
  apply Z.leb_le in H0, H9.
  assert (Hnext : 0 <= acc * 10 + digit_val d) by lia.
  specialize (IH (acc * 10 + digit_val d) Hds Hnext). lia.
Qed.

Lemma decimal_pos d ds :
  is_digit19 d = true -> forallb is_digit ds = true -> 0 < decimal (d :: ds).
Proof.
  intros Hd Hds. unfold decimal. cbn [fold_left]. rewrite Z.mul_0_l, Z.add_0_l.
  pose proof (digit19_val_pos d Hd) as H1. apply Z.leb_le in H1.
  assert (Hnn : 0 <= digit_val d) by lia.
  pose proof (decimal_fold_ge ds (digit_val d) Hds Hnn). lia.
Qed.

Lemma str_find_ge c s : -1 <= str_find c s.
Proof.
  induction s as [|x s IH]; simpl; [lia|].
  destruct (ascii_eqb x c); [lia|]. destruct (str_find c s =? -1); lia.
Qed.

(** The value of every text the value pattern matches is a threshold. *)
Lemma parse_val_threshold x cs cs' :
  Match re_val x cs cs' ->
  exists v, AlertCheck.parse_val x = Ok v /\ threshold_ok v.
Proof.
  unfold re_val. intros Hm.
  apply Match_Alt_inv in Hm as [Hm|Hm];
    [|apply Match_Alt_inv in Hm as [Hm|Hm];
      [|apply Match_Alt_inv in Hm as [Hm|Hm]]].
  - apply Match_Cat_inv in Hm as (a & s1 & c1 & -> & (-> & ->)%Match_Lit_inv & Hm).
    apply Match_Cat_inv in Hm as (b & s2 & c2 & -> & (-> & ->)%Match_Lit_inv & Hm).
    apply Match_Cat_inv in Hm as (c & s3 & c3 & -> & (-> & ->)%Match_Lit_inv & Hm).
    apply Match_Lit_inv in Hm as [-> ->].
    eexists. split; [apply (parse_val_percent (s2l "100")); [discriminate|reflexivity|by vm_compute]|].
    left. exists 100. split; [lia|reflexivity].
  - apply Match_Cat_inv in Hm as (a & s1 & c1 & -> & (-> & ->)%Match_Lit_inv & Hm).
    apply Match_Lit_inv in Hm as [-> ->].
    eexists. split; [apply (parse_val_percent (s2l "0")); [discriminate|reflexivity|by vm_compute]|].
    left. exists 0. split; [lia|reflexivity].
  - apply Match_Cat_inv in Hm as (a & s1 & c1 & -> & (d & -> & Hd & ->)%Match_Chr_inv & Hm).
    apply Match_Cat_inv in Hm as (b & s2 & c2 & -> & Hopt & (-> & ->)%Match_Lit_inv).
    pose proof (digit19_digit d Hd) as Hdd.
    pose proof (digit_val_range d Hdd) as Hr. apply andb_true_iff in Hr as [H0 H9].
    apply Z.leb_le in H0, H9.
    apply Match_Opt_inv in Hopt as [(e & -> & He & ->)%Match_Chr_inv|[-> ->]].
    + eexists. split; [apply (parse_val_percent [d; e]);
                        [discriminate|simpl; by rewrite Hdd, He|apply (decimal_two_digits d e Hdd He)]|].
      pose proof (digit_val_range e He) as Hr. apply andb_true_iff in Hr as [E0 E9].
      apply Z.leb_le in E0, E9.
      left. exists (decimal [d; e]). split; [unfold decimal; simpl; lia|reflexivity].
    + eexists. split; [apply (parse_val_percent [d]);
                        [discriminate|simpl; by rewrite Hdd|apply (decimal_two_digits d d Hdd Hdd)]|].
      left. exists (decimal [d]). split; [unfold decimal; simpl; lia|reflexivity].
  - apply Match_Cat_inv in Hm as (a & s1 & c1 & -> & (d & -> & Hd & ->)%Match_Chr_inv & Hm).
    apply Match_Cat_inv in Hm as (ds & s2 & c2 & -> & [Hds ->]%Match_Star_Chr_inv & Hopt).
    pose proof (digit19_digit d Hd) as Hdd.
    pose proof (decimal_pos d ds Hd Hds) as Hpos.
    assert (Hall : forallb is_digit (d :: ds) = true) by (simpl; by rewrite Hdd, Hds).
    apply Match_Opt_inv in Hopt as [(k & -> & Hk & ->)%Match_Chr_inv|[-> ->]].
    + destruct (suffix_KMGTP k Hk) as [Hf Hp].
      exists (VInt (decimal (d :: ds)
                    * 1024 ^ (str_find (upper_char k) default_suffixes + 1))).
      split.
      * change ([d] ++ ds ++ [k]) with ((d :: ds) ++ [k]).
        unfold AlertCheck.parse_val. rewrite last_char_snoc, Hp.
        unfold parse_size_string. rewrite last_char_snoc, Hf.
        unfold int_of_str. rewrite but_last_snoc, py_int_digits by done. reflexivity.
      * right. eexists. split; [|reflexivity].
        pose proof (str_find_ge (upper_char k) default_suffixes).
        apply Z.mul_pos_pos; [assumption|]. apply Z.pow_pos_nonneg; lia.
    + rewrite app_nil_r. exists (VInt (decimal (d :: ds))). split.
      * apply (parse_val_size_plain (d :: ds)); done.
      * right. by eexists.
Qed.

Lemma parse_loop_ok pieces : forall conditions cs',
  AlertCheck.parse_loop pieces conditions = Ok (true, cs') ->
  exists cs, cs' = conditions ++ cs /\ Forall2 condition_of pieces cs.
Proof.
  induction pieces as [|piece rest IH]; intros conditions cs' Hp.
  - simpl in Hp. injection Hp as <-. exists []. by rewrite app_nil_r.
  - destruct (fullmatch re_cmp piece) as [m|] eqn:Hm.
    + destruct (parse_loop_step piece rest conditions m Hm) as (c & Hc & Hstep).
      rewrite Hstep in Hp. apply IH in Hp as (cs & -> & Hcs).
      exists (c :: cs). rewrite <- app_assoc. split; [reflexivity|by constructor].
    + simpl in Hp. rewrite Hm in Hp. discriminate.
Qed.

Lemma condition_of_ok piece c : condition_of piece c -> condition_ok c.
Proof.
  intros (m & op & val & Hf & Hvar & Hop & Hval & Hinit & Hpv & Hraw).
  pose proof Hf as Hf'. unfold fullmatch in Hf'.
  apply bt_sound in Hf' as (s1 & s2 & cs1 & Hs & Hm & Hk).
  destruct s2; [|discriminate]. injection Hk as ->. rewrite app_nil_r in Hs. subst s1.
  pose proof (Match_chars not_comma _ _ _ _ Hm re_cmp_no_comma) as Hnc.
  unfold re_cmp in Hm.
  apply Match_Cat_inv in Hm as (var & t1 & c1 & -> & (c0 & Hmv & ->)%Match_Group_inv & Hm).
  apply Match_Cat_inv in Hm as (w1 & t2 & c2 & -> & [_ ->]%Match_Star_Chr_inv & Hm).
  apply Match_Cat_inv in Hm as (op' & t3 & c3 & -> & (c4 & Hmo & ->)%Match_Group_inv & Hm).
  apply Match_Cat_inv in Hm as (w2 & val' & c5 & -> & [_ ->]%Match_Star_Chr_inv & Hm).
  apply Match_Group_inv in Hm as (c6 & Hmval & ->).
  pose proof (Match_re_op_caps _ _ _ Hmo) as ->.
  pose proof (Match_re_val_caps _ _ _ Hmval) as ->.
  unfold Plus in Hmv.
  apply Match_Cat_inv in Hmv as (a & b & c7 & -> & (x & -> & Hx & ->)%Match_Chr_inv & Hstar).
  apply Match_Star_Chr_inv in Hstar as [Hb ->].
  cbn in Hvar, Hval. injection Hvar as Hvar. injection Hval as <-.
  destruct (parse_val_threshold _ _ _ Hmval) as (v & Hv & Hthr).
  rewrite Hv in Hpv. injection Hpv as Hpv.
  unfold condition_ok. rewrite <- Hvar, <- Hpv, Hraw.
  split; [discriminate|]. split; [simpl; by rewrite Hx, Hb|]. split; assumption.
Qed.

(** X13.  Every condition of an [AlertCheck] that was constructed has a
    non-empty string of word characters as variable and, as threshold,
    either a number of hundredths from 0 to 100 divided by [100.0] or a
    positive integer; its text holds no comma. *)
Theorem AlertCheck_init_conditions_ok (conditions : str) (cs : list condition) :
  AlertCheck.__init__ conditions = Ok cs -> Forall condition_ok cs.
Proof.
  unfold AlertCheck.__init__, AlertCheck.parse. intros Hinit.
  destruct (AlertCheck.parse_loop _ []) as [[[] cs']|e] eqn:Hp; try discriminate.
  cbn in Hinit. injection Hinit as ->.
  apply parse_loop_ok in Hp as (cs'' & -> & Hall). simpl.
  induction Hall as [|piece c pieces cs0 Hc _ IH]; constructor; [|assumption].
  by apply (condition_of_ok piece).
Qed.

(** X14.  A condition string with [n] commas is cut into [n + 1] pieces,
    none of which holds a comma (so an empty string, or a comma at an end,
    gives an empty piece), and an [AlertCheck] constructed from it has
    [n + 1] conditions. *)
Theorem re_split_pieces (conditions : str) :
  length (re_split re_comma conditions) = S (count_commas conditions)
  /\ Forall (fun piece => forallb not_comma piece = true)
       (re_split re_comma conditions)
  /\ (forall cs : list condition,
        AlertCheck.__init__ conditions = Ok cs ->
        length cs = S (count_commas conditions)).
Proof.
  destruct (re_split_fuel_pieces (S (length conditions)) [] conditions)
    as [Hlen Hall]; [lia|reflexivity|].
  split; [exact Hlen|]. split; [exact Hall|].
  intros cs. unfold AlertCheck.__init__, AlertCheck.parse. intros Hinit.
  destruct (AlertCheck.parse_loop _ []) as [[[] cs']|e] eqn:Hp; try discriminate.
  cbn in Hinit. injection Hinit as ->.
  apply parse_loop_ok in Hp as (cs'' & -> & Hcs). simpl.
  apply Forall2_length in Hcs. unfold re_split in Hcs. by rewrite <- Hcs.
Qed.

End ConstructionMore.

Lemma AlertCheck_init_conditions_ok_witness :
  exists cs, AlertCheck.__init__ test_conditions = Ok cs /\ Forall condition_ok cs.
Proof.
  destruct (AlertCheck.__init__ test_conditions) as [cs|e] eqn:Hinit.
  - exists cs. split; [reflexivity|]. by apply (AlertCheck_init_conditions_ok test_conditions).
  - vm_compute in Hinit. discriminate.
Defined.

Lemma re_split_pieces_witness :
  length (re_split re_comma test_conditions) = 4%nat
  /\ forall cs : list condition,
       AlertCheck.__init__ test_conditions = Ok cs -> length cs = 4%nat.
Proof.
  destruct (re_split_pieces test_conditions) as (Hlen & _ & Hcs).
  split; [exact Hlen|]. intros cs Hinit. exact (Hcs cs Hinit).
Defined.

(** ** [AlertCheck]: more about the evaluation *)

Section EvaluationMore.
Context `{PyFloat}.

Import CaseInsensitiveDict.

Lemma lower_app (a b : str) : lower (a ++ b) = lower a ++ lower b.
Proof. unfold lower. apply map_app. Qed.

Lemma check_loop_up_to_case du cs cs' :
  Forall2 same_up_to_case cs cs' ->
  AlertCheck.check_loop du cs = AlertCheck.check_loop du cs'.
Proof.
  induction 1 as [|c c' cs cs' (Hvar & Hop & Hval & Hraw) _ IH]; [reflexivity|].
  cbn [AlertCheck.check_loop]. rewrite <- Hop, <- Hval, <- Hraw, IH.
  match goal with
  | |- rbind (BinaryOperatorM.__call__ _ ?a _) _
       = rbind (BinaryOperatorM.__call__ _ ?b _) _ => assert (Hg : a = b)
  end.
  { apply get_lower. destruct (is_float (c_val c)); [|assumption].
    by rewrite !lower_app, Hvar. }
  by rewrite Hg.
Qed.

(** X15.  The case of the variable of a condition does not matter to the
    evaluation: two lists of conditions that differ only in the case of
    the variables give the same result, or raise the same exception, on
    every sample. *)
Theorem AlertCheck_call_up_to_case (cs cs' : list condition) (sample : list (str * Z)) :
  Forall2 same_up_to_case cs cs' ->
  AlertCheck.__call__ cs sample = AlertCheck.__call__ cs' sample.
Proof.
  intros Hsame. unfold AlertCheck.__call__.
  destruct (negb _); [reflexivity|].
  destruct (AlertCheck.with_percentages _) as [du|e]; [|reflexivity].
  cbn [rbind]. by apply check_loop_up_to_case.
Qed.

(** X16.  A sample that passes the validation with a total of zero makes
    the evaluation raise [ZeroDivisionError], whatever the conditions,
    also when there is none. *)
Theorem AlertCheck_call_zero_total (cs : list condition) (sample : list (str * Z)) :
  AlertCheck.validate_params (AlertCheck.sample_dict sample) = true ->
  get sample (s2l "total") = Some 0 ->
  AlertCheck.__call__ cs sample = Raise ZeroDivisionError.
Proof.
  intros Hv Ht. unfold AlertCheck.__call__. rewrite Hv. cbn [negb].
  destruct (validated_fields sample Hv) as (u & f & t & Hu & Hf & Ht').
  by rewrite (with_percentages_spec sample u f 0 Hu Hf Ht).
Qed.

(** X17.  The two ratios are written over whatever the sample holds under
    their names: on a sample that has the three fields, with a total that
    is not zero and both ratios within the range of [float], the
    dictionary the conditions are evaluated on gives, for [used_p] in any
    casing, [used / total], for [free_p] in any casing, [free / total],
    whether the sample had such keys or not, and for every other name what
    the sample gives. *)
Theorem with_percentages_fields (sample : list (str * Z)) (used free total : Z) :
  get sample (s2l "used") = Some used ->
  get sample (s2l "free") = Some free ->
  get sample (s2l "total") = Some total ->
  total <> 0 ->
  quotient_fits used total = true ->
  quotient_fits free total = true ->
  exists du,
    AlertCheck.with_percentages (AlertCheck.sample_dict sample) = Ok du
    /\ (forall name, lower name = s2l "used_p" ->
          get du name = Some (VFloat (int_truediv used total)))
    /\ (forall name, lower name = s2l "free_p" ->
          get du name = Some (VFloat (int_truediv free total)))
    /\ (forall name, lower name <> s2l "used_p" -> lower name <> s2l "free_p" ->
          get du name = VInt <$> get sample name).
Proof.
  intros Hu Hf Ht Hne Hfu Hff.
  exists (evaluated sample used free total). split.
  - rewrite (with_percentages_spec sample used free total Hu Hf Ht).
    by rewrite (proj2 (Z.eqb_neq total 0) Hne), Hfu, Hff.
  - unfold evaluated. split; [|split].
    + intros name Hn. rewrite get_setitem_other by (rewrite Hn; discriminate).
      by apply get_setitem_same.
    + intros name Hn. by apply get_setitem_same.
    + intros name H1 H2. rewrite !get_setitem_other by assumption. apply sample_dict_get.
Qed.

End EvaluationMore.

Lemma AlertCheck_call_up_to_case_witness :
  AlertCheck.__call__ [Condition (s2l "FREE") OpLt (VInt (5 * GB)) (s2l "FREE < 5G")]
    (test_sample 96 4)
  = AlertCheck.__call__ [Condition (s2l "free") OpLt (VInt (5 * GB)) (s2l "FREE < 5G")]
      (test_sample 96 4).
Proof. apply AlertCheck_call_up_to_case. by repeat constructor. Defined.

Lemma AlertCheck_call_zero_total_witness :
  AlertCheck.__call__ test_checker [(s2l "used", 0); (s2l "free", 0); (s2l "total", 0)]
  = Raise ZeroDivisionError.
Proof. apply AlertCheck_call_zero_total; reflexivity. Defined.

Lemma with_percentages_fields_witness :
  exists du,
    AlertCheck.with_percentages
      (AlertCheck.sample_dict
         [(s2l "total", 100); (s2l "used", 96); (s2l "free", 4); (s2l "Used_P", 7)])
    = Ok du
    /\ CaseInsensitiveDict.get du (s2l "used_p") = Some (VFloat (int_truediv 96 100))
    /\ CaseInsensitiveDict.get du (s2l "USED") = Some (VInt 96).
Proof.
  destruct (with_percentages_fields
              [(s2l "total", 100); (s2l "used", 96); (s2l "free", 4); (s2l "Used_P", 7)]
              96 4 100 eq_refl eq_refl eq_refl)
    as (du & Hdu & Hup & _ & Hother); [discriminate|reflexivity|reflexivity|].
  exists du. split; [exact Hdu|]. split.
  - apply Hup. reflexivity.
  - rewrite Hother by discriminate. reflexivity.
Defined.

(** ** The parsers: more *)

Lemma items_seconds_app l1 l2 :
  items_seconds (l1 ++ l2) = items_seconds l1 + items_seconds l2.
Proof.
  unfold items_seconds. induction l1 as [|i l1 IH]; simpl; [reflexivity|].
  rewrite IH. lia.
Qed.

(** X18.  Interval strings add up: for two strings that are no integers
    and that [parse_time_interval] accepts, the two strings written one
    after the other, in either order, are accepted and give the sum of
    their seconds. *)
Theorem parse_time_interval_additive (s1 s2 : str) :
  interval_text s1 -> interval_text s2 ->
  exists n1 n2,
    parse_time_interval s1 = Ok n1
    /\ parse_time_interval s2 = Ok n2
    /\ parse_time_interval (s1 ++ s2) = Ok (n1 + n2)
    /\ parse_time_interval (s2 ++ s1) = Ok (n1 + n2).
Proof.
  intros (l1 & Hne1 & Hok1 & ->) (l2 & Hne2 & Hok2 & ->).
  exists (items_seconds l1), (items_seconds l2).
  split; [by apply parse_time_interval_items|].
  split; [by apply parse_time_interval_items|].
  rewrite <- !items_text_app. split.
  - rewrite <- items_seconds_app. apply parse_time_interval_items.
    + by destruct l1.
    + by rewrite forallb_app, Hok1, Hok2.
  - rewrite Z.add_comm, <- items_seconds_app. apply parse_time_interval_items.
    + by destruct l2.
    + by rewrite forallb_app, Hok1, Hok2.
Qed.

Lemma parse_time_interval_additive_witness :
  parse_time_interval (s2l "1h" ++ s2l " 30m") = Ok (3600 + 1800)
  /\ parse_time_interval (s2l " 30m" ++ s2l "1h") = Ok (3600 + 1800).
Proof.
  destruct (parse_time_interval_additive (s2l "1h") (s2l " 30m"))
    as (n1 & n2 & H1 & H2 & H12 & H21).
  - exists [IPair (s2l "1") "h"]. by repeat split.
  - exists [ISpace " "; IPair (s2l "30") "m"]. by repeat split.
  - vm_compute in H1, H2. injection H1 as <-. injection H2 as <-.
    split; [exact H12|exact H21].
Defined.

Lemma unit_seconds_pos u : is_unit u = true -> (1 <=? unit_seconds u) = true.
Proof. each_char u; vm_compute; congruence. Qed.

Lemma items_seconds_sign l :
  forallb item_ok l = true ->
  0 <= items_seconds l
  /\ (items_seconds l = 0 <-> forallb is_space (items_text l) = true).
Proof.
  induction l as [|[v u|c] l IH]; intros Hok; simpl in Hok.
  - by split.
  - apply andb_true_iff in Hok as [Hvu Hok]. apply andb_true_iff in Hvu as [Hv Hu].
    destruct (IH Hok) as [IH0 _].
    apply positive_digits_spec in Hv as (d & ds & -> & Hd & Hds).
    pose proof (decimal_pos d ds Hd Hds) as Hpos.
    pose proof (unit_seconds_pos u Hu) as Hup. apply Z.leb_le in Hup.
    assert (Hitem : 0 < decimal (d :: ds) * unit_seconds u) by (apply Z.mul_pos_pos; lia).
    unfold items_seconds in *. cbn [foldr item_seconds].
    split; [lia|]. split; [lia|].
    change (items_text (IPair (d :: ds) u :: l)) with (d :: (ds ++ [u]) ++ items_text l).
    cbn [forallb].
    destruct (is_space d) eqn:E; [|discriminate].
    apply space_not_digit19 in E. congruence.
  - apply andb_true_iff in Hok as [Hc Hok]. destruct (IH Hok) as [IH0 IH1].
    unfold items_seconds in *. cbn [foldr item_seconds].
    change (items_text (ISpace c :: l)) with (c :: items_text l).
    cbn [forallb]. rewrite Hc. cbn [andb]. split; [lia|].
    rewrite <- IH1. split; lia.
Qed.

(** X19.  A string that is no integer and that [parse_time_interval]
    accepts never gives a negative number of seconds, and it gives zero
    exactly when it is made of white space only. *)
Theorem parse_time_interval_sign (s : str) :
  interval_text s ->
  exists n, parse_time_interval s = Ok n
    /\ 0 <= n /\ (n = 0 <-> forallb is_space s = true).
Proof.
  intros (l & Hne & Hok & ->). exists (items_seconds l).
  split; [by apply parse_time_interval_items|]. by apply items_seconds_sign.
Qed.

Lemma parse_time_interval_sign_witness :
  exists n, parse_time_interval (s2l " 2h 5s") = Ok n /\ 0 <= n
    /\ (n = 0 <-> forallb is_space (s2l " 2h 5s") = true).
Proof.
  apply parse_time_interval_sign.
  exists [ISpace " "; IPair (s2l "2") "h"; ISpace " "; IPair (s2l "5") "s"].
  by repeat split.
Defined.

Lemma rank_not_int_char c : is_Some (rank c) -> int_char c = false.
Proof. each_char c; vm_compute; intros [? ?]; congruence. Qed.

Lemma py_int_letter_last (s : str) c : int_char c = false -> py_int (s ++ [c]) = None.
Proof.
  intros Hc. destruct (py_int (s ++ [c])) as [n|] eqn:Hi; [|reflexivity].
  apply py_int_chars in Hi as [Hch _]. rewrite forallb_app in Hch. simpl in Hch.
  rewrite Hc, andb_false_r in Hch. discriminate.
Qed.

Lemma parse_size_string_suffixed (s : str) c r :
  rank c = Some r ->
  parse_size_string (s ++ [c]) default_suffixes
  = match py_int s with
    | Some n => Ok (n * 1024 ^ r)
    | None => Raise ValueError
    end.
Proof.
  intros Hrank. unfold parse_size_string. rewrite last_char_snoc, but_last_snoc.
  pose proof (suffix_rank c) as Hr. rewrite Hrank in Hr.
  apply andb_true_iff in Hr as [Hr H8]. apply andb_true_iff in Hr as [Hr H1].
  apply Z.eqb_eq in Hr. apply Z.leb_le in H1, H8. rewrite Hr.
  destruct (r - 1 =? -1) eqn:E; [apply Z.eqb_eq in E; lia|].
  unfold int_of_str. destruct (py_int s); simpl; [|reflexivity].
  do 2 f_equal. f_equal. lia.
Qed.

(** X20.  A size suffix stands after an integer, once: [parse_size_string]
    raises [ValueError] on a suffix letter alone and on a string that ends
    in two suffix letters, and on digits followed by one suffix letter it
    gives their decimal value times 1024 to the power of the rank of the
    letter, which is at least 1024 times the value without the letter
    when the digits are not all zero. *)
Theorem parse_size_string_suffix_once (c : ascii) (r : Z) :
  rank c = Some r ->
  parse_size_string [c] default_suffixes = Raise ValueError
  /\ (forall (s : str) c', is_Some (rank c') ->
        parse_size_string (s ++ [c'; c]) default_suffixes = Raise ValueError)
  /\ (forall v : str, v <> [] -> forallb is_digit v = true ->
        parse_size_string (v ++ [c]) default_suffixes = Ok (decimal v * 1024 ^ r)
        /\ parse_size_string v default_suffixes = Ok (decimal v)
        /\ 1024 * decimal v <= decimal v * 1024 ^ r).
Proof.
  intros Hrank. split; [|split].
  - exact (parse_size_string_suffixed [] c r Hrank).
  - intros s c' Hc'.
    change (s ++ [c'; c]) with (s ++ [c'] ++ [c]). rewrite app_assoc.
    rewrite (parse_size_string_suffixed (s ++ [c']) c r Hrank).
    by rewrite py_int_letter_last by (by apply rank_not_int_char).
  - intros v Hne Hd.
    rewrite (parse_size_string_suffixed v c r Hrank), (py_int_digits v Hne Hd).
    split; [reflexivity|]. split.
    + destruct (last_char_forall is_digit v Hne Hd) as (x & Hx & Hxd).
      destruct (suffix_digit x Hxd) as [Hf _].
      unfold parse_size_string, int_of_str. by rewrite Hx, Hf, (py_int_digits v Hne Hd).
    + pose proof (suffix_rank c) as Hr. rewrite Hrank in Hr.
      apply andb_true_iff in Hr as [Hr _]. apply andb_true_iff in Hr as [_ H1].
      apply Z.leb_le in H1.
      assert (H0 : 0 <= decimal v).
      { unfold decimal. apply (decimal_fold_ge v 0 Hd). lia. }
      assert (Hp : 1024 ^ 1 <= 1024 ^ r) by (apply Z.pow_le_mono_r; lia).
      nia.
Qed.

Lemma parse_size_string_suffix_once_witness :
  parse_size_string (s2l "G") default_suffixes = Raise ValueError
  /\ parse_size_string (s2l "5KM") default_suffixes = Raise ValueError
  /\ parse_size_string (s2l "5M") default_suffixes = Ok (5 * 1024 ^ 2).
Proof.
  split; [|split].
  - exact (proj1 (parse_size_string_suffix_once "G" 3 eq_refl)).
  - apply (proj1 (proj2 (parse_size_string_suffix_once "M" 2 eq_refl)) (s2l "5") "K"%char).
    by eexists.
  - apply (proj2 (proj2 (parse_size_string_suffix_once "M" 2 eq_refl)) (s2l "5"));
      [discriminate|reflexivity].
Defined.

(** ** The report handler *)

Section ReportMore.
Context `{PyFloat}.

Import CaseInsensitiveDict.

Lemma check_loop_raises du cs e :
  AlertCheck.check_loop du cs = Raise e -> e = TypeError.
Proof.
  induction cs as [|c cs IH]; [discriminate|].
  cbn [AlertCheck.check_loop].
  destruct (get du _) as [v|]; cbn [BinaryOperatorM.__call__ rbind].
  - destruct (BinaryOperatorM.holds _ _); [discriminate|assumption].
  - destruct (c_op c); cbn [rbind]; try (by intros [= <-]). assumption.
Qed.

(** The exceptions of the two divisions. *)
Lemma with_percentages_raises sample used free total e :
  get sample (s2l "used") = Some used ->
  get sample (s2l "free") = Some free ->
  get sample (s2l "total") = Some total ->
  AlertCheck.with_percentages (AlertCheck.sample_dict sample) = Raise e ->
  (e = ZeroDivisionError /\ total = 0)
  \/ (e = OverflowError /\ total <> 0
      /\ (quotient_fits used total = false \/ quotient_fits free total = false)).
Proof.
  intros Hu Hf Ht. rewrite (with_percentages_spec sample used free total Hu Hf Ht).
  destruct (total =? 0) eqn:E0.
  - intros [= <-]. left. split; [reflexivity|by apply Z.eqb_eq].
  - apply Z.eqb_neq in E0.
    destruct (quotient_fits used total); [destruct (quotient_fits free total)|];
      cbn [andb]; [discriminate| |]; intros [= <-]; right; auto.
Qed.

(** The evaluation raises [ValueError] for the samples the validation
    refuses, and for no other. *)
Lemma call_value_error cs sample :
  AlertCheck.__call__ cs sample = Raise ValueError
  <-> AlertCheck.validate_params (AlertCheck.sample_dict sample) = false.
Proof.
  unfold AlertCheck.__call__.
  destruct (AlertCheck.validate_params _) eqn:Hv; cbn [negb]; [|done].
  split; [|discriminate]. intros Hcall. exfalso.
  destruct (validated_fields sample Hv) as (u & f & t & Hu & Hf & Ht).
  destruct (AlertCheck.with_percentages _) as [du|e] eqn:Hw; cbn [rbind] in Hcall.
  - apply check_loop_raises in Hcall. discriminate.
  - injection Hcall as ->.
    destruct (with_percentages_raises sample u f t _ Hu Hf Ht Hw) as [[? _]|[? _]];
      discriminate.
Qed.

Lemma check_loop_type_error du cs e :
  AlertCheck.check_loop du cs = Raise e ->
  e = TypeError
  /\ Exists (fun c => c_op c <> OpEq /\ get du (field c) = None) cs.
Proof.
  induction cs as [|c cs IH]; [discriminate|].
  cbn [AlertCheck.check_loop].
  change (if is_float (c_val c) then c_var c ++ s2l "_p" else c_var c) with (field c).
  destruct (get du (field c)) as [v|] eqn:Hg; cbn [BinaryOperatorM.__call__ rbind].
  - destruct (BinaryOperatorM.holds _ _); [discriminate|].
    intros [He Hex]%IH. split; [assumption|by apply Exists_cons_tl].
  - destruct (c_op c) eqn:Hop; cbn [rbind];
      try (intros [= <-]; split; [reflexivity|]; apply Exists_cons_hd;
           split; [congruence|assumption]).
    intros [He Hex]%IH. split; [assumption|by apply Exists_cons_tl].
Qed.

(** X23.  The exceptions of the evaluation.  Whatever [checker(sample)]
    raises is [ValueError], for a sample the validation refuses;
    [ZeroDivisionError], for a sample that passes with a total of zero;
    [OverflowError], for a sample that passes with a total that is not
    zero and [used / total] or [free / total] out of the range of
    [float]; or [TypeError], for a sample that passes all of this and a
    condition with an ordering operator on a field that is not there.  It
    raises nothing else, not [KeyError] for instance.  The first three
    causes are also enough, whatever the conditions. *)
Theorem AlertCheck_call_exceptions (cs : list condition) (sample : list (str * Z)) :
  (forall e, AlertCheck.__call__ cs sample = Raise e ->
     (e = ValueError
      /\ AlertCheck.validate_params (AlertCheck.sample_dict sample) = false)
     \/ (e = ZeroDivisionError
         /\ AlertCheck.validate_params (AlertCheck.sample_dict sample) = true
         /\ get sample (s2l "total") = Some 0)
     \/ (exists used free total,
           valid_sample sample
           /\ get sample (s2l "used") = Some used
           /\ get sample (s2l "free") = Some free
           /\ get sample (s2l "total") = Some total
           /\ ((e = OverflowError
                /\ (quotient_fits used total = false \/ quotient_fits free total = false))
               \/ (e = TypeError
                   /\ quotient_fits used total = true
                   /\ quotient_fits free total = true
                   /\ Exists (fun c => c_op c <> OpEq
                                /\ get (evaluated sample used free total) (field c) = None)
                        cs))))
  /\ (AlertCheck.validate_params (AlertCheck.sample_dict sample) = false ->
      AlertCheck.__call__ cs sample = Raise ValueError)
  /\ (AlertCheck.validate_params (AlertCheck.sample_dict sample) = true ->
      get sample (s2l "total") = Some 0 ->
      AlertCheck.__call__ cs sample = Raise ZeroDivisionError)
  /\ (forall used free total,
        valid_sample sample ->
        get sample (s2l "used") = Some used ->
        get sample (s2l "free") = Some free ->
        get sample (s2l "total") = Some total ->
        quotient_fits used total = false \/ quotient_fits free total = false ->
        AlertCheck.__call__ cs sample = Raise OverflowError).
Proof.
  split; [|split; [|split]].
  - unfold AlertCheck.__call__. intros e Hcall.
    destruct (AlertCheck.validate_params _) eqn:Hv; cbn [negb] in Hcall;
      [|injection Hcall as <-; by left].
    right.
    destruct (validated_fields sample Hv) as (u & f & t & Hu & Hf & Ht).
    destruct (AlertCheck.with_percentages _) as [du|e'] eqn:Hw; cbn [rbind] in Hcall.
    + right. exists u, f, t.
      rewrite (with_percentages_spec sample u f t Hu Hf Ht) in Hw.
      destruct (t =? 0) eqn:E0; [discriminate|]. apply Z.eqb_neq in E0.
      destruct (quotient_fits u t) eqn:Hfu; [|discriminate].
      destruct (quotient_fits f t) eqn:Hff; [|discriminate].
      injection Hw as <-.
      apply check_loop_type_error in Hcall as [-> Hex].
      split; [split; [assumption|congruence]|]. repeat (split; [assumption|]).
      right. by repeat split.
    + injection Hcall as <-.
      destruct (with_percentages_raises sample u f t _ Hu Hf Ht Hw)
        as [[-> ->]|(-> & Hne & Hfit)].
      * left. by repeat split.
      * right. exists u, f, t.
        split; [split; [assumption|congruence]|]. repeat (split; [assumption|]).
        left. by split.
  - intros Hv. by apply call_value_error.
  - intros Hv Ht. unfold AlertCheck.__call__. rewrite Hv. cbn [negb].
    destruct (validated_fields sample Hv) as (u & f & t & Hu & Hf & Ht').
    by rewrite (with_percentages_spec sample u f 0 Hu Hf Ht).
  - intros u f t [Hv Hz] Hu Hf Ht Hfit. unfold AlertCheck.__call__. rewrite Hv. cbn [negb].
    rewrite (with_percentages_spec sample u f t Hu Hf Ht).
    assert (E0 : (t =? 0) = false) by (apply Z.eqb_neq; congruence).
    rewrite E0. destruct Hfit as [-> | ->]; [reflexivity|].
    by rewrite andb_false_r.
Qed.

Lemma report_loop_skips cs alert_msg name usage : forall msgs,
  Server.report_loop cs alert_msg name usage msgs
  = Server.report_loop cs alert_msg name
      (List.filter (fun pu => AlertCheck.validate_params (AlertCheck.sample_dict pu.2)) usage)
      msgs.
Proof.
  induction usage as [|[path u] usage IH]; intros msgs; [reflexivity|].
  cbn [List.filter snd].
  destruct (AlertCheck.validate_params (AlertCheck.sample_dict u)) eqn:Hv.
  - cbn [Server.report_loop].
    destruct (AlertCheck.__call__ cs u) as [[[|c cond]|]|e]; try apply IH.
    + destruct (alert_msg _ _ _ _); cbn [rbind]; [apply IH|reflexivity].
    + destruct e; try reflexivity. apply IH.
  - cbn [Server.report_loop]. rewrite (proj2 (call_value_error cs u) Hv). apply IH.
Qed.

(** X21.  A sample of a report that the validation refuses is passed over,
    and only that: the handler answers, pushes and raises as it does for
    the report without the samples the validation refuses. *)
Theorem report_skips_invalid cs alert_msg alert_buffer name usage now1 now2 :
  Server.report cs alert_msg alert_buffer name usage now1 now2
  = Server.report cs alert_msg alert_buffer name
      (List.filter (fun pu => AlertCheck.validate_params (AlertCheck.sample_dict pu.2)) usage)
      now1 now2.
Proof. unfold Server.report. by rewrite report_loop_skips. Qed.

Lemma report_loop_aborts cs alert_msg name usage1 path u usage2 e :
  (forall m p c s, exists msg, alert_msg m p c s = Ok msg) ->
  Forall (fun pu => forall e', AlertCheck.__call__ cs pu.2 = Raise e' -> e' = ValueError) usage1 ->
  AlertCheck.__call__ cs u = Raise e -> e <> ValueError ->
  forall msgs,
    Server.report_loop cs alert_msg name (usage1 ++ (path, u) :: usage2) msgs = Raise e.
Proof.
  intros Hfmt Hall Hcall Hne. induction Hall as [|[p1 u1] usage1 Hu1 _ IH]; intros msgs.
  - cbn [app Server.report_loop]. rewrite Hcall. by destruct e.
  - cbn [app Server.report_loop]. cbn [snd] in Hu1.
    destruct (AlertCheck.__call__ cs u1) as [[[|c cond]|]|e1]; try apply IH.
    + destruct (Hfmt name p1 (c :: cond) u1) as [x ->]. cbn [rbind]. apply IH.
    + rewrite (Hu1 e1 eq_refl). apply IH.
Qed.

(** X22.  One sample on which the evaluation raises anything but
    [ValueError] (a total of zero, a condition on a field that is not
    there) makes the handler raise that exception; nothing is pushed and
    the callback is not called, whatever the paths before it alerted and
    whatever comes after it.  This is for a template that formats, and for
    paths before it on which the evaluation raises at most
    [ValueError]. *)
Theorem report_aborts cs alert_msg alert_buffer name usage1 path u usage2 e now1 now2 :
  (forall m p c s, exists msg, alert_msg m p c s = Ok msg) ->
  Forall (fun pu => forall e', AlertCheck.__call__ cs pu.2 = Raise e' -> e' = ValueError) usage1 ->
  AlertCheck.__call__ cs u = Raise e -> e <> ValueError ->
  Server.report cs alert_msg alert_buffer name (usage1 ++ (path, u) :: usage2) now1 now2
  = (Raise e, alert_buffer, []).
Proof.
  intros Hfmt Hall Hcall Hne. unfold Server.report.
  by rewrite (report_loop_aborts cs alert_msg name usage1 path u usage2 e Hfmt Hall Hcall Hne).
Qed.

(** The messages of the loop come from samples on which a condition
    holds. *)
Lemma report_loop_msgs cs alert_msg name usage : forall msgs msgs',
  Server.report_loop cs alert_msg name usage msgs = Ok msgs' ->
  msgs' = msgs
  \/ Exists (fun pu => exists raw, AlertCheck.__call__ cs pu.2 = Ok (Some raw)) usage.
Proof.
  induction usage as [|[path u] usage IH]; intros msgs msgs' Hloop.
  - left. by injection Hloop.
  - cbn [Server.report_loop] in Hloop.
    destruct (AlertCheck.__call__ cs u) as [[[|c cond]|]|e] eqn:Hcall.
    + destruct (IH _ _ Hloop) as [->|Hex]; [by left|right; by apply Exists_cons_tl].
    + right. apply Exists_cons_hd. by exists (c :: cond).
    + destruct (IH _ _ Hloop) as [->|Hex]; [by left|right; by apply Exists_cons_tl].
    + destruct e; try discriminate.
      destruct (IH _ _ Hloop) as [->|Hex]; [by left|right; by apply Exists_cons_tl].
Qed.

Lemma report_loop_quiet cs alert_msg name usage : forall msgs,
  Forall (fun pu => AlertCheck.__call__ cs pu.2 = Ok None
                    \/ AlertCheck.__call__ cs pu.2 = Raise ValueError) usage ->
  Server.report_loop cs alert_msg name usage msgs = Ok msgs.
Proof.
  induction usage as [|[path u] usage IH]; intros msgs Hall; [reflexivity|].
  inversion Hall as [|? ? Hu Hrest]; subst. cbn [snd] in Hu.
  cbn [Server.report_loop]. destruct Hu as [-> | ->]; by apply IH.
Qed.

(** X24.  The handler flushes nothing by itself.  A report in which no
    sample meets a condition, each giving no alert or being refused by the
    validation, does not reach [push]: the body is empty, the buffer and
    its deadline stay as they are and the callback is not called, whatever
    is pending and however far the clock is beyond the deadline.  And when
    the callback is called during a report, a sample of that report met a
    condition and the first reading of the clock had reached the
    deadline. *)
Theorem report_without_alert cs alert_msg alert_buffer name usage now1 now2 :
  (Forall (fun pu => AlertCheck.__call__ cs pu.2 = Ok None
                     \/ AlertCheck.__call__ cs pu.2 = Raise ValueError) usage ->
   Server.report cs alert_msg alert_buffer name usage now1 now2
   = (Ok [], alert_buffer, []))
  /\ ((Server.report cs alert_msg alert_buffer name usage now1 now2).2 <> [] ->
      Exists (fun pu => exists raw, AlertCheck.__call__ cs pu.2 = Ok (Some raw)) usage
      /\ AlertBuffer.next_time alert_buffer <= now1).
Proof.
  split.
  - intros Hall. unfold Server.report. by rewrite (report_loop_quiet cs alert_msg name usage []).
  - unfold Server.report.
    destruct (Server.report_loop cs alert_msg name usage []) as [[|m msgs]|e] eqn:Hloop;
      [done| |done].
    intros Hcalls. split.
    + destruct (report_loop_msgs _ _ _ _ _ _ Hloop) as [?|Hex]; [discriminate|assumption].
    + unfold AlertBuffer.push in Hcalls.
      cbn [AlertBuffer.stored AlertBuffer.next_time] in Hcalls.
      destruct (AlertBuffer.next_time alert_buffer <=? now1) eqn:Hdue;
        [by apply Z.leb_le|].
      exfalso. apply Hcalls. reflexivity.
Qed.

End ReportMore.

Lemma AlertCheck_call_exceptions_witness :
  AlertCheck.validate_params
    (AlertCheck.sample_dict [(s2l "Used", 1); (s2l "free", 2); (s2l "total", 3)]) = false
  /\ AlertCheck.__call__ test_checker [(s2l "total", 1); (s2l "used", 10 ^ 400); (s2l "free", 0)]
     = Raise OverflowError
  /\ AlertCheck.__call__ test_checker [(s2l "total", 0); (s2l "used", 1); (s2l "free", 0)]
     = Raise ZeroDivisionError.
Proof.
  split; [|split].
  - destruct (proj1 (AlertCheck_call_exceptions test_checker
                       [(s2l "Used", 1); (s2l "free", 2); (s2l "total", 3)])
                ValueError eq_refl)
      as [[_ Hv]|[[He _]|(u & f & t & _ & _ & _ & _ & [[He _]|[He _]])]];
      [exact Hv|discriminate|discriminate|discriminate].
  - apply (proj2 (proj2 (proj2 (AlertCheck_call_exceptions test_checker
                    [(s2l "total", 1); (s2l "used", 10 ^ 400); (s2l "free", 0)])))
             (10 ^ 400) 0 1); try reflexivity.
    + split; [reflexivity|vm_compute; discriminate].
    + left. vm_compute. reflexivity.
  - apply (proj1 (proj2 (proj2 (AlertCheck_call_exceptions test_checker
                    [(s2l "total", 0); (s2l "used", 1); (s2l "free", 0)])))); reflexivity.
Defined.

Lemma report_aborts_witness :
  let b := AlertBuffer.__init__ 10 (fun _ => Ok tt) in
  Server.report test_checker plain_msg b (s2l "host-a")
    [(s2l "/", test_sample 96 4);
     (s2l "/data", [(s2l "used", 0); (s2l "free", 0); (s2l "total", 0)]);
     (s2l "/home", test_sample 9 91)] 100 100
  = (Raise ZeroDivisionError, b, []).
Proof.
  intros b.
  apply (report_aborts test_checker plain_msg b (s2l "host-a")
           [(s2l "/", test_sample 96 4)] (s2l "/data")
           [(s2l "used", 0); (s2l "free", 0); (s2l "total", 0)]
           [(s2l "/home", test_sample 9 91)] ZeroDivisionError 100 100).
  - intros m p c s. by eexists.
  - repeat constructor. intros e'. vm_compute. discriminate.
  - reflexivity.
  - discriminate.
Defined.

Example report_example :
  let b := AlertBuffer.__init__ 10 (fun _ => Ok tt) in
  Server.report test_checker plain_msg b (s2l "host-a")
    [(s2l "/", test_sample 96 4); (s2l "/bad", [(s2l "used", 1)]);
     (s2l "/home", test_sample 9 91); (s2l "/var", test_sample 96 40)] 100 100
  = (Ok (s2l "host-a:/:FREE < 5G" ++ ["010"%char] ++ s2l "host-a:/var:USED>95%"),
     AlertBuffer.flushed b 100,
     [{[s2l "host-a" := s2l "host-a:/:FREE < 5G" ++ ["010"%char] ++ s2l "host-a:/var:USED>95%"]}]).
Proof. vm_compute. reflexivity. Qed.

Lemma report_without_alert_witness :
  let b := AlertBuffer.stored (AlertBuffer.flushed (AlertBuffer.__init__ 10 (fun _ => Ok tt)) 0)
             (s2l "host-b") (s2l "host-b:/:FREE < 5G") in
  AlertBuffer.next_time b = 10
  /\ AlertBuffer.buffer b !! s2l "host-b" = Some (s2l "host-b:/:FREE < 5G")
  /\ Server.report test_checker plain_msg b (s2l "host-a")
       [(s2l "/", test_sample 9 91); (s2l "/bad", [(s2l "used", 1)])] 1000 1000
     = (Ok [], b, []).
Proof.
  intros b. split; [reflexivity|]. split; [apply lookup_insert_eq|].
  apply (proj1 (report_without_alert test_checker plain_msg b (s2l "host-a")
                  [(s2l "/", test_sample 9 91); (s2l "/bad", [(s2l "used", 1)])] 1000 1000)).
  constructor; [left; reflexivity|]. constructor; [right; reflexivity|constructor].
Defined.
